(** * Slic3r, libslic3r/Layer.cpp: a layer, its regions, its islands and its
    perimeter pass; slic3r/GUI/PresetBundle.cpp: the filament presets of a
    bundle, its selections and the colours of its combo boxes.

    The development follows xs/src/libslic3r/Layer.cpp and, in its last
    part, xs/src/slic3r/GUI/PresetBundle.cpp.  A [Layer] owns a
    vector of [LayerRegion]s; [make_slices] merges the regions' slices into
    the layer's islands, [make_perimeters] groups the regions by the
    perimeter-relevant part of their configuration and generates the
    perimeters once per group.  C++ statements that mutate [this] are
    written in a state monad whose results record a normal return, a thrown
    exception or undefined behaviour; a thrown exception leaves the state as
    it was mutated up to the throw, as C++ unwinding does. *)

From Stdlib Require Import QArith Qcanon Ascii.
From stdpp Require Import base numbers list sorting gmap strings pretty.

Local Open Scope Z_scope.

(** ** Outcomes of C++ calls and the state monad *)

Inductive exception := OutOfRange | DegenerateGeometry | LengthError.

Inductive outcome (A : Type) :=
  | Return (a : A)
  | Throw (e : exception)
  | Undefined.
Arguments Return {A} a.
Arguments Throw {A} e.
Arguments Undefined {A}.

Definition M (S A : Type) : Type := S → S * outcome A.

Definition M_ret {S A} (a : A) : M S A := λ s, (s, Return a).

Definition M_bind {S A B} (f : A → M S B) (m : M S A) : M S B := λ s,
  match m s with
  | (s', Return a) => f a s'
  | (s', Throw e) => (s', Throw e)
  | (s', Undefined) => (s', Undefined)
  end.

Global Instance M_MRet S : MRet (M S) := @M_ret S.
Global Instance M_MBind S : MBind (M S) := @M_bind S.

Definition get {S} : M S S := λ s, (s, Return s).
Definition modify {S} (f : S → S) : M S unit := λ s, (f s, Return tt).
Definition throw {S A} (e : exception) : M S A := λ s, (s, Throw e).
Definition undefined {S A} : M S A := λ s, (s, Undefined).

(** A call of a geometry primitive: [None] is the primitive's failure,
    which reaches the caller as an exception. *)
Definition geom {S A} (r : option A) : M S A :=
  match r with
  | Some a => mret a
  | None => throw DegenerateGeometry
  end.

(** An access that C++ does not check ([front()], [operator[]], a
    dereference): outside the container it is undefined behaviour. *)
Definition unchecked {S A} (r : option A) : M S A :=
  match r with
  | Some a => mret a
  | None => undefined
  end.

(** A C++ loop over the elements of a container, in order. *)
Fixpoint foreach {S A} (xs : list A) (body : A → M S unit) : M S unit :=
  match xs with
  | [] => mret tt
  | x :: xs' => body x ;; foreach xs' body
  end.

(** A loop that builds a local collection. *)
Fixpoint foldM {S A B} (body : B → A → M S B) (acc : B) (xs : list A)
    : M S B :=
  match xs with
  | [] => mret acc
  | x :: xs' => acc' ← body acc x; foldM body acc' xs'
  end.

(** [m] relates the state it starts from to the state it ends in,
    whatever its outcome. *)
Definition preserves {S A} (R : relation S) (m : M S A) : Prop :=
  ∀ s s' o, m s = (s', o) → R s s'.

(** The state is left as it was. *)
Definition same_state {S} : relation S := λ s s', s' = s.

(** From a state in [P], [m] either returns a value and a state in [Q]
    or throws [DegenerateGeometry]; its behaviour is never undefined and
    it throws nothing else. *)
Definition triple {S A} (P : S → Prop) (m : M S A) (Q : A → S → Prop)
    : Prop :=
  ∀ s, P s →
    match m s with
    | (s', Return a) => Q a s'
    | (_, Throw e) => e = DegenerateGeometry
    | (_, Undefined) => False
    end.

(** ** Geometry data *)

Record Point := mkPoint { x : Z; y : Z }.
Abbreviation Points := (list Point).

Record Polygon := mkPolygon { points : Points }.
Abbreviation Polygons := (list Polygon).

Record ExPolygon := mkExPolygon { contour : Polygon; holes : Polygons }.
Abbreviation ExPolygons := (list ExPolygon).

Inductive SurfaceType :=
  | stTop | stBottom | stBottomBridge
  | stInternal | stInternalSolid | stInternalBridge | stInternalVoid.

(** The members of [Surface] that Layer.cpp reads or writes;
    [extra_perimeters] is an [unsigned short]. *)
Record Surface := mkSurface {
  surface_type : SurfaceType;
  extra_perimeters : Z;
  expolygon : ExPolygon
}.
Abbreviation Surfaces := (list Surface).

(** [SurfaceCollection] wraps one member, [surfaces]. *)
Abbreviation SurfaceCollection := (list Surface).

Global Instance Point_eq_dec : EqDecision Point.
Proof. solve_decision. Defined.
Global Instance Polygon_eq_dec : EqDecision Polygon.
Proof. solve_decision. Defined.
Global Instance ExPolygon_eq_dec : EqDecision ExPolygon.
Proof. solve_decision. Defined.
Global Instance SurfaceType_eq_dec : EqDecision SurfaceType.
Proof. solve_decision. Defined.
Global Instance Surface_eq_dec : EqDecision Surface.
Proof. solve_decision. Defined.

(** [Surface s = t; s.expolygon = ex;] *)
Definition with_expolygon (t : Surface) (ex : ExPolygon) : Surface :=
  {| surface_type := surface_type t;
     extra_perimeters := extra_perimeters t;
     expolygon := ex |}.

(** [MultiPoint::first_point()] is [points.front()]. *)
Definition first_point (p : Polygon) : option Point := head (points p).

(** Modelled from the spec: the conversion operators of ExPolygon and
    SurfaceCollection (ExPolygon.cpp, SurfaceCollection.cpp) are missing;
    an ExPolygon converts to its contour followed by its holes, a surface
    collection to the polygons, respectively the ExPolygons, of its
    surfaces in order. *)
Definition ExPolygon_to_polygons (ex : ExPolygon) : Polygons :=
  contour ex :: holes ex.
Definition to_polygons (sc : SurfaceCollection) : Polygons :=
  flat_map (λ s, ExPolygon_to_polygons (expolygon s)) sc.
Definition to_expolygons (sc : SurfaceCollection) : ExPolygons :=
  expolygon <$> sc.

(** ** Region configuration *)

(** Speeds are C++ doubles read from the configuration; a finite double
    is modelled by its rational value, on which [==] is equality. *)
Abbreviation coordf_t := Qc.

Record ConfigOptionFloatOrPercent := mkFloatOrPercent {
  value : Qc;
  percent : bool
}.

(** The eight options of [PrintRegionConfig] that [make_perimeters]
    compares. *)
Record PrintRegionConfig := mkPrintRegionConfig {
  perimeter_extruder : Z;
  perimeters : Z;
  perimeter_speed : Qc;
  gap_fill_speed : Qc;
  overhangs : bool;
  perimeter_extrusion_width : ConfigOptionFloatOrPercent;
  thin_walls : bool;
  external_perimeters_first : bool
}.

(** ** Layer regions and layers *)

Module LayerRegion.
(** [config] stands for [region()->config]. *)
Record t := mk {
  config : PrintRegionConfig;
  slices : SurfaceCollection;
  fill_surfaces : SurfaceCollection;
  perimeter_surfaces : SurfaceCollection
}.

Definition set_fill_surfaces (v : SurfaceCollection) (r : t) : t :=
  {| config := config r; slices := slices r;
     fill_surfaces := v; perimeter_surfaces := perimeter_surfaces r |}.
Definition set_perimeter_surfaces (v : SurfaceCollection) (r : t) : t :=
  {| config := config r; slices := slices r;
     fill_surfaces := fill_surfaces r; perimeter_surfaces := v |}.
End LayerRegion.

(** Pointers to layers and to the print object are addresses. *)
Definition addr := positive.

Record Layer := mkLayer {
  upper_layer : option addr;
  lower_layer : option addr;
  regions : list LayerRegion.t;
  slicing_errors : bool;
  slice_z : coordf_t;
  print_z : coordf_t;
  height : coordf_t;
  slices : ExPolygons;
  perimeter_expolygons : ExPolygons;
  _id : nat;
  _object : addr
}.

Definition set_upper_layer (v : option addr) (l : Layer) : Layer :=
  mkLayer v (lower_layer l) (regions l) (slicing_errors l) (slice_z l)
    (print_z l) (height l) (slices l) (perimeter_expolygons l) (_id l)
    (_object l).
Definition set_lower_layer (v : option addr) (l : Layer) : Layer :=
  mkLayer (upper_layer l) v (regions l) (slicing_errors l) (slice_z l)
    (print_z l) (height l) (slices l) (perimeter_expolygons l) (_id l)
    (_object l).
Definition set_regions (v : list LayerRegion.t) (l : Layer) : Layer :=
  mkLayer (upper_layer l) (lower_layer l) v (slicing_errors l) (slice_z l)
    (print_z l) (height l) (slices l) (perimeter_expolygons l) (_id l)
    (_object l).
Definition set_slices (v : ExPolygons) (l : Layer) : Layer :=
  mkLayer (upper_layer l) (lower_layer l) (regions l) (slicing_errors l)
    (slice_z l) (print_z l) (height l) v (perimeter_expolygons l) (_id l)
    (_object l).
Definition set_perimeter_expolygons (v : ExPolygons) (l : Layer) : Layer :=
  mkLayer (upper_layer l) (lower_layer l) (regions l) (slicing_errors l)
    (slice_z l) (print_z l) (height l) (slices l) v (_id l) (_object l).

(** [Layer::Layer]: no neighbours, no regions, no islands. *)
Definition Layer_ctor (id : nat) (object : addr)
    (height print_z slice_z : coordf_t) : Layer :=
  {| upper_layer := None; lower_layer := None; regions := [];
     slicing_errors := false; slice_z := slice_z; print_z := print_z;
     height := height; slices := []; perimeter_expolygons := [];
     _id := id; _object := object |}.

(** Two states of a layer that differ at most in the fill and perimeter
    surfaces of its regions and in [perimeter_expolygons]. *)
Definition same_input (s s' : Layer) : Prop :=
  (λ r, (LayerRegion.config r, LayerRegion.slices r)) <$> regions s'
  = (λ r, (LayerRegion.config r, LayerRegion.slices r)) <$> regions s
  ∧ slices s' = slices s
  ∧ upper_layer s' = upper_layer s ∧ lower_layer s' = lower_layer s
  ∧ slicing_errors s' = slicing_errors s.

(** Two states of a layer whose regions outside [g] are the same. *)
Definition same_outside (g : list nat) (s s' : Layer) : Prop :=
  ∀ l, l ∉ g → regions s' !! l = regions s !! l.

(** Two states of a layer with the same [perimeter_expolygons]. *)
Definition same_perimeter_expolygons (s s' : Layer) : Prop :=
  perimeter_expolygons s' = perimeter_expolygons s.

(** Two states of a layer that differ at most in the islands. *)
Definition same_but_slices (s s' : Layer) : Prop :=
  s' = set_slices (slices s') s.

(** ** Region management *)

Definition region_count (this : Layer) : nat := length (regions this).

(** The layer has [n] regions. *)
Definition sized (n : nat) (this : Layer) : Prop := region_count this = n.

(** An [int] argument converted to [size_t] (64 bits). *)
Definition size_t_of_int (i : Z) : Z := i `mod` 2 ^ 64.

(** [int(n)] of a [size_t]. *)
Definition int_of_size_t (n : Z) : Z := (n + 2 ^ 31) `mod` 2 ^ 32 - 2 ^ 31.

(** [std::vector::at]: a checked access. *)
Definition vector_at {A} (v : list A) (n : Z) : outcome A :=
  match v !! Z.to_nat n with
  | Some a => Return a
  | None => Throw OutOfRange
  end.

(** [Layer::get_region]: [return this->regions.at(idx);] *)
Definition get_region (idx : Z) (this : Layer) : outcome LayerRegion.t :=
  vector_at (regions this) (size_t_of_int idx).

(** [Layer::add_region]; the new region has empty collections. *)
Definition add_region (print_region : PrintRegionConfig) : M Layer nat :=
  λ this,
    let region := LayerRegion.mk print_region [] [] [] in
    (set_regions (regions this ++ [region]) this, Return (region_count this)).

(** [Layer::delete_region]: the iterator [begin() + idx] is dereferenced
    and erased without a range check; outside [[0, size)] both are
    undefined behaviour. *)
Definition delete_region (idx : Z) : M Layer unit := λ this,
  if decide (0 ≤ idx < Z.of_nat (length (regions this)))
  then (set_regions (delete (Z.to_nat idx) (regions this)) this, Return tt)
  else (this, Undefined).

(** The loop of [Layer::clear_regions],
    [for (...; i >= 0; --i) delete_region(i);]
    with [n] the number of iterations left, that is, at [i = n - 1]. *)
Fixpoint clear_regions_from (n : nat) : M Layer unit :=
  match n with
  | O => mret tt
  | S i => delete_region (Z.of_nat i) ;; clear_regions_from i
  end.

(** [Layer::clear_regions]: the counter is an [int] that starts at
    [regions.size()-1], a [size_t] that wraps at zero and is converted. *)
Definition clear_regions : M Layer unit := λ this,
  let i :=
    int_of_size_t ((Z.of_nat (length (regions this)) - 1) `mod` 2 ^ 64) in
  clear_regions_from (Z.to_nat (i + 1)) this.

(** ** The layer stack as a heap, and the destructor *)

(** The layers of an object live at addresses; [upper_layer] and
    [lower_layer] are non-owning pointers into this heap. *)
Abbreviation heap := (gmap addr Layer).

(** Run a member function on the layer at address [a]; a call through a
    pointer to no live layer is undefined behaviour. *)
Definition at_layer {A} (a : addr) (m : M Layer A) : M heap A := λ h,
  match h !! a with
  | Some l => let '(l', r) := m l in (<[a := l']> h, r)
  | None => (h, Undefined)
  end.

(** The first two statements of [Layer::~Layer]: remove the neighbours'
    references to [this]. *)
Definition Layer_dtor_unlink (this : addr) : M heap unit :=
  l ← at_layer this get;
  match upper_layer l with
  | Some u => at_layer u (modify (set_lower_layer None))
  | None => mret tt
  end ;;
  l ← at_layer this get;
  match lower_layer l with
  | Some d => at_layer d (modify (set_upper_layer None))
  | None => mret tt
  end.

(** [Layer::~Layer]. *)
Definition Layer_dtor (this : addr) : M heap unit :=
  Layer_dtor_unlink this ;; at_layer this clear_regions.

(** [delete layer;]: the destructor, then the storage is released. *)
Definition delete_layer (this : addr) : M heap unit :=
  Layer_dtor this ;; modify (delete this).

(** [new Layer(...)] at an address the heap does not use. *)
Definition new_layer (a : addr) (id : nat) (object : addr)
    (height print_z slice_z : coordf_t) : M heap addr :=
  modify (<[a := Layer_ctor id object height print_z slice_z]>) ;; mret a.

(** Neighbour symmetry: an upper neighbour is a live layer whose lower
    neighbour is this layer, and conversely. *)
Definition linked (h : heap) : Prop :=
  ∀ a la, h !! a = Some la →
    (∀ b, upper_layer la = Some b →
       ∃ lb, h !! b = Some lb ∧ lower_layer lb = Some a) ∧
    (∀ b, lower_layer la = Some b →
       ∃ lb, h !! b = Some lb ∧ upper_layer lb = Some a).

(** The heap after the first two statements of the destructor of the
    layer [la] at [a], in closed form. *)
Definition unlinked_heap (h : heap) (a : addr) (la : Layer) : heap :=
  let h1 :=
    match upper_layer la with
    | Some u => alter (set_lower_layer None) u h
    | None => h
    end in
  match h1 !! a ≫= lower_layer with
  | Some d => alter (set_upper_layer None) d h1
  | None => h1
  end.

(** What the unlinking does to the layer at [c], given the upper
    neighbour [u] and the lower neighbour [d] it acts on. *)
Definition unlink_at (u d : option addr) (c : addr) (l : Layer) : Layer :=
  (if decide (d = Some c) then set_upper_layer None else id)
    ((if decide (u = Some c) then set_lower_layer None else id) l).

(** ** The chaining heuristic *)

Module Geometry.
Definition distance_sq (a b : Point) : Z :=
  (x a - x b) ^ 2 + (y a - y b) ^ 2.

(** The candidate nearest to [from]; candidates are scanned in input
    order and replace the best one only when strictly nearer, so that
    among equally near ones the first in input order is kept. *)
Fixpoint nearest (from : Point) (best : nat * Point)
    (cands : list (nat * Point)) : nat * Point :=
  match cands with
  | [] => best
  | c :: cs =>
      if decide (distance_sq from c.2 < distance_sq from best.2)
      then nearest from c cs
      else nearest from best cs
  end.

Fixpoint chain (fuel : nat) (from : Point)
    (remaining : list (nat * Point)) : list nat :=
  match fuel, remaining with
  | S fuel', c :: cs =>
      let b := nearest from c cs in
      b.1 :: chain fuel' b.2 (filter (λ q, q.1 ≠ b.1) remaining)
  | _, _ => []
  end.

(** The candidates of a scan carry strictly increasing input indices. *)
Definition increasing (cands : list (nat * Point)) : Prop :=
  StronglySorted lt (cands.*1).

(** [order] is a greedy chain over [pts] that leaves from [from]: each
    index it visits is that of a point nearest to the previous position
    among the points still to visit, and the least such index. *)
Fixpoint greedy_chain (pts : Points) (from : Point) (order : list nat)
    : Prop :=
  match order with
  | [] => True
  | i :: rest =>
      ∃ p, pts !! i = Some p ∧
        (∀ j q, j ∈ rest → pts !! j = Some q →
           distance_sq from p ≤ distance_sq from q ∧
           (distance_sq from p = distance_sq from q → (i ≤ j)%nat)) ∧
        greedy_chain pts p rest
  end.

(** Modelled from the spec: [Geometry::chained_path] (Geometry.cpp) is
    missing.  It is the greedy nearest-neighbour chain over the points:
    the visit starts at the first input point and goes on, each time, to
    the nearest point not yet visited, ties broken by original input
    index.  The result lists the input indices in visiting order. *)
Definition chained_path (points : Points) : list nat :=
  match points with
  | [] => []
  | p0 :: _ => chain (length points) p0 (imap pair points)
  end.
End Geometry.

(** ** The external collaborators *)

(** The routines Layer.cpp calls in PrintConfig, ClipperUtils and
    LayerRegion.  A geometry routine that fails answers [None].
    [LayerRegion_make_perimeters this slices] answers the contents of the
    two output collections, perimeter surfaces first; at both call sites
    they are empty when the routine is entered.  The routine writes to
    the collections it is given: when it fails,
    [LayerRegion_make_perimeters_failed this slices] is what they hold by
    then. *)
Class Externals := {
  serialize : PrintRegionConfig → string → string;
  union_ : Polygons → option ExPolygons;
  union_ex : Surfaces → bool → option ExPolygons;
  intersection_ex : SurfaceCollection → SurfaceCollection → option ExPolygons;
  LayerRegion_make_perimeters :
    LayerRegion.t → SurfaceCollection →
    option (SurfaceCollection * SurfaceCollection);
  LayerRegion_make_perimeters_failed :
    LayerRegion.t → SurfaceCollection →
    SurfaceCollection * SurfaceCollection
}.

Section Layer_ops.
Context `{Externals}.

(** *** make_slices *)

(** The general path of [make_slices]: union of all regions' polygons. *)
Definition union_of_regions (this : Layer) : option ExPolygons :=
  union_ (flat_map (λ layerm, to_polygons (LayerRegion.slices layerm))
            (regions this)).

(** The island set [make_slices] starts from: the slices of the only
    region, or the union of the polygons of all regions. *)
Definition merged_slices (this : Layer) : option ExPolygons :=
  if decide (length (regions this) = 1%nat)
  then (λ front, to_expolygons (LayerRegion.slices front))
         <$> head (regions this)
  else union_of_regions this.

(** Everything of [make_slices] after the island set is known. *)
Definition store_chained (slices' : ExPolygons) : M Layer unit :=
  modify (set_slices []) ;;
  ordering_points ←
    unchecked (mapM (λ ex, first_point (contour ex)) slices');
  let order := Geometry.chained_path ordering_points in
  foreach order (λ it,
    ex ← unchecked (slices' !! it);
    modify (λ this, set_slices (slices this ++ [ex]) this)).

(** [Layer::make_slices]. *)
Definition make_slices : M Layer unit :=
  this ← get;
  slices' ←
    (if decide (length (regions this) = 1%nat)
     then front ← unchecked (head (regions this));
          mret (to_expolygons (LayerRegion.slices front))
     else geom (union_of_regions this));
  store_chained slices'.

(** The general path taken whatever the number of regions. *)
Definition make_slices_general : M Layer unit :=
  this ← get;
  slices' ← geom (union_of_regions this);
  store_chained slices'.

(** *** make_perimeters *)

(** The test of the inner loop of [make_perimeters]. *)
Definition compatible (config other_config : PrintRegionConfig) : bool :=
  bool_decide (perimeter_extruder config = perimeter_extruder other_config)
  && bool_decide (perimeters config = perimeters other_config)
  && bool_decide (perimeter_speed config = perimeter_speed other_config)
  && bool_decide (gap_fill_speed config = gap_fill_speed other_config)
  && bool_decide (overhangs config = overhangs other_config)
  && bool_decide (serialize config "perimeter_extrusion_width"
                  = serialize other_config "perimeter_extrusion_width")
  && bool_decide (thin_walls config = thin_walls other_config)
  && bool_decide (external_perimeters_first config
                  = external_perimeters_first other_config).

(** The inner loop: the indices, from [it] on, of the regions in [rest]
    whose configuration is compatible with [config]. *)
Fixpoint compatible_from (config : PrintRegionConfig) (it : nat)
    (rest : list LayerRegion.t) : list nat :=
  match rest with
  | [] => []
  | other_layerm :: rest' =>
      if compatible config (LayerRegion.config other_layerm)
      then it :: compatible_from config (S it) rest'
      else compatible_from config (S it) rest'
  end.

(** The regions after [region_id] that join its group. *)
Definition find_compatible (rs : list LayerRegion.t) (region_id : nat)
    (config : PrintRegionConfig) : list nat :=
  compatible_from config (S region_id) (drop (S region_id) rs).

(** [layerms] holds pointers to regions of [this]: a member of a group
    is the index of its region. *)
Definition region_ptr (l : nat) : M Layer LayerRegion.t :=
  this ← get; unchecked (regions this !! l).

Definition modify_region (l : nat) (f : LayerRegion.t → LayerRegion.t)
    : M Layer unit :=
  modify (λ this, set_regions (alter f l (regions this)) this).

(** [slices[k].push_back(s)] on a [std::map], which is kept and
    iterated in increasing key order. *)
Fixpoint bucket_push (k : Z) (s : Surface) (m : list (Z * Surfaces))
    : list (Z * Surfaces) :=
  match m with
  | [] => [(k, [s])]
  | (k', ss) :: m' =>
      if decide (k = k') then (k', ss ++ [s]) :: m'
      else if decide (k < k') then (k, [s]) :: m
      else (k', ss) :: bucket_push k s m'
  end.

(** The buckets after the surfaces [all] have been pushed in order. *)
Definition pooled (all : Surfaces) : list (Z * Surfaces) :=
  foldl (λ m s, bucket_push (extra_perimeters s) s m) [] all.

(** The buckets [m] hold the surfaces [seen], each under its number of
    extra perimeters: the keys increase strictly, a bucket holds exactly
    the surfaces of its key, in the order they were seen, and none is
    empty. *)
Definition bucketed (m : list (Z * Surfaces)) (seen : Surfaces) : Prop :=
  StronglySorted Z.lt (m.*1) ∧
  (∀ k ss, (k, ss) ∈ m →
     ss ≠ [] ∧ ss = filter (λ s, extra_perimeters s = k) seen) ∧
  (∀ s, s ∈ seen → extra_perimeters s ∈ m.*1).

(** Copy the perimeter surfaces to the layer's [perimeter_expolygons]. *)
Definition copy_perimeter_expolygons (perimeter_surfaces : SurfaceCollection)
    : M Layer unit :=
  modify (set_perimeter_expolygons []) ;;
  foreach perimeter_surfaces (λ it,
    modify (λ this,
      set_perimeter_expolygons
        (perimeter_expolygons this ++ [expolygon it]) this)).

(** The call of the perimeter routine on the region's own collections:
    they hold what the routine has written, also when it fails. *)
Definition make_perimeters_in_place (region_id : nat) : M Layer unit :=
  layerm ← region_ptr region_id;
  match LayerRegion_make_perimeters layerm (LayerRegion.slices layerm) with
  | Some out =>
      modify_region region_id
        (λ r, LayerRegion.set_fill_surfaces out.2
                (LayerRegion.set_perimeter_surfaces out.1 r))
  | None =>
      let out :=
        LayerRegion_make_perimeters_failed layerm
          (LayerRegion.slices layerm) in
      modify_region region_id
        (λ r, LayerRegion.set_fill_surfaces out.2
                (LayerRegion.set_perimeter_surfaces out.1 r)) ;;
      throw DegenerateGeometry
  end.

(** The branch [layerms.size() == 1]. *)
Definition make_perimeters_single (region_id : nat) : M Layer unit :=
  modify_region region_id (LayerRegion.set_fill_surfaces []) ;;
  modify_region region_id (LayerRegion.set_perimeter_surfaces []) ;;
  make_perimeters_in_place region_id ;;
  layerm ← region_ptr region_id;
  copy_perimeter_expolygons (LayerRegion.perimeter_surfaces layerm).

(** Group the slices of the members by number of extra perimeters. *)
Definition pool_slices (layerms : list nat) : M Layer (list (Z * Surfaces)) :=
  foldM (λ slices' l,
      layerm ← region_ptr l;
      foldM (λ slices' s,
          mret (bucket_push (extra_perimeters s) s slices'))
        slices' (LayerRegion.slices layerm))
    [] layerms.

(** Merge the surfaces assigned to each bucket. *)
Definition merge_pooled (slices' : list (Z * Surfaces))
    : M Layer SurfaceCollection :=
  foldM (λ new_slices it,
      expp ← geom (union_ex it.2 true);
      foldM (λ new_slices ex,
          s ← unchecked (head it.2);
          mret (new_slices ++ [with_expolygon s ex]))
        new_slices expp)
    [] slices'.

(** The body of the redistribution loop for one member [l]. *)
Definition split_back (perimeter_surfaces fill_surfaces : SurfaceCollection)
    (l : nat) : M Layer unit :=
  layerm ← region_ptr l;
  expp ← geom (intersection_ex fill_surfaces (LayerRegion.slices layerm));
  modify_region l (LayerRegion.set_fill_surfaces []) ;;
  foreach expp (λ ex,
    s ← unchecked (head fill_surfaces);
    modify_region l (λ r,
      LayerRegion.set_fill_surfaces
        (LayerRegion.fill_surfaces r ++ [with_expolygon s ex]) r)) ;;
  layerm ← region_ptr l;
  expp ← geom (intersection_ex perimeter_surfaces (LayerRegion.slices layerm));
  modify_region l (LayerRegion.set_perimeter_surfaces []) ;;
  foreach expp (λ ex,
    s ← unchecked (head fill_surfaces);
    modify_region l (λ r,
      LayerRegion.set_perimeter_surfaces
        (LayerRegion.perimeter_surfaces r ++ [with_expolygon s ex]) r)).

(** The pooled call of the perimeter routine of a multi-region group:
    its perimeter surfaces and its fill surfaces. *)
Definition make_pooled (region_id : nat) (layerms : list nat)
    : M Layer (SurfaceCollection * SurfaceCollection) :=
  slices' ← pool_slices layerms;
  new_slices ← merge_pooled slices';
  layerm ← region_ptr region_id;
  geom (LayerRegion_make_perimeters layerm new_slices).

(** The branch [layerms.size() != 1]. *)
Definition make_perimeters_multi (region_id : nat) (layerms : list nat)
    : M Layer unit :=
  out ← make_pooled region_id layerms;
  let perimeter_surfaces := out.1 in
  let fill_surfaces := out.2 in
  copy_perimeter_expolygons perimeter_surfaces ;;
  if decide (fill_surfaces ≠ [])
  then foreach layerms (split_back perimeter_surfaces fill_surfaces)
  else mret tt.

(** What [make_perimeters] does with one group; the first member is the
    region the outer loop stands at. *)
Definition make_perimeters_group (layerms : list nat) : M Layer unit :=
  match layerms with
  | [] => mret tt
  | region_id :: _ =>
      if decide (length layerms = 1%nat)
      then make_perimeters_single region_id
      else make_perimeters_multi region_id layerms
  end.

(** The outer loop of [make_perimeters] over the region indices still to
    visit, with the set [done] of the regions already in a group. *)
Fixpoint make_perimeters_loop (region_ids : list nat) (done : gset nat)
    : M Layer unit :=
  match region_ids with
  | [] => mret tt
  | region_id :: rest =>
      if decide (region_id ∈ done) then make_perimeters_loop rest done
      else
        this ← get;
        layerm ← region_ptr region_id;
        let others :=
          find_compatible (regions this) region_id
            (LayerRegion.config layerm) in
        make_perimeters_group (region_id :: others) ;;
        make_perimeters_loop rest
          (list_to_set others ∪ ({[region_id]} ∪ done))
  end.

(** [Layer::make_perimeters]. *)
Definition make_perimeters : M Layer unit := λ this,
  make_perimeters_loop (seq 0 (length (regions this))) ∅ this.

(** The groups the outer loop forms, in the order it forms them. *)
Fixpoint groups_loop (rs : list LayerRegion.t) (region_ids : list nat)
    (done : gset nat) : list (list nat) :=
  match region_ids with
  | [] => []
  | region_id :: rest =>
      if decide (region_id ∈ done) then groups_loop rs rest done
      else
        match rs !! region_id with
        | None => []
        | Some layerm =>
            let others :=
              find_compatible rs region_id (LayerRegion.config layerm) in
            (region_id :: others)
              :: groups_loop rs rest
                   (list_to_set others ∪ ({[region_id]} ∪ done))
        end
  end.

Definition perimeter_groups (this : Layer) : list (list nat) :=
  groups_loop (regions this) (seq 0 (length (regions this))) ∅.

(** Regions [i] and [j] are placed in the same group. *)
Definition same_group (gs : list (list nat)) (i j : nat) : Prop :=
  ∃ g, g ∈ gs ∧ i ∈ g ∧ j ∈ g.

(** The regions at [i] and [j] pass the test of the inner loop. *)
Definition compatible_at (rs : list LayerRegion.t) (i j : nat) : Prop :=
  ∃ ri rj, rs !! i = Some ri ∧ rs !! j = Some rj ∧
    compatible (LayerRegion.config ri) (LayerRegion.config rj) = true.

(** When the outer loop stands at region [k], [done] holds the regions
    compatible with a region before [k]. *)
Definition done_before (rs : list LayerRegion.t) (k : nat) (done : gset nat)
    : Prop :=
  ∀ j, j ∈ done ↔ ∃ i, (i < k)%nat ∧ compatible_at rs i j.

(** The surfaces the perimeter routine generates for a group, perimeter
    surfaces first: for a single region the routine runs on the region,
    its two collections cleared, and on its own slices; for several
    regions it is the pooled call. *)
Definition group_surfaces (layerms : list nat)
    : M Layer (SurfaceCollection * SurfaceCollection) :=
  match layerms with
  | [] => mret ([], [])
  | region_id :: _ =>
      if decide (length layerms = 1%nat)
      then layerm ← region_ptr region_id;
           geom (LayerRegion_make_perimeters
                   (LayerRegion.set_perimeter_surfaces []
                      (LayerRegion.set_fill_surfaces [] layerm))
                   (LayerRegion.slices layerm))
      else make_pooled region_id layerms
  end.

(** The groups processed one after the other. *)
Definition make_perimeters_groups (gs : list (list nat)) : M Layer unit :=
  foreach gs make_perimeters_group.
End Layer_ops.

(** ** Example data *)

Module Example.
Definition square (x0 y0 side : Z) : ExPolygon :=
  mkExPolygon
    (mkPolygon [mkPoint x0 y0; mkPoint (x0 + side) y0;
                mkPoint (x0 + side) (y0 + side); mkPoint x0 (y0 + side)])
    [].

Definition surface (t : SurfaceType) (extra : Z) (ex : ExPolygon) : Surface :=
  mkSurface t extra ex.

(** A configuration with [n] perimeters. *)
Definition config (n : Z) : PrintRegionConfig :=
  {| perimeter_extruder := 1; perimeters := n;
     perimeter_speed := Q2Qc 60; gap_fill_speed := Q2Qc 20;
     overhangs := true;
     perimeter_extrusion_width := mkFloatOrPercent (Q2Qc 0) false;
     thin_walls := true; external_perimeters_first := false |}.

(** A region with one square slice and fill and perimeter surfaces left
    by an earlier pass. *)
Definition region (n : Z) (x0 : Z) : LayerRegion.t :=
  {| LayerRegion.config := config n;
     LayerRegion.slices := [surface stTop 0 (square x0 0 10)];
     LayerRegion.fill_surfaces := [surface stInternal 0 (square x0 1 8)];
     LayerRegion.perimeter_surfaces := [surface stInternal 0 (square x0 0 10)] |}.

Definition layer (rs : list LayerRegion.t) : Layer :=
  set_regions rs (Layer_ctor 0 1%positive (Q2Qc 1) (Q2Qc 1) (Q2Qc 1)).

(** Collaborators for slices that are whole shapes without holes, any
    two either equal or apart.  A polygon of fewer than three points is
    degenerate and makes a geometry routine fail; the union of such
    shapes is the shapes themselves, and a shape of the subject is in
    the intersection when it is a shape of the clip.  The perimeter
    routine [generate] is left open. *)
Definition degenerate (p : Polygon) : bool :=
  bool_decide (length (points p) < 3)%nat.
Definition sound (ps : Polygons) : bool :=
  forallb (λ p, negb (degenerate p)) ps.
Definition union_shapes (ps : Polygons) : option ExPolygons :=
  if sound ps then Some ((λ p, mkExPolygon p []) <$> ps) else None.
Definition common_shapes (subject clip : SurfaceCollection)
    : option ExPolygons :=
  if sound (to_polygons subject) && sound (to_polygons clip)
  then Some (filter (λ ex, ex ∈ to_expolygons clip) (to_expolygons subject))
  else None.
Definition serialize_width (c : PrintRegionConfig) (key : string) : string :=
  if decide (key = "perimeter_extrusion_width")
  then pretty (Qnum (this (value (perimeter_extrusion_width c))))
       +:+ "/"
       +:+ pretty (Zpos (Qden (this (value (perimeter_extrusion_width c)))))
       +:+ (if percent (perimeter_extrusion_width c) then "%" else "")
  else "".

Definition externals
    (generate : LayerRegion.t → SurfaceCollection →
                option (SurfaceCollection * SurfaceCollection))
    : Externals :=
  {| serialize := serialize_width;
     union_ := union_shapes;
     union_ex := λ ss _, union_shapes (to_polygons ss);
     intersection_ex := common_shapes;
     LayerRegion_make_perimeters := generate;
     LayerRegion_make_perimeters_failed := λ _ _, ([], []) |}.

(** Three perimeter routines: a layer that is all perimeter and leaves
    nothing to fill; perimeters that keep the tag of the slice around a
    fill tagged internal; and perimeters that end in a degenerate
    sliver of two points. *)
Definition solid (_ : LayerRegion.t) (s : SurfaceCollection)
    : option (SurfaceCollection * SurfaceCollection) :=
  Some (s, []).
Definition shell (_ : LayerRegion.t) (s : SurfaceCollection)
    : option (SurfaceCollection * SurfaceCollection) :=
  Some (s, (λ t, surface stInternal 0 (expolygon t)) <$> s).
Definition sliver (_ : LayerRegion.t) (s : SurfaceCollection)
    : option (SurfaceCollection * SurfaceCollection) :=
  Some (s ++ [surface stInternal 0
                (mkExPolygon (mkPolygon [mkPoint 0 0; mkPoint 1 0]) [])],
        s).

(** A region whose three square slices are not stored in chaining
    order. *)
Definition scattered : LayerRegion.t :=
  {| LayerRegion.config := config 1;
     LayerRegion.slices :=
       [surface stTop 0 (square 0 0 10); surface stTop 0 (square 50 0 10);
        surface stTop 0 (square 20 0 10)];
     LayerRegion.fill_surfaces := [];
     LayerRegion.perimeter_surfaces := [] |}.

(** A region whose slice has collapsed to two points. *)
Definition thin : LayerRegion.t :=
  {| LayerRegion.config := config 1;
     LayerRegion.slices :=
       [surface stTop 0 (mkExPolygon (mkPolygon [mkPoint 20 0; mkPoint 30 0]) [])];
     LayerRegion.fill_surfaces := [surface stInternal 0 (square 20 1 8)];
     LayerRegion.perimeter_surfaces := [surface stInternal 0 (square 20 0 10)] |}.

(** Two regions of one configuration; two regions of two
    configurations; three regions, the first and the last of one
    configuration; and two regions of one configuration, the second
    degenerate. *)
Definition pair : Layer := layer [region 1 0; region 1 20].
Definition mixed : Layer := layer [region 1 0; region 2 20].
Definition three : Layer := layer [region 1 0; region 2 20; region 1 40].
Definition broken : Layer := layer [region 1 0; thin].

(** A perimeter routine that fails. *)
Definition failing (_ : LayerRegion.t) (_ : SurfaceCollection)
    : option (SurfaceCollection * SurfaceCollection) :=
  None.

(** Collaborators whose union answers the shapes last first. *)
Definition reordering : Externals :=
  {| serialize := serialize_width;
     union_ := λ ps, reverse <$> union_shapes ps;
     union_ex := λ ss _, union_shapes (to_polygons ss);
     intersection_ex := common_shapes;
     LayerRegion_make_perimeters := solid;
     LayerRegion_make_perimeters_failed := λ _ _, ([], []) |}.

(** The collaborators with a perimeter routine that fails once it has
    written the slices to the perimeter surfaces and before it writes a
    fill surface. *)
Definition interrupted : Externals :=
  {| serialize := serialize_width;
     union_ := union_shapes;
     union_ex := λ ss _, union_shapes (to_polygons ss);
     intersection_ex := common_shapes;
     LayerRegion_make_perimeters := failing;
     LayerRegion_make_perimeters_failed := λ _ s, (s, []) |}.

(** A region with slices of two numbers of extra perimeters. *)
Definition layered : LayerRegion.t :=
  {| LayerRegion.config := config 1;
     LayerRegion.slices :=
       [surface stTop 2 (square 0 0 10); surface stBottom 0 (square 20 0 10);
        surface stInternal 2 (square 40 0 10)];
     LayerRegion.fill_surfaces := [];
     LayerRegion.perimeter_surfaces := [] |}.

(** Two layers of one object: the layer at address 2 lies above the
    layer at address 1. *)
Definition lower : Layer :=
  set_upper_layer (Some 2%positive) (layer [region 1 0]).
Definition upper : Layer :=
  set_lower_layer (Some 1%positive) (layer [region 1 0; region 2 20]).
Definition stack : heap := <[1%positive := lower]> {[2%positive := upper]}.
End Example.

(** * slic3r/GUI/PresetBundle.cpp *)

(** The presets of the three collections, the filament preset chosen for
    each extruder, and the colours of the platter combo boxes. *)

(** [a[i] = v] on a C array or through [operator[]] of a vector: outside
    the container it is undefined behaviour. *)
Definition store {A} (i : nat) (v : A) : M (list A) unit := λ a,
  if decide (i < length a)%nat then (<[i := v]> a, Return tt)
  else (a, Undefined).

(** What PresetBundle.cpp uses of Preset.hpp and AppConfig.hpp.  A preset
    collection answers names; [find_preset_name c name] is
    [c.find_preset(name, true)->name], the preset of that name or else
    the first visible one; [select_preset_by_name] is called with
    [force = true]; [nozzle_diameter_size c] is the number of values of
    the option [nozzle_diameter] of the selected preset, [None] when the
    preset has no such option.  [vector_max_size] is [max_size()] of a
    vector of strings, above which [resize] throws; on the platform with
    the 64-bit [size_t] of this development it lies between 2^31 and the
    largest [ptrdiff_t]. *)
Class PresetExternals := {
  PresetCollection : Type;
  AppConfig : Type;
  remove_suffix_modified : string → string;
  default_preset_name : PresetCollection → string;
  first_visible_name : PresetCollection → string;
  find_preset_name : PresetCollection → string → string;
  selected_preset_name : PresetCollection → string;
  select_preset_by_name : string → PresetCollection → PresetCollection;
  nozzle_diameter_size : PresetCollection → option nat;
  AppConfig_get : AppConfig → string → string → string;
  AppConfig_has : AppConfig → string → string → bool;
  AppConfig_set : string → string → string → AppConfig → AppConfig;
  vector_max_size : Z;
  vector_max_size_range : 2 ^ 31 ≤ vector_max_size < 2 ^ 63
}.

Module PresetBundle.

(** *** Colours *)

(** The code of a character. *)
Definition code (c : ascii) : Z := Z.of_N (N_of_ascii c).

(** [hex_digit_to_int]; a character above 127 fails every test, be
    [char] signed or not. *)
Definition hex_digit_to_int (c : ascii) : Z :=
  if decide (code "0" ≤ code c ∧ code c ≤ code "9") then code c - code "0"
  else if decide (code "A" ≤ code c ∧ code c ≤ code "F")
  then code c - code "A" + 10
  else if decide (code "a" ≤ code c ∧ code c ≤ code "f")
  then code c - code "a" + 10
  else -1.

(** The loop of [parse_color] with [n] iterations left, at channel [i];
    the pointer [c] stands at character [1 + 2 * i] of the string. *)
Fixpoint parse_channels (scolor : list ascii) (n i : nat) : M (list Z) bool :=
  match n with
  | O => mret true
  | S n' =>
      c1 ← unchecked (scolor !! (1 + 2 * i)%nat);
      c2 ← unchecked (scolor !! (2 + 2 * i)%nat);
      let digit1 := hex_digit_to_int c1 in
      let digit2 := hex_digit_to_int c2 in
      if decide (digit1 = -1 ∨ digit2 = -1) then mret false
      else
        store i ((digit1 * 16 + digit2) `mod` 256) ;;
        parse_channels scolor n' (S i)
  end.

(** [parse_color]; the state is the array [rgb_out]. *)
Definition parse_color (scolor : string) : M (list Z) bool :=
  store 2 0 ;; store 1 0 ;; store 0 0 ;;
  let chars := String.list_ascii_of_string scolor in
  if decide (length chars ≠ 7%nat ∨ head chars ≠ Some "#"%char)
  then mret false
  else parse_channels chars 3 0.

(** The value the loop stores for a channel written as the characters
    [c1] and [c2]. *)
Definition channel (c1 c2 : ascii) : Z :=
  (hex_digit_to_int c1 * 16 + hex_digit_to_int c2) `mod` 256.

(** The upper-case hexadecimal digit of a number below 16. *)
Definition hex_char (d : Z) : ascii :=
  ascii_of_N (Z.to_N (if decide (d < 10) then code "0" + d
                      else code "A" + (d - 10))).

(** The colour [#RRGGBB] of three channels. *)
Definition color_string (r g b : Z) : string :=
  String.string_of_list_ascii
    ["#"%char; hex_char (r `div` 16); hex_char (r `mod` 16);
     hex_char (g `div` 16); hex_char (g `mod` 16);
     hex_char (b `div` 16); hex_char (b `mod` 16)].

(** *** The extruders of the full configuration *)

Definition extruder_keys : list string :=
  ["perimeter"; "infill"; "solid_infill"; "support_material";
   "support_material_interface"].

(** The last loop of [full_config], on the [int] options of [out]: an
    option that is missing is a null pointer, which is dereferenced, and
    [int(num_extruders) - 1] overflows at the least [int]. *)
Definition clamp_extruders (num_extruders : Z) : M (gmap string Z) unit :=
  foreach extruder_keys (λ k,
    let key := k +:+ "_extruder" in
    out ← get;
    value ← unchecked (out !! key);
    bound ←
      (if decide (int_of_size_t num_extruders = - 2 ^ 31) then undefined
       else mret (int_of_size_t num_extruders - 1));
    modify (<[key := Z.min value (Z.min 0 bound)]>)).

(** *** The filament presets *)

Section bundle.
Context `{PresetExternals}.

Record t := mk {
  prints : PresetCollection;
  filaments : PresetCollection;
  printers : PresetCollection;
  filament_presets : list string
}.

Definition set_prints (v : PresetCollection) (this : t) : t :=
  mk v (filaments this) (printers this) (filament_presets this).
Definition set_filaments (v : PresetCollection) (this : t) : t :=
  mk (prints this) v (printers this) (filament_presets this).
Definition set_printers (v : PresetCollection) (this : t) : t :=
  mk (prints this) (filaments this) v (filament_presets this).
Definition set_filament_presets (v : list string) (this : t) : t :=
  mk (prints this) (filaments this) (printers this) v.

(** [filament_presets[i] = v]. *)
Definition store_filament_preset (i : nat) (v : string) : M t unit :=
  λ this,
    let '(v', r) := store i v (filament_presets this) in
    (set_filament_presets v' this, r).

(** [filament_presets.resize(n, x)]: above [max_size()] it throws
    [std::length_error] and the vector is as it was. *)
Definition resize_filament_presets (n : Z) (x : string) : M t unit :=
  if decide (vector_max_size < n) then throw LengthError
  else modify (λ this,
         set_filament_presets
           (resize (Z.to_nat n) x (filament_presets this)) this).

(** [set_filament_preset]; [idx] is a [size_t], so [idx + 1] wraps at the
    largest [size_t]. *)
Definition set_filament_preset (idx : Z) (name : string) : M t unit :=
  this ← get;
  (if decide (Z.of_nat (length (filament_presets this)) ≤ idx)
   then resize_filament_presets ((idx + 1) `mod` 2 ^ 64)
          (default_preset_name (filaments this))
   else mret tt) ;;
  store_filament_preset (Z.to_nat idx) (remove_suffix_modified name).

(** The filament presets after [set_filament_preset idx name] for an
    index below [max_size()], in closed form. *)
Definition filament_presets_set (this : t) (idx : nat) (name : string)
    : list string :=
  <[idx := remove_suffix_modified name]>
    (if decide (length (filament_presets this) ≤ idx)%nat
     then resize (S idx) (default_preset_name (filaments this))
            (filament_presets this)
     else filament_presets this).

(** [sprintf(name, "filament_%d", i)]. *)
Definition filament_key (i : nat) : string := "filament_" +:+ pretty i.

(** The loop of [load_selections] with [n] iterations left, at [i]. *)
Fixpoint load_filament_selections (config : AppConfig) (n i : nat)
    : M t unit :=
  match n with
  | O => mret tt
  | S n' =>
      let name := filament_key i in
      if AppConfig_has config "presets" name
      then set_filament_preset (Z.of_nat i) name ;;
           load_filament_selections config n' (S i)
      else mret tt
  end.

(** [load_selections]. *)
Definition load_selections (config : AppConfig) : M t unit :=
  modify (λ this,
    set_prints (select_preset_by_name (AppConfig_get config "presets" "print")
                  (prints this)) this) ;;
  modify (λ this,
    set_filaments
      (select_preset_by_name (AppConfig_get config "presets" "filament")
         (filaments this)) this) ;;
  this ← get;
  set_filament_preset 0 (selected_preset_name (filaments this)) ;;
  load_filament_selections config 999 1 ;;
  modify (λ this,
    set_printers
      (select_preset_by_name (AppConfig_get config "presets" "printer")
         (printers this)) this).

(** [export_selections]; the state is [config], the bundle is read. *)
Definition export_selections (this : t) : M AppConfig unit :=
  modify (AppConfig_set "presets" "print" (selected_preset_name (prints this))) ;;
  modify (AppConfig_set "presets" "filament"
            (selected_preset_name (filaments this))) ;;
  foreach (seq 1 999) (λ i,
    let name := filament_key i in
    v ← unchecked (filament_presets this !! i);
    modify (AppConfig_set "presets" name v)) ;;
  modify (AppConfig_set "presets" "printer"
            (selected_preset_name (printers this))).

(** The first loop of [update_multi_material_filament_presets] with [n]
    iterations left, at [i]; its bound is read again at every turn. *)
Fixpoint verify_filament_presets (num_extruders n i : nat) : M t unit :=
  match n with
  | O => mret tt
  | S n' =>
      this ← get;
      if decide (i < length (filament_presets this) `min` num_extruders)%nat
      then
        name ← unchecked (filament_presets this !! i);
        store_filament_preset i (find_preset_name (filaments this) name) ;;
        verify_filament_presets num_extruders n' (S i)
      else mret tt
  end.

(** [update_multi_material_filament_presets]; the loop ends at the
    latest after [num_extruders] turns. *)
Definition update_multi_material_filament_presets : M t unit :=
  this ← get;
  num_extruders ← unchecked (nozzle_diameter_size (printers this));
  verify_filament_presets num_extruders (S num_extruders) 0 ;;
  this ← get;
  if decide (length (filament_presets this) < num_extruders)%nat
  then modify (set_filament_presets
                 (resize num_extruders (first_visible_name (filaments this))
                    (filament_presets this)))
  else mret tt.
End bundle.
End PresetBundle.

(** ** Example presets *)

Module PresetExample.
(** [s] without the suffix [suffix], when it ends with it. *)
Definition remove_suffix (suffix s : string) : string :=
  let n := (String.length s - String.length suffix)%nat in
  if decide ((String.length suffix ≤ String.length s)%nat
             ∧ String.substring n (String.length suffix) s = suffix)
  then String.substring 0 n s
  else s.

(** A collection: the names of its presets, the default preset first
    and the first visible one next, the index of the selected preset and
    the number of values of its option [nozzle_diameter]; the application
    configuration is a list of bindings, the latest first. *)
Record collection := {
  names : list string;
  selected : nat;
  nozzles : option nat
}.

Definition name_at (c : collection) (i : nat) : string :=
  default "" (names c !! i).

Definition find (c : collection) (name : string) : option nat :=
  fst <$> list_find (λ n, n = name) (names c).

Definition binding (config : list (string * string * string))
    (section key : string) : option string :=
  snd <$> (snd <$> list_find (λ b, b.1 = (section, key)) config).

#[export] Instance externals : PresetExternals := {|
  PresetCollection := collection;
  AppConfig := list (string * string * string);
  remove_suffix_modified := remove_suffix " (modified)";
  default_preset_name c := name_at c 0;
  first_visible_name c := name_at c 1;
  find_preset_name c name :=
    if find c name is Some _ then name else name_at c 1;
  selected_preset_name c := name_at c (selected c);
  select_preset_by_name name c :=
    {| names := names c; selected := default 1%nat (find c name);
       nozzles := nozzles c |};
  nozzle_diameter_size := nozzles;
  AppConfig_get config section key := default "" (binding config section key);
  AppConfig_has config section key :=
    bool_decide (is_Some (binding config section key));
  AppConfig_set section key value config := (section, key, value) :: config;
  vector_max_size := 2 ^ 58 - 1;
  vector_max_size_range := ltac:(lia)
|}.

Definition filaments : collection :=
  {| names := ["- default -"; "PLA"; "ABS"; "PET"]; selected := 2;
     nozzles := None |}.
Definition printers : collection :=
  {| names := ["- default -"; "MK"]; selected := 1; nozzles := Some 4%nat |}.
Definition prints : collection :=
  {| names := ["- default -"; "fine"; "draft"]; selected := 1;
     nozzles := None |}.

Definition bundle : PresetBundle.t :=
  PresetBundle.mk prints filaments printers ["PLA (modified)"; "gone"; "PET"].

Definition config : AppConfig :=
  [("presets", "print", "draft"); ("presets", "filament", "ABS");
   ("presets", "filament_1", "PET"); ("presets", "filament_2", "PLA");
   ("presets", "printer", "MK")].
End PresetExample.

(** * Properties *)

(** ** The monad *)

Lemma bind_Return {S A B} (m : M S A) (f : A → M S B) s s' a :
  m s = (s', Return a) → (m ≫= f) s = f a s'.
Proof. intros E. unfold mbind, M_MBind, M_bind. by rewrite E. Qed.

Lemma bind_Throw {S A B} (m : M S A) (f : A → M S B) s s' e :
  m s = (s', Throw e) → (m ≫= f) s = (s', Throw e).
Proof. intros E. unfold mbind, M_MBind, M_bind. by rewrite E. Qed.

Lemma bind_Undefined {S A B} (m : M S A) (f : A → M S B) s s' :
  m s = (s', Undefined) → (m ≫= f) s = (s', Undefined).
Proof. intros E. unfold mbind, M_MBind, M_bind. by rewrite E. Qed.

(** ** Region management *)

Lemma set_regions_set_regions v w l :
  set_regions v (set_regions w l) = set_regions v l.
Proof. reflexivity. Qed.

Lemma set_regions_id l : set_regions (regions l) l = l.
Proof. by destruct l. Qed.

(** The loop from [i = n - 1] down removes the first [n] regions. *)
Lemma clear_regions_from_drop n : ∀ this,
  (n ≤ length (regions this))%nat →
  clear_regions_from n this
  = (set_regions (drop n (regions this)) this, Return tt).
Proof.
  induction n as [|n IH]; intros this Hn.
  - cbn. unfold mret, M_MRet, M_ret. by rewrite drop_0, set_regions_id.
  - cbn [clear_regions_from].
    erewrite bind_Return; last first.
    { unfold delete_region. rewrite decide_True by lia. reflexivity. }
    rewrite Nat2Z.id.
    rewrite IH by (cbn; rewrite length_delete;
                   [lia|apply lookup_lt_is_Some; lia]).
    cbn. rewrite set_regions_set_regions. do 2 f_equal.
    rewrite delete_take_drop, drop_app_length'; [done|].
    rewrite length_take. lia.
Qed.

(** The number of turns of the loop of [clear_regions]. *)
Lemma clear_regions_turns (n : nat) :
  (Z.to_nat (int_of_size_t ((Z.of_nat n - 1) `mod` 2 ^ 64) + 1) ≤ n)%nat ∧
  (Z.of_nat n ≤ 2 ^ 31 →
   Z.to_nat (int_of_size_t ((Z.of_nat n - 1) `mod` 2 ^ 64) + 1) = n).
Proof.
  unfold int_of_size_t.
  pose proof (Z.mod_pos_bound (Z.of_nat n - 1) (2 ^ 64) eq_refl) as Hx.
  set (x := (Z.of_nat n - 1) `mod` 2 ^ 64) in *.
  pose proof (Z.mod_pos_bound (x + 2 ^ 31) (2 ^ 32) eq_refl) as Hi.
  split.
  - destruct (decide (n = 0%nat)) as [->|Hn].
    { subst x. by vm_compute. }
    assert (x ≤ Z.of_nat n - 1) as Hxn.
    { subst x. apply Z.mod_le; lia. }
    destruct (decide ((x + 2 ^ 31) `mod` 2 ^ 32 - 2 ^ 31 < 0)); [lia|].
    assert ((x + 2 ^ 31) `mod` 2 ^ 32 ≤ x + 2 ^ 31)
      by (apply Z.mod_le; lia).
    lia.
  - intros Hn. destruct (decide (n = 0%nat)) as [->|Hn0].
    { subst x. by vm_compute. }
    assert (x = Z.of_nat n - 1) as ->
      by (subst x; apply Z.mod_small; lia).
    rewrite Z.mod_small by lia. lia.
Qed.

(** [clear_regions] returns on every layer, having removed the regions
    at the front that its [int] counter reaches. *)
Lemma clear_regions_run this :
  ∃ k, (k ≤ length (regions this))%nat ∧
    (Z.of_nat (length (regions this)) ≤ 2 ^ 31 → k = length (regions this)) ∧
    clear_regions this = (set_regions (drop k (regions this)) this, Return tt).
Proof.
  destruct (clear_regions_turns (length (regions this))) as [Hle Heq].
  eexists. split_and!; [exact Hle|exact Heq|].
  unfold clear_regions. by apply clear_regions_from_drop.
Qed.

Lemma clear_regions_spec this :
  Z.of_nat (length (regions this)) ≤ 2 ^ 31 →
  clear_regions this = (set_regions [] this, Return tt).
Proof.
  intros Hn. destruct (clear_regions_run this) as (k & _ & Hk & ->).
  rewrite (Hk Hn). by rewrite drop_all.
Qed.

Lemma size_t_of_int_in_range idx n :
  0 ≤ idx < n → n ≤ 2 ^ 63 → size_t_of_int idx = idx.
Proof. intros ? ?. unfold size_t_of_int. apply Z.mod_small. lia. Qed.

Lemma size_t_of_int_outside idx n :
  - 2 ^ 31 ≤ idx < 2 ^ 31 → 0 ≤ n ≤ 2 ^ 63 → ¬ (0 ≤ idx < n) →
  n ≤ size_t_of_int idx.
Proof.
  intros Hint Hn Hout. unfold size_t_of_int.
  destruct (decide (idx < 0)) as [Hneg|Hpos].
  - assert (E : idx `mod` 2 ^ 64 = idx + 2 ^ 64); [|lia].
    symmetry. apply (Z.mod_unique_pos _ _ (-1)); lia.
  - rewrite Z.mod_small; lia.
Qed.

(** C4, as the code has it: for an [int] index outside [[0, region_count)]
    [get_region] fails with [OutOfRange] and returns no region; for an
    index inside the range [get_region] returns the region at that index
    and [delete_region] removes exactly that region.  [delete_region]
    makes no range check of its own. *)
Theorem get_region_delete_region_range (this : Layer) (idx : Z) :
  - 2 ^ 31 ≤ idx < 2 ^ 31 →
  Z.of_nat (region_count this) ≤ 2 ^ 63 →
  (0 ≤ idx < Z.of_nat (region_count this) →
     (∃ r, regions this !! Z.to_nat idx = Some r ∧
           get_region idx this = Return r) ∧
     delete_region idx this
       = (set_regions (delete (Z.to_nat idx) (regions this)) this, Return tt)) ∧
  (¬ (0 ≤ idx < Z.of_nat (region_count this)) →
     get_region idx this = Throw OutOfRange).
Proof.
  intros Hint Hsize. unfold region_count in *. split.
  - intros Hin. split.
    + destruct (lookup_lt_is_Some_2 (regions this) (Z.to_nat idx)) as [r Hr];
        [lia|].
      exists r. split; [done|].
      unfold get_region, vector_at.
      rewrite (size_t_of_int_in_range idx _ Hin Hsize). by rewrite Hr.
    + unfold delete_region. by rewrite decide_True.
  - intros Hout. unfold get_region, vector_at.
    pose proof (size_t_of_int_outside idx _ Hint (conj (Zle_0_nat _) Hsize) Hout).
    rewrite lookup_ge_None_2; [done|lia].
Qed.

Lemma get_region_delete_region_range_witness :
  (∃ r, regions (Example.layer [Example.region 1 0; Example.region 1 20])
          !! Z.to_nat 1 = Some r ∧
        get_region 1 (Example.layer [Example.region 1 0; Example.region 1 20])
          = Return r) ∧
  get_region (-1) (Example.layer [Example.region 1 0; Example.region 1 20])
    = Throw OutOfRange.
Proof.
  split.
  - apply (get_region_delete_region_range
             (Example.layer [Example.region 1 0; Example.region 1 20]) 1);
      [lia | by vm_compute | by vm_compute].
  - apply (get_region_delete_region_range
             (Example.layer [Example.region 1 0; Example.region 1 20]) (-1));
      [lia | by vm_compute | vm_compute; by intros [? ?]].
Defined.

(** C4 as stated fails for [delete_region]: on a layer with two regions
    [delete_region 2] is an unchecked erase past the end, not an
    [OutOfRange] error. *)
Lemma delete_region_not_OutOfRange :
  delete_region 2 (Example.layer [Example.region 1 0; Example.region 1 20])
    = (Example.layer [Example.region 1 0; Example.region 1 20], Undefined) ∧
  (delete_region 2 (Example.layer [Example.region 1 0; Example.region 1 20])).2
    ≠ Throw OutOfRange.
Proof. split; [reflexivity | vm_compute; discriminate]. Qed.

(** ** Neighbour links *)

Lemma at_layer_get (h : heap) a la :
  h !! a = Some la → at_layer a get h = (h, Return la).
Proof.
  intros E. unfold at_layer, get. rewrite E. by rewrite insert_id.
Qed.

Lemma at_layer_modify (h : heap) a la f :
  h !! a = Some la → at_layer a (modify f) h = (<[a := f la]> h, Return tt).
Proof. intros E. unfold at_layer, modify. by rewrite E. Qed.

(** A layer built by the constructor at an unused address keeps the heap
    linked. *)
Lemma new_layer_linked (h : heap) a id object hh pz sz :
  linked h → h !! a = None →
  ∃ h', new_layer a id object hh pz sz h = (h', Return a) ∧ linked h'.
Proof.
  intros L Hfree. eexists. split; [reflexivity|].
  intros b lb Hb. destruct (decide (a = b)) as [->|Hne].
  - rewrite lookup_insert_eq in Hb. injection Hb as <-. cbn. by split.
  - rewrite lookup_insert_ne in Hb by done.
    destruct (L b lb Hb) as [Hup Hlo].
    split; intros c Hc.
    + destruct (Hup c Hc) as (lc & Hlc & ?). exists lc. split; [|done].
      rewrite lookup_insert_ne; [done|]. intros ->. congruence.
    + destruct (Hlo c Hc) as (lc & Hlc & ?). exists lc. split; [|done].
      rewrite lookup_insert_ne; [done|]. intros ->. congruence.
Qed.

Lemma alter_as_insert (h : heap) a la f :
  h !! a = Some la → <[a := f la]> h = alter f a h.
Proof.
  intros E. apply map_eq. intros b. destruct (decide (a = b)) as [->|?].
  - by rewrite lookup_insert_eq, lookup_alter_eq, E.
  - by rewrite lookup_insert_ne, lookup_alter_ne.
Qed.

Lemma Layer_dtor_unlink_spec (h : heap) a la :
  linked h → h !! a = Some la →
  Layer_dtor_unlink a h = (unlinked_heap h a la, Return tt).
Proof.
  intros L Ha. unfold Layer_dtor_unlink, unlinked_heap.
  erewrite bind_Return by (by apply at_layer_get).
  destruct (L a la Ha) as [Hup Hlo].
  set (h1 := match upper_layer la with
             | Some u => alter (set_lower_layer None) u h
             | None => h end).
  assert (E1 : match upper_layer la with
               | Some u => at_layer u (modify (set_lower_layer None))
               | None => mret tt end h = (h1, Return tt)).
  { subst h1. destruct (upper_layer la) as [u|]; [|done].
    destruct (Hup u eq_refl) as (lu & Hlu & _).
    rewrite (at_layer_modify _ _ _ _ Hlu). by rewrite (alter_as_insert _ _ _ _ Hlu). }
  erewrite bind_Return by exact E1.
  assert (∃ la1, h1 !! a = Some la1 ∧
                 (lower_layer la1 = None ∨ lower_layer la1 = lower_layer la))
    as (la1 & Ha1 & Hlow).
  { subst h1. destruct (upper_layer la) as [u|]; [|eauto].
    destruct (decide (u = a)) as [->|?].
    - rewrite lookup_alter_eq, Ha. cbn. eauto.
    - rewrite lookup_alter_ne by done. eauto. }
  erewrite bind_Return by (by apply at_layer_get).
  rewrite Ha1. cbn.
  destruct (lower_layer la1) as [d|] eqn:Hd; [|done].
  destruct Hlow as [?|Hlow]; [done|].
  destruct (Hlo d (eq_sym Hlow)) as (ld & Hld & _).
  assert (∃ ld1, h1 !! d = Some ld1) as [ld1 Hld1].
  { subst h1. destruct (upper_layer la) as [u|]; [|eauto].
    destruct (decide (u = d)) as [->|?].
    - rewrite lookup_alter_eq, Hld. cbn. eauto.
    - rewrite lookup_alter_ne by done. eauto. }
  rewrite (at_layer_modify _ _ _ _ Hld1).
  by rewrite (alter_as_insert _ _ _ _ Hld1).
Qed.

Lemma lookup_alter_decide (h : heap) f k c :
  alter f k h !! c = (if decide (k = c) then f else id) <$> h !! c.
Proof.
  destruct (decide (k = c)) as [->|?].
  - by rewrite lookup_alter_eq.
  - rewrite lookup_alter_ne by done. by destruct (h !! c).
Qed.

Lemma unlinked_heap_lookup (h : heap) a la c :
  linked h → h !! a = Some la →
  unlinked_heap h a la !! c
  = unlink_at (upper_layer la)
      (if decide (upper_layer la = Some a) then None else lower_layer la)
      c <$> h !! c.
Proof.
  intros L Ha. unfold unlinked_heap, unlink_at.
  set (h1 := match upper_layer la with
             | Some u => alter (set_lower_layer None) u h
             | None => h end).
  assert (E1 : ∀ c', h1 !! c'
    = (if decide (upper_layer la = Some c') then set_lower_layer None else id)
        <$> h !! c').
  { intros c'. subst h1. destruct (upper_layer la) as [u|].
    - rewrite lookup_alter_decide.
      destruct (decide (u = c')) as [->|?].
      + by rewrite decide_True.
      + by rewrite decide_False by congruence.
    - rewrite decide_False by done. by destruct (h !! c'). }
  assert (E2 : h1 !! a ≫= lower_layer
    = if decide (upper_layer la = Some a) then None else lower_layer la).
  { rewrite E1, Ha. cbn. by destruct (decide (upper_layer la = Some a)). }
  rewrite E2.
  set (d := if decide (upper_layer la = Some a) then None else lower_layer la).
  destruct d as [d'|].
  - rewrite lookup_alter_decide, E1.
    destruct (h !! c); cbn; [|done].
    repeat case_decide; done || congruence.
  - rewrite E1. destruct (h !! c); cbn; [|done].
    repeat case_decide; done || congruence.
Qed.

Lemma unlink_at_regions u d c l : regions (unlink_at u d c l) = regions l.
Proof. unfold unlink_at. by repeat case_decide. Qed.

Lemma unlink_at_upper u d c l :
  upper_layer (unlink_at u d c l)
  = if decide (d = Some c) then None else upper_layer l.
Proof. unfold unlink_at. by repeat case_decide. Qed.

Lemma unlink_at_lower u d c l :
  lower_layer (unlink_at u d c l)
  = if decide (u = Some c) then None else lower_layer l.
Proof. unfold unlink_at. by repeat case_decide. Qed.

Lemma unlinked_heap_linked (h : heap) a la :
  linked h → h !! a = Some la → linked (delete a (unlinked_heap h a la)).
Proof.
  intros L Ha c lc Hc.
  destruct (decide (a = c)) as [->|Hac]; [by rewrite lookup_delete_eq in Hc|].
  rewrite lookup_delete_ne in Hc by done.
  rewrite (unlinked_heap_lookup _ _ _ _ L Ha) in Hc.
  destruct (h !! c) as [lc0|] eqn:Hc0; [|done]. injection Hc as <-.
  destruct (L a la Ha) as [Haup Halo]. destruct (L c lc0 Hc0) as [Hcup Hclo].
  set (d := if decide (upper_layer la = Some a) then None else lower_layer la).
  assert (Hd : d = None ∨ d = lower_layer la) by (subst d; case_decide; eauto).
  assert (Hself : upper_layer la = Some a → lower_layer la = Some a).
  { intros E. destruct (Haup a E) as (l' & ? & ?). congruence. }
  split; intros b Hb.
  - rewrite unlink_at_upper in Hb. case_decide as Hdc; [done|].
    destruct (Hcup b Hb) as (lb0 & Hlb0 & Hlow).
    assert (b ≠ a) as Hba.
    { intros ->. assert (lb0 = la) as -> by congruence.
      subst d. case_decide as Hu; [|congruence].
      specialize (Hself Hu). congruence. }
    exists (unlink_at (upper_layer la) d b lb0). split.
    + rewrite lookup_delete_ne by done.
      by rewrite (unlinked_heap_lookup _ _ _ _ L Ha), Hlb0.
    + rewrite unlink_at_lower. case_decide as Hu; [|done].
      destruct (Haup b Hu) as (l' & ? & ?). congruence.
  - rewrite unlink_at_lower in Hb. case_decide as Huc; [done|].
    destruct (Hclo b Hb) as (lb0 & Hlb0 & Hupp).
    assert (b ≠ a) as Hba.
    { intros ->. congruence. }
    exists (unlink_at (upper_layer la) d b lb0). split.
    + rewrite lookup_delete_ne by done.
      by rewrite (unlinked_heap_lookup _ _ _ _ L Ha), Hlb0.
    + rewrite unlink_at_upper. case_decide as Hdb; [|done].
      destruct Hd as [Hd|Hd]; [congruence|].
      destruct (Halo b) as (l' & ? & ?); congruence.
Qed.

(** C9: in a heap where the neighbour links are symmetric, destroying
    the layer at [a] first sets to null the lower link of its upper
    neighbour and the upper link of its lower neighbour, with the regions
    of [a] still in place, and only then releases the regions (all of
    them when their number is within reach of the [int] counter of
    [clear_regions]); once the layer is gone the links of the remaining
    layers are symmetric again, so none of them refers to [a]. *)
Theorem Layer_dtor_repairs_links (h : heap) (a : addr) (la : Layer) :
  linked h → h !! a = Some la →
  ∃ h1 la1,
    Layer_dtor_unlink a h = (h1, Return tt) ∧
    h1 !! a = Some la1 ∧ regions la1 = regions la ∧
    (∀ b, b ≠ a → upper_layer la = Some b →
       ∃ lb, h1 !! b = Some lb ∧ lower_layer lb = None) ∧
    (∀ b, b ≠ a → lower_layer la = Some b →
       ∃ lb, h1 !! b = Some lb ∧ upper_layer lb = None) ∧
    (∃ rest,
       Layer_dtor a h = (<[a := set_regions rest la1]> h1, Return tt) ∧
       (Z.of_nat (region_count la) ≤ 2 ^ 31 → rest = [])) ∧
    delete_layer a h = (delete a h1, Return tt) ∧
    linked (delete a h1).
Proof.
  intros L Ha.
  set (d := if decide (upper_layer la = Some a) then None else lower_layer la).
  exists (unlinked_heap h a la), (unlink_at (upper_layer la) d a la).
  pose proof (Layer_dtor_unlink_spec _ _ _ L Ha) as Hun.
  assert (Ha1 : unlinked_heap h a la !! a
                = Some (unlink_at (upper_layer la) d a la)).
  { by rewrite (unlinked_heap_lookup _ _ _ _ L Ha), Ha. }
  destruct (L a la Ha) as [Haup Halo].
  destruct (clear_regions_run (unlink_at (upper_layer la) d a la))
    as (k & _ & Hk & Hclear).
  rewrite unlink_at_regions in Hk.
  set (rest := drop k (regions (unlink_at (upper_layer la) d a la))) in *.
  assert (Hdtor : Layer_dtor a h
    = (<[a := set_regions rest (unlink_at (upper_layer la) d a la)]>
         (unlinked_heap h a la), Return tt)).
  { unfold Layer_dtor. erewrite bind_Return by exact Hun.
    unfold at_layer. by rewrite Ha1, Hclear. }
  split_and!; try done.
  - apply unlink_at_regions.
  - intros b Hba Hb. destruct (Haup b Hb) as (lb0 & Hlb0 & _).
    exists (unlink_at (upper_layer la) d b lb0). split.
    + by rewrite (unlinked_heap_lookup _ _ _ _ L Ha), Hlb0.
    + rewrite unlink_at_lower. by rewrite decide_True.
  - intros b Hba Hb. destruct (Halo b Hb) as (lb0 & Hlb0 & _).
    exists (unlink_at (upper_layer la) d b lb0). split.
    + by rewrite (unlinked_heap_lookup _ _ _ _ L Ha), Hlb0.
    + rewrite unlink_at_upper. rewrite decide_True; [done|].
      subst d. case_decide as Hu; [|done].
      destruct (Haup a Hu) as (l' & ? & ?). congruence.
  - exists rest. split; [done|]. intros Hn. subst rest.
    rewrite (Hk Hn), <- (unlink_at_regions (upper_layer la) d a la).
    apply drop_all.
  - unfold delete_layer. erewrite bind_Return by exact Hdtor.
    unfold modify. by rewrite delete_insert_eq.
  - by apply unlinked_heap_linked.
Qed.

Lemma Example_stack_linked : linked Example.stack.
Proof.
  intros a la Ha. unfold Example.stack in *.
  destruct (decide (a = 1%positive)) as [->|H1].
  - rewrite lookup_insert_eq in Ha. injection Ha as <-.
    split; intros b Hb; [|done]. injection Hb as <-.
    exists Example.upper. by split.
  - rewrite lookup_insert_ne in Ha by done.
    destruct (decide (a = 2%positive)) as [->|H2].
    + rewrite lookup_singleton_eq in Ha. injection Ha as <-.
      split; intros b Hb; [done|]. injection Hb as <-.
      exists Example.lower. by split.
    + by rewrite lookup_singleton_ne in Ha.
Qed.

Lemma Layer_dtor_repairs_links_witness :
  ∃ h1 la1,
    Layer_dtor_unlink 2%positive Example.stack = (h1, Return tt) ∧
    h1 !! 2%positive = Some la1 ∧ regions la1 = regions Example.upper ∧
    (∀ b, b ≠ 2%positive → upper_layer Example.upper = Some b →
       ∃ lb, h1 !! b = Some lb ∧ lower_layer lb = None) ∧
    (∀ b, b ≠ 2%positive → lower_layer Example.upper = Some b →
       ∃ lb, h1 !! b = Some lb ∧ upper_layer lb = None) ∧
    (∃ rest,
       Layer_dtor 2%positive Example.stack
         = (<[2%positive := set_regions rest la1]> h1, Return tt) ∧
       (Z.of_nat (region_count Example.upper) ≤ 2 ^ 31 → rest = [])) ∧
    delete_layer 2%positive Example.stack = (delete 2%positive h1, Return tt) ∧
    linked (delete 2%positive h1).
Proof.
  apply (Layer_dtor_repairs_links Example.stack 2%positive Example.upper).
  - exact Example_stack_linked.
  - reflexivity.
Defined.

(** ** The chaining heuristic *)

Section chained_path.
Import Geometry.

Lemma increasing_cons c cs :
  increasing (c :: cs) ↔ increasing cs ∧ ∀ q, q ∈ cs → (c.1 < q.1)%nat.
Proof.
  unfold increasing. rewrite fmap_cons. split.
  - intros Hs. inversion_clear Hs as [|? ? Hcs Hall]. split; [done|].
    intros q Hq. rewrite Forall_forall in Hall. apply Hall.
    by apply list_elem_of_fmap_2.
  - intros [Hcs Hall]. constructor; [done|].
    apply Forall_forall. intros i Hi.
    apply list_elem_of_fmap in Hi as (q & -> & Hq). by apply Hall.
Qed.

Lemma increasing_filter (P : nat * Point → Prop) `{∀ q, Decision (P q)} cs :
  increasing cs → increasing (filter P cs).
Proof.
  induction cs as [|c cs IH]; [done|].
  rewrite increasing_cons. intros [Hcs Hall].
  rewrite filter_cons. case_decide; [|by apply IH].
  apply increasing_cons. split; [by apply IH|].
  intros q Hq. apply Hall. by apply list_elem_of_filter in Hq as [_ ?].
Qed.

Lemma increasing_imap (pts : Points) : increasing (imap pair pts).
Proof.
  unfold increasing. rewrite fmap_imap.
  rewrite (imap_ext _ (λ i _, i)) by done.
  rewrite imap_seq_0, list_fmap_id.
  generalize 0%nat. induction (length pts) as [|n IH]; intros k; cbn.
  - constructor.
  - constructor; [apply IH|]. apply Forall_forall. intros i Hi.
    apply elem_of_seq in Hi. lia.
Qed.

(** The scan keeps a candidate that is nearest, and the first such. *)
Lemma nearest_spec from cands : ∀ best,
  increasing (best :: cands) →
  let b := nearest from best cands in
  b ∈ best :: cands ∧
  distance_sq from b.2 ≤ distance_sq from best.2 ∧
  (distance_sq from b.2 = distance_sq from best.2 → b = best) ∧
  ∀ q, q ∈ cands →
    distance_sq from b.2 ≤ distance_sq from q.2 ∧
    (distance_sq from b.2 = distance_sq from q.2 → (b.1 ≤ q.1)%nat).
Proof.
  induction cands as [|c cs IH]; intros best Hinc; cbn.
  - split_and!; [apply list_elem_of_here|lia|done|].
    intros q Hq. by apply elem_of_nil in Hq.
  - apply increasing_cons in Hinc as [Hcs Hbest].
    pose proof Hcs as Hcs'. apply increasing_cons in Hcs' as [Hcs2 Hc].
    case_decide as Hlt.
    + destruct (IH c Hcs) as (Hin & Hle & Heq & Hall).
      split_and!; [by apply list_elem_of_further|lia|lia|].
      intros q Hq. apply elem_of_cons in Hq as [->|Hq]; [|by apply Hall].
      split; [done|]. intros E. by rewrite (Heq E).
    + assert (increasing (best :: cs)) as Hbcs.
      { apply increasing_cons. split; [done|]. intros q Hq.
        apply Hbest. by apply list_elem_of_further. }
      destruct (IH best Hbcs) as (Hin & Hle & Heq & Hall).
      split_and!; [|done|done|].
      { apply elem_of_cons in Hin as [->|Hin];
          [apply list_elem_of_here|by do 2 apply list_elem_of_further]. }
      intros q Hq. apply elem_of_cons in Hq as [->|Hq]; [|by apply Hall].
      split; [lia|]. intros E. rewrite Heq by lia.
      assert (best.1 < c.1)%nat by (apply Hbest; apply list_elem_of_here).
      lia.
Qed.

(** Removing the chosen candidate by its index removes it alone. *)
Lemma remove_chosen b rem :
  increasing rem → b ∈ rem →
  rem.*1 ≡ₚ b.1 :: (filter (λ q, q.1 ≠ b.1) rem).*1.
Proof.
  induction rem as [|c cs IH]; intros Hinc Hb.
  - by apply elem_of_nil in Hb.
  - apply increasing_cons in Hinc as [Hcs Hc].
    rewrite filter_cons. apply elem_of_cons in Hb as [->|Hb].
    + rewrite decide_False by (intros ?; done).
      assert (filter (λ q : nat * Point, q.1 ≠ c.1) cs = cs) as ->; [|done].
      clear IH Hcs. induction cs as [|c' cs IH]; [done|].
      rewrite filter_cons, decide_True.
      * f_equal. apply IH. intros q Hq. apply Hc.
        by apply list_elem_of_further.
      * assert (c.1 < c'.1)%nat by (apply Hc; apply list_elem_of_here). lia.
    + rewrite decide_True.
      * rewrite !fmap_cons, (IH Hcs Hb). apply Permutation_swap.
      * specialize (Hc b Hb). lia.
Qed.

Lemma remove_chosen_length b rem :
  increasing rem → b ∈ rem →
  length rem = S (length (filter (λ q, q.1 ≠ b.1) rem)).
Proof.
  intros Hinc Hb. pose proof (remove_chosen b _ Hinc Hb) as Hrem.
  apply Permutation_length in Hrem.
  by rewrite length_cons, !length_fmap in Hrem.
Qed.

Lemma chain_perm fuel : ∀ from rem,
  increasing rem → (length rem ≤ fuel)%nat →
  chain fuel from rem ≡ₚ rem.*1.
Proof.
  induction fuel as [|fuel IH]; intros from rem Hinc Hlen.
  - destruct rem; [done|cbn in Hlen; lia].
  - destruct rem as [|c cs]; [done|]. cbn [chain].
    set (b := nearest from c cs).
    destruct (nearest_spec from cs c Hinc) as (Hb & _).
    pose proof (remove_chosen b _ Hinc Hb) as Hrem.
    rewrite Hrem. constructor. apply IH.
    + by apply increasing_filter.
    + pose proof (remove_chosen_length b _ Hinc Hb) as Hl.
      rewrite length_cons in Hl, Hlen. lia.
Qed.

Lemma chain_greedy (pts : Points) fuel : ∀ from rem,
  increasing rem → (length rem ≤ fuel)%nat →
  (∀ q, q ∈ rem → pts !! q.1 = Some q.2) →
  greedy_chain pts from (chain fuel from rem).
Proof.
  induction fuel as [|fuel IH]; intros from rem Hinc Hlen Hpts.
  - by destruct rem.
  - destruct rem as [|c cs]; [done|]. cbn [chain].
    set (b := nearest from c cs).
    destruct (nearest_spec from cs c Hinc) as (Hb & Hle & Heq & Hall).
    fold b in Hb, Hle, Heq, Hall.
    pose proof (remove_chosen b _ Hinc Hb) as Hrem.
    assert (length (filter (λ q : nat * Point, q.1 ≠ b.1) (c :: cs)) ≤ fuel)%nat
      as Hlen'.
    { pose proof (remove_chosen_length b _ Hinc Hb) as Hl.
      rewrite length_cons in Hl, Hlen. lia. }
    cbn [greedy_chain]. exists b.2. split_and!.
    + by apply Hpts.
    + intros j q Hj Hq.
      rewrite chain_perm in Hj by (by try apply increasing_filter).
      apply list_elem_of_fmap in Hj as (q' & -> & Hq').
      apply list_elem_of_filter in Hq' as [_ Hq'].
      rewrite (Hpts q' Hq') in Hq. injection Hq as <-.
      apply elem_of_cons in Hq' as [->|Hq']; [|by apply Hall].
      split; [done|]. intros E. by rewrite (Heq E).
    + apply IH; [by apply increasing_filter|done|].
      intros q Hq. apply Hpts. by apply list_elem_of_filter in Hq as [_ ?].
Qed.

(** The order visits every input index once. *)
Lemma chained_path_perm (pts : Points) :
  chained_path pts ≡ₚ seq 0 (length pts).
Proof.
  unfold chained_path. destruct pts as [|p0 pts']; [done|].
  rewrite chain_perm.
  - rewrite fmap_imap. rewrite (imap_ext _ (λ i _, i)) by done.
    by rewrite imap_seq_0, list_fmap_id.
  - apply increasing_imap.
  - by rewrite length_imap.
Qed.

(** The order is the greedy chain that leaves from the first point. *)
Lemma chained_path_greedy (p0 : Point) (pts' : Points) :
  greedy_chain (p0 :: pts') p0 (chained_path (p0 :: pts')).
Proof.
  unfold chained_path. apply chain_greedy.
  - apply increasing_imap.
  - by rewrite length_imap.
  - intros [i p] Hq. by apply elem_of_lookup_imap_1 in Hq as (i' & p' & [= -> ->] & ?).
Qed.

Lemma chained_path_length (pts : Points) :
  length (chained_path pts) = length pts.
Proof. by rewrite chained_path_perm, length_seq. Qed.
End chained_path.

(** ** make_slices *)

Ltac unfold_M :=
  unfold mbind, M_MBind, M_bind, mret, M_MRet, M_ret, get, modify, geom,
    unchecked, throw, undefined.

Lemma mapM_omap {A B} (f : A → option B) l k :
  mapM f l = Some k → omap f l = k.
Proof.
  revert k. induction l as [|a l IH]; intros k; cbn.
  - by intros [= <-].
  - destruct (f a) as [b|]; cbn; [|done].
    destruct (mapM f l) as [k'|]; cbn; [|done].
    intros [= <-]. by rewrite (IH k').
Qed.

Lemma omap_lookup_seq {A} (pre l : list A) :
  omap (λ i, (pre ++ l) !! i) (seq (length pre) (length l)) = l.
Proof.
  revert pre. induction l as [|a l IH]; intros pre; [done|].
  cbn. rewrite list_lookup_middle by done. cbn. f_equal.
  specialize (IH (pre ++ [a])).
  rewrite <- (assoc_L (++)), length_app in IH. cbn in IH.
  by rewrite Nat.add_1_r in IH.
Qed.

(** Picking the elements of [l] along a permutation of its indices gives
    a permutation of [l]. *)
Lemma pick_permutation {A} (l : list A) (order : list nat) :
  order ≡ₚ seq 0 (length l) →
  ∃ picked, mapM (λ i, l !! i) order = Some picked ∧ picked ≡ₚ l.
Proof.
  intros Hperm.
  assert (is_Some (mapM (λ i, l !! i) order)) as [picked Hp].
  { apply mapM_is_Some. apply Forall_forall. intros i Hi.
    rewrite Hperm in Hi. apply elem_of_seq in Hi.
    apply lookup_lt_is_Some. lia. }
  exists picked. split; [done|].
  rewrite <- (mapM_omap _ _ _ Hp), Hperm.
  pose proof (omap_lookup_seq [] l) as E. cbn in E. by rewrite E.
Qed.

Lemma foreach_push_back (s : ExPolygons) (order : list nat) :
  ∀ picked acc (this : Layer),
    mapM (λ it, s !! it) order = Some picked →
    foreach order (λ it,
      ex ← unchecked (s !! it);
      modify (λ this, set_slices (slices this ++ [ex]) this))
      (set_slices acc this)
    = (set_slices (acc ++ picked) this, Return tt).
Proof.
  induction order as [|it order IH]; intros picked acc this; cbn.
  - intros [= <-]. by rewrite app_nil_r.
  - destruct (s !! it) as [ex|]; cbn; [|done].
    destruct (mapM (λ it, s !! it) order) as [picked'|] eqn:E; cbn; [|done].
    intros [= <-]. unfold_M. cbn.
    replace (set_slices _ (set_slices acc this))
      with (set_slices (acc ++ [ex]) this) by done.
    rewrite (IH picked') by done. by rewrite <- (assoc_L (++)).
Qed.

Lemma store_chained_Return (s : ExPolygons) (this this' : Layer) :
  store_chained s this = (this', Return tt) ↔
  ∃ pts picked,
    mapM (λ ex, first_point (contour ex)) s = Some pts ∧
    mapM (λ it, s !! it) (Geometry.chained_path pts) = Some picked ∧
    this' = set_slices picked this.
Proof.
  unfold store_chained.
  erewrite bind_Return by reflexivity.
  destruct (mapM (λ ex, first_point (contour ex)) s) as [pts|] eqn:Hpts.
  - erewrite bind_Return by reflexivity. cbv zeta.
    assert (Geometry.chained_path pts ≡ₚ seq 0 (length s)) as Hperm.
    { rewrite chained_path_perm. by rewrite (length_mapM _ _ _ Hpts). }
    destruct (pick_permutation s _ Hperm) as (picked & Hpick & _).
    rewrite (foreach_push_back s _ picked [] this Hpick). cbn. split.
    + intros [= <-]. eauto.
    + intros (pts' & picked' & [= <-] & Hp' & ->).
      rewrite Hpick in Hp'. by injection Hp' as <-.
  - erewrite bind_Undefined by reflexivity.
    split; [done|]. by intros (? & ? & ? & _).
Qed.

Lemma make_slices_Return `{Externals} (this this' : Layer) :
  make_slices this = (this', Return tt) ↔
  ∃ islands, merged_slices this = Some islands ∧
             store_chained islands this = (this', Return tt).
Proof.
  unfold make_slices, merged_slices. unfold_M. cbn.
  case_decide.
  - destruct (head (regions this)) as [front|]; cbn.
    + split; [eauto|]. by intros (? & [= <-] & ?).
    + split; [done|]. by intros (? & ? & _).
  - destruct (union_of_regions this) as [u|]; cbn.
    + split; [eauto|]. by intros (? & [= <-] & ?).
    + split; [done|]. by intros (? & ? & _).
Qed.

(** The islands stored for [s]: [s] picked along the chain of the first
    points of its contours. *)
Lemma store_chained_chain (s : ExPolygons) :
  Forall (λ ex, points (contour ex) ≠ []) s →
  ∃ pts picked,
    mapM (λ ex, first_point (contour ex)) s = Some pts ∧
    mapM (λ it, s !! it) (Geometry.chained_path pts) = Some picked ∧
    picked ≡ₚ s ∧
    ∀ this, store_chained s this = (set_slices picked this, Return tt).
Proof.
  intros Hne.
  assert (is_Some (mapM (λ ex, first_point (contour ex)) s)) as [pts Hpts].
  { apply mapM_is_Some. eapply Forall_impl; [exact Hne|].
    intros ex Hex. unfold first_point. cbn.
    destruct (points (contour ex)) eqn:E; [congruence|by eexists]. }
  assert (Geometry.chained_path pts ≡ₚ seq 0 (length s)) as Hperm.
  { rewrite chained_path_perm. by rewrite (length_mapM _ _ _ Hpts). }
  destruct (pick_permutation s _ Hperm) as (picked & Hpick & Hpp).
  exists pts, picked. split_and!; [done..|]. intros this.
  apply store_chained_Return. eauto.
Qed.

Section make_slices_properties.
Context `{Externals}.

(** C7, as the code has it: on a layer with exactly one region whose
    raw slices the union primitive returns unchanged up to order (they
    do not overlap), [make_slices] returns with an island set that is a
    permutation of the region's raw slices, and the general union path
    run on the same layer returns with a permutation of the same island
    set.  Each path stores its islands along the chain that leaves from
    the first island of its own list, the raw slices for the shortcut
    and the answer of the union for the general path: the two paths do
    the same when the union answers the slices in the order it was given
    them, and may store the islands in different orders when it does
    not. *)
Theorem make_slices_single_region (this : Layer) (r : LayerRegion.t)
    (u : ExPolygons) :
  regions this = [r] →
  Forall (λ ex, points (contour ex) ≠ [])
    (to_expolygons (LayerRegion.slices r)) →
  union_ (to_polygons (LayerRegion.slices r)) = Some u →
  u ≡ₚ to_expolygons (LayerRegion.slices r) →
  ∃ s1 s2 pts1 pts2,
    make_slices this = (set_slices s1 this, Return tt) ∧
    s1 ≡ₚ to_expolygons (LayerRegion.slices r) ∧
    make_slices_general this = (set_slices s2 this, Return tt) ∧
    s2 ≡ₚ s1 ∧
    mapM (λ ex, first_point (contour ex))
      (to_expolygons (LayerRegion.slices r)) = Some pts1 ∧
    mapM (λ it, to_expolygons (LayerRegion.slices r) !! it)
      (Geometry.chained_path pts1) = Some s1 ∧
    mapM (λ ex, first_point (contour ex)) u = Some pts2 ∧
    mapM (λ it, u !! it) (Geometry.chained_path pts2) = Some s2 ∧
    (u = to_expolygons (LayerRegion.slices r) →
     make_slices_general this = make_slices this).
Proof.
  intros Hr Hne Hu Hperm.
  destruct (store_chained_chain _ Hne) as (pts1 & s1 & Hpts1 & Hpick1 & Hs1 & Hrun1).
  assert (Forall (λ ex, points (contour ex) ≠ []) u) as Hne'.
  { apply Forall_forall. intros ex Hex. rewrite Forall_forall in Hne.
    apply Hne. by rewrite <- Hperm. }
  destruct (store_chained_chain _ Hne') as (pts2 & s2 & Hpts2 & Hpick2 & Hs2 & Hrun2).
  assert (make_slices this = (set_slices s1 this, Return tt)) as Hshort.
  { apply make_slices_Return. eexists. split; [|apply Hrun1].
    unfold merged_slices. rewrite Hr. by rewrite decide_True. }
  assert (make_slices_general this = (set_slices s2 this, Return tt)) as Hgen.
  { unfold make_slices_general.
    erewrite bind_Return by reflexivity.
    erewrite bind_Return; [apply Hrun2|].
    unfold union_of_regions. rewrite Hr. cbn. rewrite app_nil_r.
    by rewrite Hu. }
  exists s1, s2, pts1, pts2. split_and!; try done.
  - by rewrite Hs2, Hperm, Hs1.
  - intros ->. rewrite Hshort, Hgen. congruence.
Qed.

(** C8: a run of [make_slices] that returns depends on the regions
    alone, so a second run on the same regions returns the same islands
    in the same order; that order visits every merged island once,
    along the greedy nearest-neighbour chain of the first points of
    their contours, equally near points in input order. *)
Theorem make_slices_deterministic (this1 this2 this1' : Layer) :
  regions this1 = regions this2 →
  make_slices this1 = (this1', Return tt) →
  make_slices this2 = (set_slices (slices this1') this2, Return tt) ∧
  ∃ islands pts,
    merged_slices this1 = Some islands ∧
    mapM (λ ex, first_point (contour ex)) islands = Some pts ∧
    mapM (λ it, islands !! it) (Geometry.chained_path pts)
      = Some (slices this1') ∧
    Geometry.chained_path pts ≡ₚ seq 0 (length islands) ∧
    match pts with
    | [] => slices this1' = []
    | p0 :: _ => Geometry.greedy_chain pts p0 (Geometry.chained_path pts)
    end.
Proof.
  intros Hregions Hrun.
  apply make_slices_Return in Hrun as (islands & Hm & Hstore).
  apply store_chained_Return in Hstore as (pts & picked & Hpts & Hpick & ->).
  cbn. split.
  - apply make_slices_Return. exists islands. split.
    + unfold merged_slices, union_of_regions in *. by rewrite <- Hregions.
    + apply store_chained_Return. eauto.
  - exists islands, pts. split_and!; try done.
    + rewrite chained_path_perm. by rewrite (length_mapM _ _ _ Hpts).
    + destruct pts as [|p0 pts'].
      * cbn in Hpick. by injection Hpick as <-.
      * apply chained_path_greedy.
Qed.

(** C10: with no region, and a union primitive that answers the empty
    set on no polygon, [make_slices] returns and leaves no island; and a
    run that returns would have returned the same layer whatever
    islands the layer held before. *)
Theorem make_slices_replaces (this : Layer) :
  (regions this = [] → union_ [] = Some [] →
     make_slices this = (set_slices [] this, Return tt)) ∧
  (∀ old this',
     make_slices this = (this', Return tt) →
     make_slices (set_slices old this) = (this', Return tt)).
Proof.
  split.
  - intros Hr Hu. apply make_slices_Return. exists []. split.
    + unfold merged_slices, union_of_regions. rewrite Hr. cbn. exact Hu.
    + reflexivity.
  - intros old this' Hrun.
    apply make_slices_Return in Hrun as (islands & Hm & Hstore).
    apply store_chained_Return in Hstore as (pts & picked & Hpts & Hpick & ->).
    apply make_slices_Return. exists islands. split; [done|].
    apply store_chained_Return. exists pts, picked. by split_and!.
Qed.
End make_slices_properties.

Lemma make_slices_single_region_witness :
  ∃ s1 s2 pts1 pts2,
    @make_slices Example.reordering (Example.layer [Example.scattered])
      = (set_slices s1 (Example.layer [Example.scattered]), Return tt) ∧
    s1 ≡ₚ to_expolygons (LayerRegion.slices Example.scattered) ∧
    @make_slices_general Example.reordering
      (Example.layer [Example.scattered])
      = (set_slices s2 (Example.layer [Example.scattered]), Return tt) ∧
    s2 ≡ₚ s1 ∧
    mapM (λ ex, first_point (contour ex))
      (to_expolygons (LayerRegion.slices Example.scattered)) = Some pts1 ∧
    mapM (λ it, to_expolygons (LayerRegion.slices Example.scattered) !! it)
      (Geometry.chained_path pts1) = Some s1 ∧
    mapM (λ ex, first_point (contour ex))
      (reverse (to_expolygons (LayerRegion.slices Example.scattered)))
      = Some pts2 ∧
    mapM (λ it,
            reverse (to_expolygons (LayerRegion.slices Example.scattered))
            !! it)
      (Geometry.chained_path pts2) = Some s2 ∧
    (reverse (to_expolygons (LayerRegion.slices Example.scattered))
     = to_expolygons (LayerRegion.slices Example.scattered) →
     @make_slices_general Example.reordering
       (Example.layer [Example.scattered])
     = @make_slices Example.reordering (Example.layer [Example.scattered])).
Proof.
  apply (@make_slices_single_region Example.reordering
           (Example.layer [Example.scattered]) Example.scattered
           (reverse (to_expolygons (LayerRegion.slices Example.scattered)))).
  - reflexivity.
  - repeat constructor; discriminate.
  - reflexivity.
  - apply reverse_Permutation.
Defined.

(** C7 as stated fails: the three raw slices of [Example.scattered] do
    not overlap and the union answers them unchanged, last first.  The
    shortcut chains them from the first raw slice and the general path
    from the first island of the union, so the two paths store the same
    islands in different orders. *)
Lemma make_slices_shortcut_reorders :
  regions (Example.layer [Example.scattered]) = [Example.scattered] ∧
  @union_ Example.reordering
    (to_polygons (LayerRegion.slices Example.scattered))
  = Some (reverse (to_expolygons (LayerRegion.slices Example.scattered))) ∧
  reverse (to_expolygons (LayerRegion.slices Example.scattered))
    ≡ₚ to_expolygons (LayerRegion.slices Example.scattered) ∧
  @make_slices Example.reordering (Example.layer [Example.scattered])
  = (set_slices
       [Example.square 0 0 10; Example.square 20 0 10; Example.square 50 0 10]
       (Example.layer [Example.scattered]), Return tt) ∧
  @make_slices_general Example.reordering (Example.layer [Example.scattered])
  = (set_slices
       [Example.square 20 0 10; Example.square 0 0 10; Example.square 50 0 10]
       (Example.layer [Example.scattered]), Return tt) ∧
  @make_slices_general Example.reordering (Example.layer [Example.scattered])
  ≠ @make_slices Example.reordering (Example.layer [Example.scattered]).
Proof.
  split_and!; [done|done|apply reverse_Permutation|by vm_compute..].
Qed.

Lemma make_slices_deterministic_witness :
  @make_slices (Example.externals Example.solid)
    (set_slices [Example.square 7 7 7] (Example.layer [Example.scattered]))
  = (set_slices
       [Example.square 0 0 10; Example.square 20 0 10; Example.square 50 0 10]
       (Example.layer [Example.scattered]), Return tt).
Proof.
  apply (@make_slices_deterministic (Example.externals Example.solid)
           (Example.layer [Example.scattered])
           (set_slices [Example.square 7 7 7] (Example.layer [Example.scattered]))
           (set_slices
              [Example.square 0 0 10; Example.square 20 0 10;
               Example.square 50 0 10]
              (Example.layer [Example.scattered]))).
  - reflexivity.
  - by vm_compute.
Defined.

Lemma make_slices_replaces_witness :
  @make_slices (Example.externals Example.solid) (Example.layer [])
  = (set_slices [] (Example.layer []), Return tt).
Proof.
  apply (@make_slices_replaces (Example.externals Example.solid)
           (Example.layer [])); reflexivity.
Defined.

(** ** Reasoning about statements of the monad *)

Section preserves.
Context {S : Type} (R : relation S) `{!Reflexive R, !Transitive R}.

Lemma preserves_ret {A} (a : A) : preserves R (mret a : M S A).
Proof. intros s s' o [= <- _]. reflexivity. Qed.

Lemma preserves_bind {A B} (m : M S A) (f : A → M S B) :
  preserves R m → (∀ a, preserves R (f a)) → preserves R (m ≫= f).
Proof.
  intros Hm Hf s s' o. unfold mbind, M_MBind, M_bind.
  destruct (m s) as [s1 [a|e|]] eqn:E.
  - intros E'. etrans; [by eapply Hm|by eapply Hf].
  - intros [= <- _]. by eapply Hm.
  - intros [= <- _]. by eapply Hm.
Qed.

Lemma preserves_get : preserves R (get : M S S).
Proof. intros s s' o [= <- _]. reflexivity. Qed.

Lemma preserves_modify (f : S → S) :
  (∀ s, R s (f s)) → preserves R (modify f).
Proof. intros Hf s s' o [= <- _]. apply Hf. Qed.

Lemma preserves_geom {A} (r : option A) : preserves R (geom r : M S A).
Proof. destruct r; intros s s' o [= <- _]; reflexivity. Qed.

Lemma preserves_unchecked {A} (r : option A) :
  preserves R (unchecked r : M S A).
Proof. destruct r; intros s s' o [= <- _]; reflexivity. Qed.

Lemma preserves_throw {A} (e : exception) : preserves R (throw e : M S A).
Proof. intros s s' o [= <- _]. reflexivity. Qed.

Lemma preserves_foreach {A} (xs : list A) (body : A → M S unit) :
  (∀ x, x ∈ xs → preserves R (body x)) → preserves R (foreach xs body).
Proof.
  induction xs as [|x xs IH]; intros Hbody; cbn.
  - apply preserves_ret.
  - apply preserves_bind.
    + apply Hbody, list_elem_of_here.
    + intros _. apply IH. intros y Hy. by apply Hbody, list_elem_of_further.
Qed.

Lemma preserves_foldM {A B} (body : B → A → M S B) (xs : list A) : ∀ acc,
  (∀ acc x, preserves R (body acc x)) → preserves R (foldM body acc xs).
Proof.
  induction xs as [|x xs IH]; intros acc Hbody; cbn.
  - apply preserves_ret.
  - apply preserves_bind; [apply Hbody|]. intros acc'. by apply IH.
Qed.

Lemma preserves_if {A} (P : Prop) `{Decision P} (m1 m2 : M S A) :
  preserves R m1 → preserves R m2 →
  preserves R (if decide P then m1 else m2).
Proof. by case_decide. Qed.
End preserves.

Global Instance same_input_refl : Reflexive same_input.
Proof. by intros s. Qed.
Global Instance same_input_trans : Transitive same_input.
Proof.
  intros s1 s2 s3 (?&?&?&?&?) (?&?&?&?&?). unfold same_input.
  split_and!; congruence.
Qed.
Global Instance same_outside_refl g : Reflexive (same_outside g).
Proof. by intros s l ?. Qed.
Global Instance same_outside_trans g : Transitive (same_outside g).
Proof. intros s1 s2 s3 H12 H23 l Hl. by rewrite H23, H12. Qed.
Global Instance same_state_refl {S} : Reflexive (@same_state S).
Proof. by intros s. Qed.
Global Instance same_state_trans {S} : Transitive (@same_state S).
Proof. unfold same_state. intros s1 s2 s3 ? ?. congruence. Qed.

(** ** make_perimeters: what a group may change *)

Lemma region_ptr_spec (this : Layer) l r :
  regions this !! l = Some r → region_ptr l this = (this, Return r).
Proof. intros E. unfold region_ptr. unfold_M. cbn. by rewrite E. Qed.

Lemma preserves_region_ptr (R : relation Layer) `{!Reflexive R} l :
  preserves R (region_ptr l).
Proof.
  intros s s' o. unfold region_ptr. unfold_M. cbn.
  destruct (regions s !! l); intros [= <- _]; reflexivity.
Qed.

Lemma preserves_modify_region_input l f :
  (∀ r, LayerRegion.config (f r) = LayerRegion.config r ∧
        LayerRegion.slices (f r) = LayerRegion.slices r) →
  preserves same_input (modify_region l f).
Proof.
  intros Hf. apply preserves_modify. intros s. unfold same_input. cbn.
  split_and!; try done.
  rewrite (list_fmap_alter _ f id).
  - by apply list_alter_id.
  - apply Forall_forall. intros r _. cbn. by destruct (Hf r) as [-> ->].
Qed.

Lemma preserves_modify_region_outside g l f :
  l ∈ g → preserves (same_outside g) (modify_region l f).
Proof.
  intros Hl. apply preserves_modify. intros s l' Hl'. cbn.
  apply list_lookup_alter_ne. by intros ->.
Qed.

Lemma preserves_set_perimeter_expolygons_input v :
  preserves same_input (modify (set_perimeter_expolygons v)).
Proof. by apply preserves_modify. Qed.

Lemma preserves_set_perimeter_expolygons_outside g v :
  preserves (same_outside g) (modify (set_perimeter_expolygons v)).
Proof. by apply preserves_modify. Qed.

Tactic Notation "papply" uconstr(L) := (apply L; try (by apply _)).

Ltac preserves_step :=
  first
    [ papply preserves_ret
    | papply preserves_get
    | papply preserves_geom
    | papply preserves_unchecked
    | papply preserves_region_ptr
    | apply preserves_set_perimeter_expolygons_input
    | apply preserves_set_perimeter_expolygons_outside
    | papply preserves_bind
    | papply preserves_foldM
    | papply preserves_foreach
    | papply preserves_if ].

Lemma copy_perimeter_expolygons_spec ps (this : Layer) :
  copy_perimeter_expolygons ps this
  = (set_perimeter_expolygons (to_expolygons ps) this, Return tt).
Proof.
  unfold copy_perimeter_expolygons.
  erewrite bind_Return by reflexivity.
  change (modify (set_perimeter_expolygons []) this).1
    with (set_perimeter_expolygons [] this).
  assert (∀ acc,
    foreach ps (λ it, modify (λ this0,
       set_perimeter_expolygons (perimeter_expolygons this0 ++ [expolygon it])
         this0)) (set_perimeter_expolygons acc this)
    = (set_perimeter_expolygons (acc ++ to_expolygons ps) this, Return tt))
    as Hloop.
  { induction ps as [|p ps IH]; intros acc; cbn.
    - by rewrite app_nil_r.
    - erewrite bind_Return by reflexivity. cbn.
      change (set_perimeter_expolygons _ (set_perimeter_expolygons acc this))
        with (set_perimeter_expolygons (acc ++ [expolygon p]) this).
      rewrite IH. by rewrite <- (assoc_L (++)). }
  apply (Hloop []).
Qed.

Section make_perimeters_frames.
Context `{Externals}.

Lemma make_pooled_pure region_id layerms :
  preserves same_state (make_pooled region_id layerms).
Proof.
  unfold make_pooled, pool_slices, merge_pooled.
  repeat (intros; preserves_step).
Qed.

Lemma copy_perimeter_expolygons_input ps :
  preserves same_input (copy_perimeter_expolygons ps).
Proof. intros s s' o. rewrite copy_perimeter_expolygons_spec. by intros [= <- _]. Qed.

Lemma copy_perimeter_expolygons_outside g ps :
  preserves (same_outside g) (copy_perimeter_expolygons ps).
Proof. intros s s' o. rewrite copy_perimeter_expolygons_spec. by intros [= <- _]. Qed.

Lemma make_pooled_input region_id layerms :
  preserves same_input (make_pooled region_id layerms).
Proof.
  intros s s' o E. by rewrite (make_pooled_pure _ _ _ _ _ E).
Qed.

Lemma make_pooled_outside g region_id layerms :
  preserves (same_outside g) (make_pooled region_id layerms).
Proof.
  intros s s' o E. by rewrite (make_pooled_pure _ _ _ _ _ E).
Qed.

Lemma split_back_input ps fs l : preserves same_input (split_back ps fs l).
Proof.
  unfold split_back.
  repeat (intros; first
    [ apply preserves_modify_region_input; by intros []
    | preserves_step ]).
Qed.

Lemma split_back_outside g ps fs l :
  l ∈ g → preserves (same_outside g) (split_back ps fs l).
Proof.
  intros Hl. unfold split_back.
  repeat (intros; first
    [ by apply preserves_modify_region_outside
    | preserves_step ]).
Qed.

Lemma make_perimeters_in_place_input region_id :
  preserves same_input (make_perimeters_in_place region_id).
Proof.
  unfold make_perimeters_in_place.
  papply preserves_bind; [papply preserves_region_ptr|]. intros layerm.
  destruct (LayerRegion_make_perimeters layerm (LayerRegion.slices layerm));
    repeat (intros; first
      [ apply preserves_modify_region_input; by intros []
      | papply preserves_throw
      | preserves_step ]).
Qed.

Lemma make_perimeters_in_place_outside g region_id :
  region_id ∈ g →
  preserves (same_outside g) (make_perimeters_in_place region_id).
Proof.
  intros Hg. unfold make_perimeters_in_place.
  papply preserves_bind; [papply preserves_region_ptr|]. intros layerm.
  destruct (LayerRegion_make_perimeters layerm (LayerRegion.slices layerm));
    repeat (intros; first
      [ by apply preserves_modify_region_outside
      | papply preserves_throw
      | preserves_step ]).
Qed.

Lemma make_perimeters_group_input g :
  preserves same_input (make_perimeters_group g).
Proof.
  destruct g as [|region_id rest]; [papply preserves_ret|].
  unfold make_perimeters_group. papply preserves_if.
  - unfold make_perimeters_single.
    repeat (intros; first
      [ apply preserves_modify_region_input; by intros []
      | apply copy_perimeter_expolygons_input
      | apply make_perimeters_in_place_input
      | preserves_step ]).
  - unfold make_perimeters_multi.
    papply preserves_bind; [apply make_pooled_input|]. intros out. cbv zeta.
    papply preserves_bind; [apply copy_perimeter_expolygons_input|]. intros _.
    papply preserves_if; [|papply preserves_ret].
    papply preserves_foreach. intros l _. apply split_back_input.
Qed.

Lemma make_perimeters_group_outside g :
  preserves (same_outside g) (make_perimeters_group g).
Proof.
  destruct g as [|region_id rest]; [papply preserves_ret|].
  unfold make_perimeters_group. papply preserves_if.
  - unfold make_perimeters_single.
    repeat (intros; first
      [ apply preserves_modify_region_outside; apply list_elem_of_here
      | apply copy_perimeter_expolygons_outside
      | apply make_perimeters_in_place_outside; apply list_elem_of_here
      | preserves_step ]).
  - unfold make_perimeters_multi.
    papply preserves_bind; [apply make_pooled_outside|]. intros out. cbv zeta.
    papply preserves_bind; [apply copy_perimeter_expolygons_outside|]. intros _.
    papply preserves_if; [|papply preserves_ret].
    papply preserves_foreach. intros l Hl. by apply split_back_outside.
Qed.
End make_perimeters_frames.

(** ** make_perimeters: the groups *)

Section grouping.
Context `{Externals}.

Lemma compatible_true c c' :
  compatible c c' = true ↔
    perimeter_extruder c = perimeter_extruder c' ∧
    perimeters c = perimeters c' ∧
    perimeter_speed c = perimeter_speed c' ∧
    gap_fill_speed c = gap_fill_speed c' ∧
    overhangs c = overhangs c' ∧
    serialize c "perimeter_extrusion_width"
      = serialize c' "perimeter_extrusion_width" ∧
    thin_walls c = thin_walls c' ∧
    external_perimeters_first c = external_perimeters_first c'.
Proof.
  unfold compatible. rewrite !andb_true_iff, !bool_decide_eq_true. tauto.
Qed.

Lemma compatible_refl c : compatible c c = true.
Proof. apply compatible_true. by split_and!. Qed.

Lemma compatible_sym c c' : compatible c c' = true → compatible c' c = true.
Proof. rewrite !compatible_true. intros (?&?&?&?&?&?&?&?). by split_and!. Qed.

Lemma compatible_trans c1 c2 c3 :
  compatible c1 c2 = true → compatible c2 c3 = true →
  compatible c1 c3 = true.
Proof.
  rewrite !compatible_true.
  intros (?&?&?&?&?&?&?&?) (?&?&?&?&?&?&?&?). split_and!; congruence.
Qed.

Lemma compatible_at_refl rs i r : rs !! i = Some r → compatible_at rs i i.
Proof. intros E. exists r, r. split_and!; [done..|apply compatible_refl]. Qed.

Lemma compatible_at_sym rs i j : compatible_at rs i j → compatible_at rs j i.
Proof.
  intros (ri & rj & ? & ? & ?). exists rj, ri.
  split_and!; [done..|by apply compatible_sym].
Qed.

Lemma compatible_at_trans rs i j k :
  compatible_at rs i j → compatible_at rs j k → compatible_at rs i k.
Proof.
  intros (ri & rj & ? & ? & ?) (rj' & rk & ? & ? & ?).
  assert (rj' = rj) as -> by congruence.
  exists ri, rk. split_and!; [done..|by eapply compatible_trans].
Qed.

Lemma elem_of_compatible_from config rest : ∀ it j,
  j ∈ compatible_from config it rest ↔
  ∃ r, (it ≤ j)%nat ∧ rest !! (j - it)%nat = Some r ∧
       compatible config (LayerRegion.config r) = true.
Proof.
  induction rest as [|r rest IH]; intros it j; cbn.
  - split; [by intros ?%elem_of_nil|]. by intros (? & _ & ? & _).
  - assert (j ∈ compatible_from config (S it) rest ↔
            ∃ r', (it < j)%nat ∧ rest !! (j - S it)%nat = Some r' ∧
                  compatible config (LayerRegion.config r') = true) as IH'.
    { rewrite IH. by split; intros (r' & ? & ? & ?); exists r'. }
    assert (∀ P : Prop, (j = it ∧ P) ∨ j ∈ compatible_from config (S it) rest →
      (P → compatible config (LayerRegion.config r) = true) →
      ∃ r', (it ≤ j)%nat ∧ (r :: rest) !! (j - it)%nat = Some r' ∧
            compatible config (LayerRegion.config r') = true) as Hfwd.
    { intros P [[-> HP]|Hj] HPc.
      - exists r. rewrite Nat.sub_diag. split_and!; [lia|done|by apply HPc].
      - apply IH' in Hj as (r' & ? & ? & ?). exists r'.
        replace (j - it)%nat with (S (j - S it)) by lia. split_and!; [lia|done..]. }
    destruct (compatible config (LayerRegion.config r)) eqn:Hc.
    + rewrite elem_of_cons. split.
      * intros Hj. apply (Hfwd True); [|done]. destruct Hj; [by left|by right].
      * intros (r' & Hle & Hl & Hc').
        destruct (decide (j = it)) as [->|Hne]; [by left|right].
        apply IH'. exists r'.
        replace (j - it)%nat with (S (j - S it)) in Hl by lia.
        split_and!; [lia|done..].
    + split.
      * intros Hj. apply (Hfwd False); [by right|done].
      * intros (r' & Hle & Hl & Hc').
        destruct (decide (j = it)) as [->|Hne].
        { rewrite Nat.sub_diag in Hl. cbn in Hl. congruence. }
        apply IH'. exists r'.
        replace (j - it)%nat with (S (j - S it)) in Hl by lia.
        split_and!; [lia|done..].
Qed.

Lemma elem_of_find_compatible rs region_id config j :
  j ∈ find_compatible rs region_id config ↔
  (region_id < j)%nat ∧
  ∃ r, rs !! j = Some r ∧ compatible config (LayerRegion.config r) = true.
Proof.
  unfold find_compatible. rewrite elem_of_compatible_from. split.
  - intros (r & Hle & Hl & Hc). split; [lia|]. exists r. split; [|done].
    rewrite lookup_drop in Hl. by replace (S region_id + (j - S region_id))%nat
      with j in Hl by lia.
  - intros (Hlt & r & Hl & Hc). exists r. split_and!; [lia| |done].
    rewrite lookup_drop. by replace (S region_id + (j - S region_id))%nat
      with j by lia.
Qed.

Lemma done_before_0 rs : done_before rs 0 ∅.
Proof.
  intros j. split; [by intros ?%not_elem_of_empty|]. intros (i & ? & _). lia.
Qed.

(** A region already in a group is passed over. *)
Lemma done_before_skip rs k done :
  done_before rs k done → k ∈ done → done_before rs (S k) done.
Proof.
  intros Hd Hk j. rewrite (Hd j). split.
  - intros (i & ? & ?). exists i. split; [lia|done].
  - intros (i & Hi & Hc). destruct (decide (i = k)) as [->|?].
    + apply Hd in Hk as (i' & ? & ?). exists i'. split; [done|].
      by eapply compatible_at_trans.
    + exists i. split; [lia|done].
Qed.

(** A region not yet in a group starts one. *)
Lemma done_before_group rs k r done :
  done_before rs k done → k ∉ done → rs !! k = Some r →
  done_before rs (S k)
    (list_to_set (find_compatible rs k (LayerRegion.config r))
       ∪ ({[k]} ∪ done)).
Proof.
  intros Hd Hk Hr j.
  rewrite !elem_of_union, elem_of_list_to_set, elem_of_singleton,
    elem_of_find_compatible, (Hd j).
  split.
  - intros [(Hlt & rj & Hrj & Hc)|[->|(i & ? & ?)]].
    + exists k. split; [lia|]. by exists r, rj.
    + exists k. split; [lia|]. by eapply compatible_at_refl.
    + exists i. split; [lia|done].
  - intros (i & Hi & Hc). destruct (decide (i = k)) as [->|?].
    + destruct Hc as (r' & rj & Hr' & Hrj & Hc).
      assert (r' = r) as -> by congruence.
      destruct (decide (j = k)) as [->|?]; [by right; left|].
      destruct (decide (k < j)%nat); [left; eauto|].
      exfalso. apply Hk, Hd. exists j. split; [lia|].
      apply compatible_at_sym. by exists r, rj.
    + right; right. exists i. split; [lia|done].
Qed.

(** Every group is a region that no earlier region is compatible with,
    followed by the later regions compatible with it. *)
Lemma groups_loop_heads rs m : ∀ k done g,
  (k + m)%nat = length rs → done_before rs k done →
  g ∈ groups_loop rs (seq k m) done →
  ∃ h r, rs !! h = Some r ∧
    g = h :: find_compatible rs h (LayerRegion.config r) ∧
    (k ≤ h)%nat ∧ ∀ i, (i < h)%nat → ¬ compatible_at rs i h.
Proof.
  induction m as [|m IH]; intros k done g Hlen Hd; cbn.
  - by intros ?%elem_of_nil.
  - case_decide as Hk.
    + intros Hg.
      destruct (IH (S k) done g) as (h & r & ? & ? & ? & ?);
        [lia|by apply done_before_skip|done|].
      exists h, r. split_and!; [done..|lia|done].
    + destruct (rs !! k) as [r|] eqn:Hr; [|by intros ?%elem_of_nil].
      intros [->|Hg]%elem_of_cons.
      * exists k, r. split_and!; [done..|]. intros i Hi Hc.
        apply Hk, Hd. eauto.
      * destruct (IH (S k) _ g ltac:(lia) (done_before_group _ _ _ _ Hd Hk Hr) Hg)
          as (h & r' & ? & ? & ? & ?).
        exists h, r'. split_and!; [done..|lia|done].
Qed.

(** Every region is in a group. *)
Lemma groups_loop_cover rs m : ∀ k done j,
  (k + m)%nat = length rs → (k ≤ j < length rs)%nat →
  j ∈ done ∨ ∃ g, g ∈ groups_loop rs (seq k m) done ∧ j ∈ g.
Proof.
  induction m as [|m IH]; intros k done j Hlen Hj; cbn; [lia|].
  case_decide as Hk.
  - destruct (decide (j = k)) as [->|?]; [by left|].
    apply IH; lia.
  - destruct (lookup_lt_is_Some_2 rs k) as [r Hr]; [lia|]. rewrite Hr.
    destruct (decide (j = k)) as [->|?].
    { right. eexists. split; apply list_elem_of_here. }
    destruct (IH (S k)
      (list_to_set (find_compatible rs k (LayerRegion.config r))
         ∪ ({[k]} ∪ done)) j) as [Hin|(g & Hg & Hjg)]; [lia..| |].
    + apply elem_of_union in Hin as [Hin|Hin].
      * right. eexists. split; [apply list_elem_of_here|].
        apply list_elem_of_further. by apply elem_of_list_to_set in Hin.
      * apply elem_of_union in Hin as [Hin|Hin]; [|by left].
        apply elem_of_singleton in Hin. lia.
    + right. exists g. split; [by apply list_elem_of_further|done].
Qed.

(** The members of a group to come are in no group yet. *)
Lemma groups_loop_fresh rs m k done g j :
  (k + m)%nat = length rs → done_before rs k done →
  g ∈ groups_loop rs (seq k m) done → j ∈ g → j ∉ done.
Proof.
  intros Hlen Hd Hg Hj Hdone.
  destruct (groups_loop_heads rs m k done g Hlen Hd Hg)
    as (h & r & Hr & -> & Hkh & Hmin).
  apply Hd in Hdone as (i & Hi & Hc).
  apply (Hmin i); [lia|].
  eapply compatible_at_trans; [exact Hc|]. apply compatible_at_sym.
  apply elem_of_cons in Hj as [->|Hj]; [by eapply compatible_at_refl|].
  apply elem_of_find_compatible in Hj as (_ & rj & ? & ?). by exists r, rj.
Qed.

(** The groups are pairwise disjoint. *)
Lemma groups_loop_disjoint rs m : ∀ k done gs g gs' g' j,
  (k + m)%nat = length rs → done_before rs k done →
  groups_loop rs (seq k m) done = gs ++ g :: gs' →
  g' ∈ gs → j ∈ g → j ∉ g'.
Proof.
  induction m as [|m IH]; intros k done gs g gs' g' j Hlen Hd; cbn.
  - by destruct gs.
  - case_decide as Hk.
    + apply IH; [lia|by apply done_before_skip].
    + destruct (rs !! k) as [r|] eqn:Hr; [|by destruct gs].
      destruct gs as [|g0 gs1]; [by intros _ ?%elem_of_nil|].
      intros [= <- Hrest] Hg' Hj.
      pose proof (done_before_group _ _ _ _ Hd Hk Hr) as Hd'.
      apply elem_of_cons in Hg' as [->|Hg'].
      * intros Hjk.
        eapply (groups_loop_fresh rs m (S k) _ g j); [lia|exact Hd'| |done|].
        { rewrite Hrest. apply elem_of_app. right. apply list_elem_of_here. }
        apply elem_of_cons in Hjk as [->|Hjk].
        -- apply elem_of_union_r, elem_of_union_l. by apply elem_of_singleton.
        -- apply elem_of_union_l. by apply elem_of_list_to_set.
      * by eapply (IH (S k) _ gs1 g gs' g' j ltac:(lia) Hd' Hrest).
Qed.

(** The groups depend on the configurations of the regions alone. *)
Lemma compatible_from_ext config rest : ∀ rest' k,
  LayerRegion.config <$> rest = LayerRegion.config <$> rest' →
  compatible_from config k rest = compatible_from config k rest'.
Proof.
  induction rest as [|r rest IH]; intros [|r' rest'] k E; try done.
  injection E as Hr E. cbn. by rewrite Hr, (IH rest' (S k) E).
Qed.

Lemma groups_loop_ext rs rs' ids : ∀ seen,
  LayerRegion.config <$> rs = LayerRegion.config <$> rs' →
  groups_loop rs ids seen = groups_loop rs' ids seen.
Proof.
  intros seen E. revert seen.
  induction ids as [|region_id rest IH]; intros seen; [done|]. cbn.
  case_decide; [apply IH|].
  assert (LayerRegion.config <$> rs !! region_id
          = LayerRegion.config <$> rs' !! region_id) as Hl.
  { by rewrite <- !list_lookup_fmap, E. }
  assert (∀ c, find_compatible rs region_id c = find_compatible rs' region_id c)
    as Hf.
  { intros c. unfold find_compatible. apply compatible_from_ext.
    by rewrite !fmap_drop, E. }
  destruct (rs !! region_id) as [r|], (rs' !! region_id) as [r'|];
    try done.
  injection Hl as Hl. by rewrite Hl, Hf, IH.
Qed.

Lemma same_input_configs s s' :
  same_input s s' →
  LayerRegion.config <$> regions s' = LayerRegion.config <$> regions s.
Proof.
  intros (E & _).
  apply (f_equal (fmap fst)) in E. by rewrite <- !list_fmap_compose in E.
Qed.

Lemma same_input_length s s' :
  same_input s s' → length (regions s') = length (regions s).
Proof.
  intros E%same_input_configs. apply (f_equal length) in E.
  by rewrite !length_fmap in E.
Qed.

(** The outer loop forms the groups of [groups_loop] and runs them one
    after the other. *)
Lemma make_perimeters_loop_groups ids : ∀ seen this,
  Forall (λ i, (i < length (regions this))%nat) ids →
  make_perimeters_loop ids seen this
  = make_perimeters_groups (groups_loop (regions this) ids seen) this.
Proof.
  unfold make_perimeters_groups.
  induction ids as [|region_id rest IH]; intros seen this Hids; [done|].
  apply Forall_cons in Hids as [Hid Hids].
  cbn [make_perimeters_loop groups_loop].
  case_decide; [by apply IH|].
  destruct (lookup_lt_is_Some_2 (regions this) region_id Hid) as [r Hr].
  rewrite Hr. erewrite bind_Return by reflexivity.
  erewrite bind_Return by (by apply region_ptr_spec). cbv zeta.
  cbn [foreach].
  set (g := region_id
            :: find_compatible (regions this) region_id (LayerRegion.config r)).
  unfold mbind, M_MBind, M_bind.
  destruct (make_perimeters_group g this) as [this1 [[]|e|]] eqn:E; try done.
  pose proof (make_perimeters_group_input _ _ _ _ E) as Hin.
  rewrite IH.
  - by rewrite (groups_loop_ext _ _ _ _ (same_input_configs _ _ Hin)).
  - by rewrite (same_input_length _ _ Hin).
Qed.

Lemma make_perimeters_as_groups (this : Layer) :
  make_perimeters this = make_perimeters_groups (perimeter_groups this) this.
Proof.
  unfold make_perimeters, perimeter_groups.
  apply make_perimeters_loop_groups.
  apply Forall_forall. intros i Hi. apply elem_of_seq in Hi. lia.
Qed.

(** C6: [make_perimeters] runs the groups of [perimeter_groups] one
    after the other, and two regions of the layer are in a same group
    exactly when their configurations agree on the eight compared
    options, the extrusion width compared as serialized. *)
Theorem perimeter_groups_compatible (this : Layer) (i j : nat)
    (ri rj : LayerRegion.t) :
  regions this !! i = Some ri → regions this !! j = Some rj →
  make_perimeters this = make_perimeters_groups (perimeter_groups this) this ∧
  (same_group (perimeter_groups this) i j ↔
     perimeter_extruder (LayerRegion.config ri)
       = perimeter_extruder (LayerRegion.config rj) ∧
     perimeters (LayerRegion.config ri) = perimeters (LayerRegion.config rj) ∧
     perimeter_speed (LayerRegion.config ri)
       = perimeter_speed (LayerRegion.config rj) ∧
     gap_fill_speed (LayerRegion.config ri)
       = gap_fill_speed (LayerRegion.config rj) ∧
     overhangs (LayerRegion.config ri) = overhangs (LayerRegion.config rj) ∧
     serialize (LayerRegion.config ri) "perimeter_extrusion_width"
       = serialize (LayerRegion.config rj) "perimeter_extrusion_width" ∧
     thin_walls (LayerRegion.config ri) = thin_walls (LayerRegion.config rj) ∧
     external_perimeters_first (LayerRegion.config ri)
       = external_perimeters_first (LayerRegion.config rj)).
Proof.
  intros Hi Hj. split; [apply make_perimeters_as_groups|].
  rewrite <- compatible_true.
  set (rs := regions this) in *.
  assert (∀ g, g ∈ perimeter_groups this →
    ∃ h r, rs !! h = Some r ∧
      g = h :: find_compatible rs h (LayerRegion.config r) ∧
      ∀ i', (i' < h)%nat → ¬ compatible_at rs i' h) as Hheads.
  { intros g Hg.
    destruct (groups_loop_heads rs (length rs) 0 ∅ g eq_refl
                (done_before_0 rs) Hg) as (h & r & ? & ? & _ & ?).
    by exists h, r. }
  assert (∀ h r m, rs !! h = Some r →
    m ∈ h :: find_compatible rs h (LayerRegion.config r) →
    compatible_at rs h m) as Hmember.
  { intros h r m Hr [->|Hm]%elem_of_cons; [by eapply compatible_at_refl|].
    apply elem_of_find_compatible in Hm as (_ & rm & ? & ?). by exists r, rm. }
  split.
  - intros (g & Hg & Hig & Hjg).
    destruct (Hheads g Hg) as (h & r & Hr & -> & _).
    pose proof (Hmember h r i Hr Hig) as Hci.
    pose proof (Hmember h r j Hr Hjg) as Hcj.
    destruct (compatible_at_trans _ _ _ _ (compatible_at_sym _ _ _ Hci) Hcj)
      as (ri' & rj' & ? & ? & ?).
    by assert (ri' = ri ∧ rj' = rj) as [-> ->] by (split; congruence).
  - intros Hc.
    assert (compatible_at rs i j) as Hcij by (by exists ri, rj).
    destruct (groups_loop_cover rs (length rs) 0 ∅ i eq_refl) as [Hin|(g & Hg & Hig)].
    { split; [lia|]. by eapply lookup_lt_Some. }
    { by apply not_elem_of_empty in Hin. }
    exists g. split_and!; [done..|].
    destruct (Hheads g Hg) as (h & r & Hr & -> & Hmin).
    pose proof (Hmember h r i Hr Hig) as Hci.
    pose proof (compatible_at_trans _ _ _ _ Hci Hcij) as Hcj.
    destruct (decide (j = h)) as [->|Hne]; [apply list_elem_of_here|].
    apply list_elem_of_further, elem_of_find_compatible.
    split.
    + destruct (decide (h < j)%nat); [done|]. exfalso.
      apply (Hmin j); [lia|]. by apply compatible_at_sym.
    + destruct Hcj as (r' & rj' & ? & ? & ?).
      assert (r' = r) as -> by congruence. eauto.
Qed.
End grouping.

(** ** make_perimeters: what a group does *)

Lemma bind_Return_inv {S A B} (m : M S A) (f : A → M S B) s s' b :
  (m ≫= f) s = (s', Return b) →
  ∃ s1 a, m s = (s1, Return a) ∧ f a s1 = (s', Return b).
Proof.
  unfold mbind, M_MBind, M_bind.
  destruct (m s) as [s1 [a|e|]]; [eauto|done..].
Qed.

Lemma foreach_app {S A} (xs ys : list A) (body : A → M S unit) s s1 :
  foreach xs body s = (s1, Return tt) →
  foreach (xs ++ ys) body s = foreach ys body s1.
Proof.
  revert s. induction xs as [|x xs IH]; intros s; cbn.
  - by intros [= <-].
  - intros (s2 & [] & Hx & Hxs)%bind_Return_inv.
    erewrite bind_Return by exact Hx. by apply IH.
Qed.

Lemma foreach_app_inv {S A} (xs ys : list A) (body : A → M S unit) s s' :
  foreach (xs ++ ys) body s = (s', Return tt) →
  ∃ s1, foreach xs body s = (s1, Return tt) ∧
        foreach ys body s1 = (s', Return tt).
Proof.
  revert s. induction xs as [|x xs IH]; intros s; cbn.
  - eauto.
  - intros (s2 & [] & Hx & Hxs)%bind_Return_inv.
    destruct (IH _ Hxs) as (s1 & ? & ?). exists s1. split; [|done].
    by erewrite bind_Return by exact Hx.
Qed.

Section make_perimeters_groups.
Context `{Externals}.

(** C1, as the code has it: in a group of several regions, when the
    pooled call of the perimeter routine returns no fill surface the
    redistribution is skipped; the group only replaces the layer's
    [perimeter_expolygons], and every region keeps the fill surfaces and
    the perimeter surfaces it had. *)
Theorem make_perimeters_multi_empty_fill (this this1 : Layer)
    (region_id : nat) (rest : list nat) (ps : SurfaceCollection) :
  rest ≠ [] →
  make_pooled region_id (region_id :: rest) this = (this1, Return (ps, [])) →
  make_perimeters_group (region_id :: rest) this
    = (set_perimeter_expolygons (to_expolygons ps) this, Return tt) ∧
  regions (make_perimeters_group (region_id :: rest) this).1 = regions this.
Proof.
  intros Hrest Hpool.
  assert (this1 = this) as -> by (by eapply make_pooled_pure).
  assert (make_perimeters_group (region_id :: rest) this
          = (set_perimeter_expolygons (to_expolygons ps) this, Return tt))
    as E; [|by rewrite E].
  unfold make_perimeters_group.
  rewrite decide_False by (destruct rest; [done|cbn; lia]).
  unfold make_perimeters_multi.
  erewrite bind_Return by exact Hpool. cbv zeta. cbn [fst snd].
  erewrite bind_Return by apply copy_perimeter_expolygons_spec.
  by rewrite decide_False by (intros ?; done).
Qed.

Lemma region_ptr_inv (s s' : Layer) l r :
  region_ptr l s = (s', Return r) → s' = s ∧ regions s !! l = Some r.
Proof.
  unfold region_ptr. unfold_M. cbn.
  destruct (regions s !! l); [|done]. by intros [= <- <-].
Qed.

(** The in-place call that returns has written the answer of the
    perimeter routine to the region. *)
Lemma make_perimeters_in_place_inv region_id (s s' : Layer) :
  make_perimeters_in_place region_id s = (s', Return tt) →
  ∃ layerm out,
    regions s !! region_id = Some layerm ∧
    LayerRegion_make_perimeters layerm (LayerRegion.slices layerm) = Some out ∧
    s' = set_regions
           (alter (λ r, LayerRegion.set_fill_surfaces out.2
                          (LayerRegion.set_perimeter_surfaces out.1 r))
              region_id (regions s)) s.
Proof.
  unfold make_perimeters_in_place.
  intros (s1 & layerm & [-> Hl]%region_ptr_inv & Hrun)%bind_Return_inv.
  destruct (LayerRegion_make_perimeters layerm (LayerRegion.slices layerm))
    as [out|] eqn:Hout.
  - injection Hrun as <-. by exists layerm, out.
  - by apply bind_Return_inv in Hrun as (s2 & [] & _ & Hthrow).
Qed.

Global Instance same_perimeter_expolygons_refl :
  Reflexive same_perimeter_expolygons.
Proof. by intros s. Qed.
Global Instance same_perimeter_expolygons_trans :
  Transitive same_perimeter_expolygons.
Proof. unfold same_perimeter_expolygons. intros s1 s2 s3 ? ?. congruence. Qed.

Lemma split_back_perimeter_expolygons ps fs l :
  preserves same_perimeter_expolygons (split_back ps fs l).
Proof.
  unfold split_back.
  repeat (intros; first
    [ by apply preserves_modify
    | preserves_step ]).
Qed.

(** A group that returns leaves in [perimeter_expolygons] the contours
    of the perimeter surfaces generated for it. *)
Lemma make_perimeters_group_expolygons (g : list nat) (this this' : Layer) :
  g ≠ [] →
  make_perimeters_group g this = (this', Return tt) →
  ∃ ps fs, group_surfaces g this = (this, Return (ps, fs)) ∧
           perimeter_expolygons this' = to_expolygons ps.
Proof.
  destruct g as [|region_id rest]; [done|]. intros _.
  unfold make_perimeters_group, group_surfaces. case_decide as Hlen.
  - unfold make_perimeters_single.
    intros (s1 & [] & [= <-] & Hrun)%bind_Return_inv.
    apply bind_Return_inv in Hrun as (s2 & [] & [= <-] & Hrun).
    apply bind_Return_inv in Hrun
      as (s3 & [] & (layerm & out & Hl & Hout & ->)%make_perimeters_in_place_inv
          & Hrun).
    apply bind_Return_inv in Hrun as (s3' & layerm' & [-> Hl']%region_ptr_inv & Hrun).
    rewrite copy_perimeter_expolygons_spec in Hrun. injection Hrun as <-.
    cbn in Hl, Hl'.
    rewrite !list_lookup_alter_eq in Hl. rewrite !list_lookup_alter_eq in Hl'.
    destruct (regions this !! region_id) as [r|] eqn:Hr; [|done].
    cbn in Hl, Hl'. injection Hl as <-. injection Hl' as <-.
    exists out.1, out.2.
    erewrite bind_Return by (by apply region_ptr_spec).
    cbn in Hout. rewrite Hout. by destruct out.
  - unfold make_perimeters_multi.
    intros (s1 & out & Hpool & Hrun)%bind_Return_inv.
    assert (s1 = this) as -> by (by eapply make_pooled_pure).
    cbv zeta in Hrun.
    apply bind_Return_inv in Hrun as (s2 & [] & Hcopy & Hrun).
    rewrite copy_perimeter_expolygons_spec in Hcopy. injection Hcopy as <-.
    exists out.1, out.2. split; [by destruct out|].
    assert (same_perimeter_expolygons
              (set_perimeter_expolygons (to_expolygons out.1) this) this')
      as ->; [|done].
    revert Hrun. apply preserves_if; [|papply preserves_ret].
    papply preserves_foreach. intros l _.
    apply split_back_perimeter_expolygons.
Qed.

(** C2, as the code has it: every group clears the layer's
    [perimeter_expolygons] before it copies its own perimeter contours,
    so when [make_perimeters] returns on a layer whose groups are [gs]
    followed by [g], [perimeter_expolygons] holds the contours of the
    perimeter surfaces generated for the last group [g], and those
    alone. *)
Theorem make_perimeters_last_group (this this' : Layer)
    (gs : list (list nat)) (g : list nat) :
  perimeter_groups this = gs ++ [g] →
  make_perimeters this = (this', Return tt) →
  ∃ this1 ps fs,
    make_perimeters_groups gs this = (this1, Return tt) ∧
    group_surfaces g this1 = (this1, Return (ps, fs)) ∧
    make_perimeters_group g this1 = (this', Return tt) ∧
    perimeter_expolygons this' = to_expolygons ps.
Proof.
  intros Hgs Hrun. rewrite make_perimeters_as_groups, Hgs in Hrun.
  apply foreach_app_inv in Hrun as (this1 & Hfirst & Hlast).
  cbn in Hlast.
  apply bind_Return_inv in Hlast as (s' & [] & Hg & [= <-]).
  assert (g ≠ []) as Hne.
  { assert (g ∈ perimeter_groups this) as Hin.
    { rewrite Hgs. apply elem_of_app. right. apply list_elem_of_here. }
    destruct (groups_loop_heads _ _ 0 ∅ g eq_refl (done_before_0 _) Hin)
      as (h & r & _ & -> & _). done. }
  destruct (make_perimeters_group_expolygons g this1 _ Hne Hg)
    as (ps & fs & Hsurf & Hpe).
  exists this1, ps, fs. by split_and!.
Qed.

(** Groups that do not hold region [l] leave it as it was. *)
Lemma make_perimeters_groups_outside (gs : list (list nat)) l :
  ∀ this this1 o,
    make_perimeters_groups gs this = (this1, o) →
    (∀ g, g ∈ gs → l ∉ g) →
    regions this1 !! l = regions this !! l.
Proof.
  unfold make_perimeters_groups.
  induction gs as [|g gs IH]; intros this this1 o; cbn.
  - by intros [= <- _].
  - intros Hrun Hout. revert Hrun. unfold mbind, M_MBind, M_bind.
    destruct (make_perimeters_group g this) as [this0 o0] eqn:Hg.
    pose proof (make_perimeters_group_outside g _ _ _ Hg l
                  (Hout g (list_elem_of_here _ _))) as Hl.
    destruct o0 as [[]|e|].
    + intros Hrun. rewrite <- Hl. eapply IH; [exact Hrun|].
      intros g' Hg'. by apply Hout, list_elem_of_further.
    + by intros [= <- _].
    + by intros [= <- _].
Qed.

(** C5, as the code has it: a failure in a group reaches the caller of
    [make_perimeters] as it is, the later groups are not run and nothing
    is rolled back.  The regions of the failed group [g] have not been
    touched by the groups before it; when [g] has several regions and
    what fails is the pooling of its slices or the pooled call of the
    perimeter routine, [g] changes nothing, so that its regions still have
    the fill and perimeter surfaces they had before the call. *)
Theorem make_perimeters_failure (this this1 this2 : Layer)
    (gs gs' : list (list nat)) (g : list nat) (e : exception) :
  perimeter_groups this = gs ++ g :: gs' →
  make_perimeters_groups gs this = (this1, Return tt) →
  make_perimeters_group g this1 = (this2, Throw e) →
  make_perimeters this = (this2, Throw e) ∧
  (∀ l, l ∈ g → regions this1 !! l = regions this !! l) ∧
  (∀ region_id rest x e',
     g = region_id :: rest → rest ≠ [] →
     make_pooled region_id g this1 = (x, Throw e') →
     e' = e ∧ this2 = this1 ∧
     ∀ l, l ∈ g → regions this2 !! l = regions this !! l).
Proof.
  intros Hgs Hfirst Hg.
  assert (∀ l, l ∈ g → regions this1 !! l = regions this !! l) as Hkept.
  { intros l Hl. eapply make_perimeters_groups_outside; [exact Hfirst|].
    intros g' Hg' Hl'.
    by eapply (groups_loop_disjoint _ _ 0 ∅ gs g gs' g' l eq_refl
                 (done_before_0 _) Hgs). }
  split_and!.
  - rewrite make_perimeters_as_groups, Hgs.
    unfold make_perimeters_groups in *.
    rewrite (foreach_app _ _ _ _ _ Hfirst). cbn.
    by erewrite bind_Throw by exact Hg.
  - done.
  - intros region_id rest x e' -> Hrest Hpool.
    assert (x = this1) as -> by (by eapply make_pooled_pure).
    unfold make_perimeters_group in Hg.
    rewrite decide_False in Hg by (destruct rest; [done|cbn; lia]).
    unfold make_perimeters_multi in Hg.
    erewrite bind_Throw in Hg by exact Hpool.
    injection Hg as <- <-. by split_and!.
Qed.

Lemma set_regions_regions v (this : Layer) : regions (set_regions v this) = v.
Proof. done. Qed.

(** A loop whose body only transforms the state. *)
Lemma foreach_modify {S A} (xs : list A) (body : A → M S unit)
    (g : A → S → S) :
  (∀ x s, body x s = (g x s, Return tt)) →
  ∀ s, foreach xs body s = (foldl (λ s x, g x s) s xs, Return tt).
Proof.
  intros Hbody. induction xs as [|x xs IH]; intros s; [done|]. cbn.
  erewrite bind_Return by apply Hbody. apply IH.
Qed.

(** The two loops of the redistribution that push the pieces, each
    tagged with the clone of [f]. *)
Lemma foreach_push_fill l (f : Surface) (expp : ExPolygons) (this : Layer) :
  foreach expp (λ ex,
    s ← unchecked (Some f);
    modify_region l (λ r,
      LayerRegion.set_fill_surfaces
        (LayerRegion.fill_surfaces r ++ [with_expolygon s ex]) r)) this
  = (set_regions
       (alter (λ r, LayerRegion.set_fill_surfaces
                      (LayerRegion.fill_surfaces r
                         ++ (with_expolygon f <$> expp)) r)
          l (regions this)) this, Return tt).
Proof.
  rewrite (foreach_modify _ _ (λ ex this0,
    set_regions (alter (λ r, LayerRegion.set_fill_surfaces
      (LayerRegion.fill_surfaces r ++ [with_expolygon f ex]) r) l
      (regions this0)) this0)) by done.
  f_equal. revert this. induction expp as [|ex expp IH]; intros this; cbn.
  - rewrite list_alter_id; [by rewrite set_regions_id|].
    intros [? ? ? ?]. unfold LayerRegion.set_fill_surfaces. cbn.
    by rewrite app_nil_r.
  - rewrite IH, set_regions_regions, set_regions_set_regions.
    rewrite list_alter_alter_eq. f_equal.
    apply list_alter_ext; [|done]. intros [? ? ? ?] _.
    unfold LayerRegion.set_fill_surfaces. cbn.
    by rewrite <- (assoc_L (++)).
Qed.

Lemma foreach_push_perimeter l (f : Surface) (expp : ExPolygons)
    (this : Layer) :
  foreach expp (λ ex,
    s ← unchecked (Some f);
    modify_region l (λ r,
      LayerRegion.set_perimeter_surfaces
        (LayerRegion.perimeter_surfaces r ++ [with_expolygon s ex]) r)) this
  = (set_regions
       (alter (λ r, LayerRegion.set_perimeter_surfaces
                      (LayerRegion.perimeter_surfaces r
                         ++ (with_expolygon f <$> expp)) r)
          l (regions this)) this, Return tt).
Proof.
  rewrite (foreach_modify _ _ (λ ex this0,
    set_regions (alter (λ r, LayerRegion.set_perimeter_surfaces
      (LayerRegion.perimeter_surfaces r ++ [with_expolygon f ex]) r) l
      (regions this0)) this0)) by done.
  f_equal. revert this. induction expp as [|ex expp IH]; intros this; cbn.
  - rewrite list_alter_id; [by rewrite set_regions_id|].
    intros [? ? ? ?]. unfold LayerRegion.set_perimeter_surfaces. cbn.
    by rewrite app_nil_r.
  - rewrite IH, set_regions_regions, set_regions_set_regions.
    rewrite list_alter_alter_eq. f_equal.
    apply list_alter_ext; [|done]. intros [? ? ? ?] _.
    unfold LayerRegion.set_perimeter_surfaces. cbn.
    by rewrite <- (assoc_L (++)).
Qed.

(** The redistribution to one member, in closed form: its fill surfaces
    and its perimeter surfaces become the pieces of the two
    intersections, and the pieces of both carry the clone of the first
    pooled fill surface [f]. *)
Lemma split_back_spec (this : Layer) (ps fs : SurfaceCollection) (l : nat)
    (r : LayerRegion.t) (f : Surface) (fill_pieces perimeter_pieces : ExPolygons) :
  regions this !! l = Some r →
  head fs = Some f →
  intersection_ex fs (LayerRegion.slices r) = Some fill_pieces →
  intersection_ex ps (LayerRegion.slices r) = Some perimeter_pieces →
  split_back ps fs l this
  = (set_regions
       (<[l := {| LayerRegion.config := LayerRegion.config r;
                  LayerRegion.slices := LayerRegion.slices r;
                  LayerRegion.fill_surfaces :=
                    with_expolygon f <$> fill_pieces;
                  LayerRegion.perimeter_surfaces :=
                    with_expolygon f <$> perimeter_pieces |}]>
          (regions this)) this, Return tt).
Proof.
  intros Hr Hf Hfill Hper. unfold split_back.
  erewrite bind_Return by (by apply region_ptr_spec).
  rewrite Hfill. erewrite bind_Return by reflexivity.
  erewrite bind_Return by reflexivity.
  rewrite Hf.
  erewrite bind_Return by apply foreach_push_fill.
  erewrite bind_Return; last first.
  { apply region_ptr_spec. cbn. rewrite !list_lookup_alter_eq, Hr.
    reflexivity. }
  cbn [LayerRegion.slices LayerRegion.set_fill_surfaces].
  rewrite Hper. erewrite bind_Return by reflexivity.
  erewrite bind_Return by reflexivity.
  rewrite foreach_push_perimeter.
  rewrite !set_regions_regions, !set_regions_set_regions. do 2 f_equal.
  rewrite !list_alter_alter_eq.
  apply list_eq. intros i. destruct (decide (l = i)) as [<-|?].
  - rewrite list_lookup_alter_eq, Hr.
    rewrite list_lookup_insert_eq by (by eapply lookup_lt_Some).
    by destruct r.
  - by rewrite list_lookup_alter_ne, list_lookup_insert_ne.
Qed.
End make_perimeters_groups.

(** ** make_perimeters on the example layers *)

Lemma perimeter_groups_compatible_witness :
  same_group (@perimeter_groups (Example.externals Example.solid) Example.three)
    0 2 ∧
  ¬ same_group
      (@perimeter_groups (Example.externals Example.solid) Example.three) 0 1.
Proof.
  split.
  - apply (@perimeter_groups_compatible (Example.externals Example.solid)
             Example.three 0 2 (Example.region 1 0) (Example.region 1 40));
      [reflexivity..|]. by vm_compute.
  - intros Hsame.
    apply (@perimeter_groups_compatible (Example.externals Example.solid)
             Example.three 0 1 (Example.region 1 0) (Example.region 2 20))
      in Hsame; [|reflexivity..].
    by destruct Hsame as (_ & Hperimeters & _).
Defined.

Lemma make_perimeters_multi_empty_fill_witness :
  @make_perimeters_group (Example.externals Example.solid) [0; 1]%nat
    Example.pair
  = (set_perimeter_expolygons
       [Example.square 0 0 10; Example.square 20 0 10] Example.pair,
     Return tt).
Proof.
  apply (@make_perimeters_multi_empty_fill (Example.externals Example.solid)
           Example.pair Example.pair 0%nat [1%nat]
           [Example.surface stTop 0 (Example.square 0 0 10);
            Example.surface stTop 0 (Example.square 20 0 10)]).
  - discriminate.
  - by vm_compute.
Defined.

(** C1 as stated fails: the two regions of [Example.pair] form one
    group, the pooled call returns no fill surface, and after
    [make_perimeters] both regions still hold the fill surfaces of the
    earlier pass, not the empty set. *)
Lemma make_perimeters_keeps_stale_fill :
  @perimeter_groups (Example.externals Example.solid) Example.pair
    = [[0; 1]%nat] ∧
  (@make_pooled (Example.externals Example.solid) 0 [0; 1]%nat Example.pair).2
    = Return ([Example.surface stTop 0 (Example.square 0 0 10);
               Example.surface stTop 0 (Example.square 20 0 10)], []) ∧
  (@make_perimeters (Example.externals Example.solid) Example.pair).2
    = Return tt ∧
  LayerRegion.fill_surfaces
    <$> regions (@make_perimeters (Example.externals Example.solid)
                   Example.pair).1
  = [[Example.surface stInternal 0 (Example.square 0 1 8)];
     [Example.surface stInternal 0 (Example.square 20 1 8)]].
Proof. by vm_compute. Qed.

Lemma make_perimeters_last_group_witness :
  ∃ this1 ps fs,
    @make_perimeters_groups (Example.externals Example.solid) [[0%nat]]
      Example.mixed = (this1, Return tt) ∧
    @group_surfaces (Example.externals Example.solid) [1%nat] this1
      = (this1, Return (ps, fs)) ∧
    @make_perimeters_group (Example.externals Example.solid) [1%nat] this1
      = ((@make_perimeters (Example.externals Example.solid) Example.mixed).1,
         Return tt) ∧
    perimeter_expolygons
      (@make_perimeters (Example.externals Example.solid) Example.mixed).1
    = to_expolygons ps.
Proof.
  apply (@make_perimeters_last_group (Example.externals Example.solid)
           Example.mixed _ [[0%nat]] [1%nat]).
  - by vm_compute.
  - by vm_compute.
Defined.

(** C2 as stated fails: the two regions of [Example.mixed] form two
    groups; the perimeter surface generated for the first group is the
    square at the origin, and after [make_perimeters] the layer's
    [perimeter_expolygons] holds the square of the second group alone. *)
Lemma make_perimeters_drops_earlier_groups :
  @perimeter_groups (Example.externals Example.solid) Example.mixed
    = [[0%nat]; [1%nat]] ∧
  (@group_surfaces (Example.externals Example.solid) [0%nat] Example.mixed).2
    = Return ([Example.surface stTop 0 (Example.square 0 0 10)], []) ∧
  (@make_perimeters (Example.externals Example.solid) Example.mixed).2
    = Return tt ∧
  perimeter_expolygons
    (@make_perimeters (Example.externals Example.solid) Example.mixed).1
  = [Example.square 20 0 10] ∧
  Example.square 0 0 10
    ∉ perimeter_expolygons
        (@make_perimeters (Example.externals Example.solid) Example.mixed).1.
Proof.
  split_and!; [by vm_compute..|].
  replace (perimeter_expolygons _) with [Example.square 20 0 10]
    by (by vm_compute).
  by intros [=]%list_elem_of_singleton.
Qed.

(** C3, at a failing input: on [Example.pair] the pooled call returns
    perimeter surfaces tagged [stTop] and fill surfaces tagged
    [stInternal]; the perimeter surfaces handed back to each region carry
    [stInternal], the tag of the first pooled fill surface, not the tag of
    the pooled perimeter surfaces. *)
Theorem split_back_tags_perimeters_from_fill :
  (@make_pooled (Example.externals Example.shell) 0 [0; 1]%nat Example.pair).2
    = Return ([Example.surface stTop 0 (Example.square 0 0 10);
               Example.surface stTop 0 (Example.square 20 0 10)],
              [Example.surface stInternal 0 (Example.square 0 0 10);
               Example.surface stInternal 0 (Example.square 20 0 10)]) ∧
  (@make_perimeters (Example.externals Example.shell) Example.pair).2
    = Return tt ∧
  LayerRegion.perimeter_surfaces
    <$> regions (@make_perimeters (Example.externals Example.shell)
                   Example.pair).1
  = [[Example.surface stInternal 0 (Example.square 0 0 10)];
     [Example.surface stInternal 0 (Example.square 20 0 10)]].
Proof. by vm_compute. Qed.

Lemma make_perimeters_failure_witness :
  @make_perimeters (Example.externals Example.solid) Example.broken
    = (Example.broken, Throw DegenerateGeometry) ∧
  (∀ l, l ∈ [0; 1]%nat →
     regions Example.broken !! l = regions Example.broken !! l) ∧
  (∀ region_id rest x e',
     [0; 1]%nat = region_id :: rest → rest ≠ [] →
     @make_pooled (Example.externals Example.solid) region_id [0; 1]%nat
       Example.broken = (x, Throw e') →
     e' = DegenerateGeometry ∧ Example.broken = Example.broken ∧
     ∀ l, l ∈ [0; 1]%nat →
       regions Example.broken !! l = regions Example.broken !! l).
Proof.
  apply (@make_perimeters_failure (Example.externals Example.solid)
           Example.broken Example.broken Example.broken [] []
           [0; 1]%nat DegenerateGeometry).
  - by vm_compute.
  - reflexivity.
  - by vm_compute.
Defined.

(** C5 as stated fails: on [Example.pair] the intersection of the
    pooled perimeter surfaces with the slices of the first region fails
    on the sliver; the failure reaches the caller, and the first region
    of the failed group is left with its fill surfaces overwritten and
    its perimeter surfaces as before. *)
Lemma make_perimeters_failure_leaves_partial_state :
  @perimeter_groups (Example.externals Example.sliver) Example.pair
    = [[0; 1]%nat] ∧
  (@make_perimeters (Example.externals Example.sliver) Example.pair).2
    = Throw DegenerateGeometry ∧
  LayerRegion.fill_surfaces
    <$> regions (@make_perimeters (Example.externals Example.sliver)
                   Example.pair).1 !! 0%nat
  = Some [Example.surface stTop 0 (Example.square 0 0 10)] ∧
  LayerRegion.fill_surfaces <$> regions Example.pair !! 0%nat
  = Some [Example.surface stInternal 0 (Example.square 0 1 8)] ∧
  LayerRegion.perimeter_surfaces
    <$> regions (@make_perimeters (Example.externals Example.sliver)
                   Example.pair).1 !! 0%nat
  = LayerRegion.perimeter_surfaces <$> regions Example.pair !! 0%nat.
Proof. by vm_compute. Qed.

(** * Further properties of Layer.cpp *)

(** ** Region management *)

Lemma get_region_lookup (this : Layer) (i : nat) :
  Z.of_nat (region_count this) ≤ 2 ^ 63 →
  (i < region_count this)%nat →
  get_region (Z.of_nat i) this
  = match regions this !! i with
    | Some r => Return r
    | None => Throw OutOfRange
    end.
Proof.
  intros Hsize Hi. unfold get_region, vector_at, region_count in *.
  rewrite (size_t_of_int_in_range _ (Z.of_nat (length (regions this)))) by lia.
  by rewrite Nat2Z.id.
Qed.

(** X1: [clear_regions] deletes back to front, so that [delete_region]
    is only ever called inside the range: on every layer it returns,
    having removed regions from the front only and changed nothing else.
    Its counter is an [int]: on a layer with at most 2^31 regions it
    starts at the last region, no region is left, and afterwards
    [get_region] fails with [OutOfRange] for every [int] index. *)
Theorem clear_regions_empties (this : Layer) (idx : Z) :
  (∃ k, (k ≤ region_count this)%nat ∧
     clear_regions this
     = (set_regions (drop k (regions this)) this, Return tt)) ∧
  (Z.of_nat (region_count this) ≤ 2 ^ 31 →
   - 2 ^ 31 ≤ idx < 2 ^ 31 →
   clear_regions this = (set_regions [] this, Return tt) ∧
   region_count (clear_regions this).1 = 0%nat ∧
   get_region idx (clear_regions this).1 = Throw OutOfRange).
Proof.
  split.
  - destruct (clear_regions_run this) as (k & Hk & _ & Hrun). by exists k.
  - intros Hn Hint. rewrite (clear_regions_spec this Hn).
    split_and!; [done..|].
    unfold get_region, vector_at. cbn. by rewrite lookup_nil.
Qed.

Lemma clear_regions_empties_witness :
  clear_regions Example.pair = (set_regions [] Example.pair, Return tt) ∧
  region_count (clear_regions Example.pair).1 = 0%nat ∧
  get_region 0 (clear_regions Example.pair).1 = Throw OutOfRange.
Proof.
  apply (proj2 (clear_regions_empties Example.pair 0)); [by vm_compute|lia].
Defined.

(** X2: [add_region] appends: the handle it returns is the old region
    count, [get_region] at that handle returns the new region, bound to
    the given configuration and with empty collections, and [get_region]
    at every earlier index returns what it returned before. *)
Theorem add_region_get_region (this : Layer) (cfg : PrintRegionConfig) :
  Z.of_nat (region_count this) < 2 ^ 31 →
  (add_region cfg this).2 = Return (region_count this) ∧
  region_count (add_region cfg this).1 = S (region_count this) ∧
  get_region (Z.of_nat (region_count this)) (add_region cfg this).1
    = Return (LayerRegion.mk cfg [] [] []) ∧
  ∀ i, (i < region_count this)%nat →
    get_region (Z.of_nat i) (add_region cfg this).1
    = get_region (Z.of_nat i) this.
Proof.
  intros Hsize. unfold region_count in *.
  assert (length (regions (add_region cfg this).1) = S (length (regions this)))
    as Hlen.
  { cbn. rewrite length_app. cbn. lia. }
  split_and!; [done|done| |].
  - rewrite get_region_lookup by (unfold region_count; lia).
    cbn. by rewrite list_lookup_middle.
  - intros i Hi.
    rewrite !get_region_lookup by (unfold region_count; lia).
    cbn. by rewrite lookup_app_l.
Qed.

Lemma add_region_get_region_witness :
  get_region 2 (add_region (Example.config 3) Example.pair).1
    = Return (LayerRegion.mk (Example.config 3) [] [] []) ∧
  get_region 1 (add_region (Example.config 3) Example.pair).1
    = get_region 1 Example.pair.
Proof.
  destruct (add_region_get_region Example.pair (Example.config 3))
    as (_ & _ & Hnew & Hold); [by vm_compute|].
  split; [exact Hnew|]. apply (Hold 1%nat). cbn. lia.
Defined.

Lemma delete_snoc {A} (l : list A) (x : A) : delete (length l) (l ++ [x]) = l.
Proof. induction l as [|a l IH]; [done|]. cbn. f_equal. exact IH. Qed.

(** X3: deleting the region that [add_region] has just appended, at
    the handle [add_region] returned (an [int] when the layer had fewer
    than 2^31 regions), gives the layer back as it was. *)
Theorem add_region_delete_region (this : Layer) (cfg : PrintRegionConfig) :
  Z.of_nat (region_count this) < 2 ^ 31 →
  delete_region (Z.of_nat (region_count this)) (add_region cfg this).1
  = (this, Return tt).
Proof.
  intros _. unfold delete_region, region_count. cbn. rewrite length_app. cbn.
  rewrite decide_True by lia. rewrite Nat2Z.id.
  rewrite delete_snoc. by destruct this.
Qed.

Lemma add_region_delete_region_witness :
  delete_region (Z.of_nat (region_count Example.pair))
    (add_region (Example.config 2) Example.pair).1
  = (Example.pair, Return tt).
Proof.
  apply (add_region_delete_region Example.pair (Example.config 2)).
  by vm_compute.
Defined.

(** X4: [delete_region] inside the range removes one region and
    closes the gap: the regions before the index keep their index, the
    regions after it move down by one, and nothing else in the layer
    changes. *)
Theorem delete_region_shifts (this : Layer) (idx : nat) :
  Z.of_nat (region_count this) ≤ 2 ^ 31 →
  (idx < region_count this)%nat →
  delete_region (Z.of_nat idx) this
    = (set_regions (delete idx (regions this)) this, Return tt) ∧
  S (region_count (delete_region (Z.of_nat idx) this).1) = region_count this ∧
  (∀ j, (j < idx)%nat →
     get_region (Z.of_nat j) (delete_region (Z.of_nat idx) this).1
     = get_region (Z.of_nat j) this) ∧
  (∀ j, (idx ≤ j)%nat → (S j < region_count this)%nat →
     get_region (Z.of_nat j) (delete_region (Z.of_nat idx) this).1
     = get_region (Z.of_nat (S j)) this).
Proof.
  intros Hsize Hidx. unfold region_count in *.
  assert (delete_region (Z.of_nat idx) this
          = (set_regions (delete idx (regions this)) this, Return tt)) as E.
  { unfold delete_region. rewrite decide_True by lia. by rewrite Nat2Z.id. }
  rewrite E. cbn [fst].
  assert (S (length (delete idx (regions this))) = length (regions this))
    as Hlen.
  { rewrite length_delete; [lia|]. by apply lookup_lt_is_Some_2. }
  split_and!; [done|done| |].
  - intros j Hj.
    rewrite !get_region_lookup by (unfold region_count; cbn; lia).
    cbn. by rewrite list_lookup_delete_lt.
  - intros j Hj HSj.
    rewrite !get_region_lookup by (unfold region_count; cbn; lia).
    cbn. by rewrite list_lookup_delete_ge.
Qed.

Lemma delete_region_shifts_witness :
  get_region 0 (delete_region 1 Example.three).1 = get_region 0 Example.three ∧
  get_region 1 (delete_region 1 Example.three).1 = get_region 2 Example.three.
Proof.
  destruct (delete_region_shifts Example.three 1) as (_ & _ & Hlt & Hge);
    [by vm_compute|cbn; lia|].
  split; [apply (Hlt 0%nat); lia|apply (Hge 1%nat); cbn; lia].
Defined.

(** ** make_slices beyond a single region *)

Global Instance same_but_slices_refl : Reflexive same_but_slices.
Proof. by intros []. Qed.
Global Instance same_but_slices_trans : Transitive same_but_slices.
Proof.
  unfold same_but_slices. intros s1 s2 s3 E12 E23.
  rewrite E23, E12. by destruct s1.
Qed.

Section make_slices_more.
Context `{Externals}.

Lemma make_slices_same_but_slices : preserves same_but_slices make_slices.
Proof.
  unfold make_slices, store_chained.
  repeat (intros; first
    [ by apply preserves_modify
    | preserves_step ]).
Qed.

(** X5: [make_slices] writes the islands and nothing else: whatever its
    outcome, the regions, the neighbour links, [slicing_errors] and
    [perimeter_expolygons] are those it started from.  With a number of
    regions other than one, a failure of the union is thrown before the
    islands are cleared, so the layer is left exactly as it was. *)
Theorem make_slices_touches_islands_only (this : Layer) :
  (make_slices this).1 = set_slices (slices (make_slices this).1) this ∧
  (length (regions this) ≠ 1%nat → union_of_regions this = None →
   make_slices this = (this, Throw DegenerateGeometry)).
Proof.
  split.
  - destruct (make_slices this) as [this' o] eqn:E.
    exact (make_slices_same_but_slices _ _ _ E).
  - intros Hn Hu. unfold make_slices.
    erewrite bind_Return by reflexivity.
    rewrite decide_False by done. rewrite Hu.
    by erewrite bind_Throw by reflexivity.
Qed.

(** X6: with a number of regions other than one, when the union of the
    polygons of all regions returns islands none of which has an empty
    contour, [make_slices] returns and the layer's islands are those the
    union returned, each once, in chaining order: they are the islands
    of the union picked along [Geometry.chained_path] of the first points
    of their contours, the greedy nearest-neighbour chain that leaves
    from the first of these points. *)
Theorem make_slices_union (this : Layer) (u : ExPolygons) :
  length (regions this) ≠ 1%nat →
  union_of_regions this = Some u →
  Forall (λ ex, points (contour ex) ≠ []) u →
  ∃ pts s,
    mapM (λ ex, first_point (contour ex)) u = Some pts ∧
    mapM (λ it, u !! it) (Geometry.chained_path pts) = Some s ∧
    make_slices this = (set_slices s this, Return tt) ∧
    s ≡ₚ u ∧
    match pts with
    | [] => s = []
    | p0 :: _ => Geometry.greedy_chain pts p0 (Geometry.chained_path pts)
    end.
Proof.
  intros Hn Hu Hne.
  destruct (store_chained_chain u Hne) as (pts & s & Hpts & Hpick & Hs & Hrun).
  exists pts, s. split_and!; [done|done| |done|].
  - apply make_slices_Return. exists u. split; [|apply Hrun].
    unfold merged_slices. by rewrite decide_False.
  - destruct pts as [|p0 pts'].
    + cbn in Hpick. by injection Hpick as <-.
    + apply chained_path_greedy.
Qed.
End make_slices_more.

Lemma make_slices_touches_islands_only_witness :
  @make_slices (Example.externals Example.solid) Example.broken
  = (Example.broken, Throw DegenerateGeometry).
Proof.
  apply (@make_slices_touches_islands_only (Example.externals Example.solid)
           Example.broken); [by vm_compute|reflexivity].
Defined.

Lemma make_slices_union_witness :
  ∃ pts s,
    mapM (λ ex, first_point (contour ex))
      [Example.square 0 0 10; Example.square 20 0 10] = Some pts ∧
    mapM (λ it, [Example.square 0 0 10; Example.square 20 0 10] !! it)
      (Geometry.chained_path pts) = Some s ∧
    @make_slices (Example.externals Example.solid) Example.pair
      = (set_slices s Example.pair, Return tt) ∧
    s ≡ₚ [Example.square 0 0 10; Example.square 20 0 10] ∧
    match pts with
    | [] => s = []
    | p0 :: _ => Geometry.greedy_chain pts p0 (Geometry.chained_path pts)
    end.
Proof.
  apply (@make_slices_union (Example.externals Example.solid) Example.pair).
  - by vm_compute.
  - reflexivity.
  - repeat constructor; discriminate.
Defined.

(** ** make_perimeters: frame and partition *)

Section make_perimeters_more.
Context `{Externals}.

Lemma make_perimeters_same_input : preserves same_input make_perimeters.
Proof.
  intros s s' o. rewrite make_perimeters_as_groups.
  apply preserves_foreach; [apply _..|]. intros g _.
  apply make_perimeters_group_input.
Qed.

(** X7: whatever its outcome, [make_perimeters] reads the regions'
    configurations and raw slices and never writes them: the number of
    regions, every region's configuration and raw slices, the layer's
    islands, its neighbour links and [slicing_errors] are afterwards what
    they were before. *)
Theorem make_perimeters_keeps_input (this : Layer) :
  region_count (make_perimeters this).1 = region_count this ∧
  LayerRegion.config <$> regions (make_perimeters this).1
    = LayerRegion.config <$> regions this ∧
  LayerRegion.slices <$> regions (make_perimeters this).1
    = LayerRegion.slices <$> regions this ∧
  slices (make_perimeters this).1 = slices this ∧
  upper_layer (make_perimeters this).1 = upper_layer this ∧
  lower_layer (make_perimeters this).1 = lower_layer this ∧
  slicing_errors (make_perimeters this).1 = slicing_errors this.
Proof.
  destruct (make_perimeters this) as [this' o] eqn:E.
  pose proof (make_perimeters_same_input _ _ _ E) as Hin.
  pose proof (same_input_length _ _ Hin) as Hlen.
  pose proof (same_input_configs _ _ Hin) as Hcfg.
  destruct Hin as (Hrs & ? & ? & ? & ?).
  split_and!; try done.
  apply (f_equal (fmap snd)) in Hrs. by rewrite <- !list_fmap_compose in Hrs.
Qed.

Lemma elem_of_concat {A} (x : A) (ls : list (list A)) :
  x ∈ concat ls ↔ ∃ l, x ∈ l ∧ l ∈ ls.
Proof.
  induction ls as [|l ls IH]; cbn.
  - split; [by intros ?%elem_of_nil|]. by intros (? & _ & ?%elem_of_nil).
  - rewrite elem_of_app, IH. split.
    + intros [Hx|(l' & ? & ?)].
      * exists l. split; [done|apply list_elem_of_here].
      * exists l'. split; [done|by apply list_elem_of_further].
    + intros (l' & Hx & [->|Hl']%elem_of_cons); [by left|right; eauto].
Qed.

Lemma NoDup_compatible_from config rest : ∀ k,
  NoDup (compatible_from config k rest).
Proof.
  induction rest as [|r rest IH]; intros k; cbn; [constructor|].
  destruct (compatible config (LayerRegion.config r)); [|apply IH].
  constructor; [|apply IH].
  intros (r' & Hle & _)%elem_of_compatible_from. lia.
Qed.

Lemma NoDup_group rs h config : NoDup (h :: find_compatible rs h config).
Proof.
  constructor; [|apply NoDup_compatible_from].
  intros (Hlt & _)%elem_of_find_compatible. lia.
Qed.

Lemma groups_loop_NoDup rs m : ∀ k seen,
  (k + m)%nat = length rs → done_before rs k seen →
  NoDup (concat (groups_loop rs (seq k m) seen)).
Proof.
  induction m as [|m IH]; intros k seen Hlen Hd; cbn; [constructor|].
  case_decide as Hk.
  - apply IH; [lia|by apply done_before_skip].
  - destruct (rs !! k) as [r|] eqn:Hr; [|constructor].
    pose proof (done_before_group _ _ _ _ Hd Hk Hr) as Hd'.
    cbn [concat]. apply NoDup_app. split_and!.
    + apply NoDup_group.
    + intros j Hj (g & Hjg & Hg)%elem_of_concat.
      eapply (groups_loop_fresh rs m (S k) _ g j); [lia|exact Hd'|done..|].
      apply elem_of_cons in Hj as [->|Hj].
      * apply elem_of_union_r, elem_of_union_l. by apply elem_of_singleton.
      * apply elem_of_union_l. by apply elem_of_list_to_set.
    + apply IH; [lia|done].
Qed.

(** X8: the groups of [make_perimeters] partition the regions: listed
    one group after the other they give every region index of the layer
    exactly once, so that every region is handled by one group and one
    only. *)
Theorem perimeter_groups_partition (this : Layer) :
  concat (perimeter_groups this) ≡ₚ seq 0 (region_count this).
Proof.
  unfold perimeter_groups, region_count.
  set (rs := regions this).
  apply NoDup_Permutation.
  - apply groups_loop_NoDup; [done|apply done_before_0].
  - apply NoDup_seq.
  - intros j. rewrite elem_of_seq. split.
    + intros (g & Hjg & Hg)%elem_of_concat.
      destruct (groups_loop_heads rs (length rs) 0 ∅ g eq_refl
                  (done_before_0 rs) Hg) as (h & r & Hr & -> & _).
      split; [lia|]. cbn.
      apply elem_of_cons in Hjg as [->|Hjg]; [by eapply lookup_lt_Some|].
      apply elem_of_find_compatible in Hjg as (_ & rj & Hrj & _).
      by eapply lookup_lt_Some.
    + intros [_ Hj].
      destruct (groups_loop_cover rs (length rs) 0 ∅ j eq_refl)
        as [Hin|(g & Hg & Hjg)]; [lia|by apply not_elem_of_empty in Hin|].
      apply elem_of_concat. eauto.
Qed.

Lemma alter_as_list_insert {A} (f : A → A) (l : list A) i x :
  l !! i = Some x → alter f i l = <[i := f x]> l.
Proof.
  intros Hx. apply list_eq. intros j. destruct (decide (i = j)) as [<-|?].
  - rewrite list_lookup_alter_eq, Hx.
    by rewrite list_lookup_insert_eq by (by eapply lookup_lt_Some).
  - by rewrite list_lookup_alter_ne, list_lookup_insert_ne.
Qed.

Lemma modify_region_run l f (this : Layer) :
  modify_region l f this
  = (set_regions (alter f l (regions this)) this, Return tt).
Proof. done. Qed.

(** The single-region branch up to the call of the perimeter routine:
    the region is cleared. *)
Lemma clear_region_surfaces (this : Layer) region_id r :
  regions this !! region_id = Some r →
  alter (LayerRegion.set_perimeter_surfaces []) region_id
    (alter (LayerRegion.set_fill_surfaces []) region_id (regions this))
  = <[region_id := LayerRegion.mk (LayerRegion.config r)
                     (LayerRegion.slices r) [] []]> (regions this).
Proof.
  intros Hr. rewrite list_alter_alter_eq.
  by rewrite (alter_as_list_insert _ _ _ r).
Qed.

(** The in-place call on the region [layerm]. *)
Lemma make_perimeters_in_place_run (this : Layer) region_id layerm :
  regions this !! region_id = Some layerm →
  make_perimeters_in_place region_id this
  = match LayerRegion_make_perimeters layerm (LayerRegion.slices layerm) with
    | Some out =>
        (set_regions
           (<[region_id := LayerRegion.mk (LayerRegion.config layerm)
                             (LayerRegion.slices layerm) out.2 out.1]>
              (regions this)) this,
         Return tt)
    | None =>
        let out :=
          LayerRegion_make_perimeters_failed layerm
            (LayerRegion.slices layerm) in
        (set_regions
           (<[region_id := LayerRegion.mk (LayerRegion.config layerm)
                             (LayerRegion.slices layerm) out.2 out.1]>
              (regions this)) this,
         Throw DegenerateGeometry)
    end.
Proof.
  intros Hl. unfold make_perimeters_in_place.
  erewrite bind_Return by (by apply region_ptr_spec).
  destruct (LayerRegion_make_perimeters layerm (LayerRegion.slices layerm))
    as [out|].
  - rewrite modify_region_run.
    by rewrite (alter_as_list_insert _ _ _ layerm).
  - cbv zeta. erewrite bind_Return by apply modify_region_run.
    by rewrite (alter_as_list_insert _ _ _ layerm).
Qed.

(** X9: a group of one region gives the region exactly what the
    perimeter routine returns for its raw slices: the fill and perimeter
    surfaces of an earlier pass are cleared before the call and are not
    seen by it, the region's configuration and raw slices stay, and the
    layer's [perimeter_expolygons] become the contours of the new
    perimeter surfaces. *)
Theorem make_perimeters_single_region_group (this : Layer) (region_id : nat)
    (r : LayerRegion.t) (ps fs : SurfaceCollection) :
  regions this !! region_id = Some r →
  LayerRegion_make_perimeters
    (LayerRegion.mk (LayerRegion.config r) (LayerRegion.slices r) [] [])
    (LayerRegion.slices r) = Some (ps, fs) →
  make_perimeters_group [region_id] this
  = (set_perimeter_expolygons (to_expolygons ps)
       (set_regions
          (<[region_id := LayerRegion.mk (LayerRegion.config r)
                            (LayerRegion.slices r) fs ps]> (regions this))
          this),
     Return tt).
Proof.
  intros Hr Hgen. unfold make_perimeters_group.
  rewrite decide_True by done. unfold make_perimeters_single.
  pose proof (lookup_lt_Some _ _ _ Hr) as Hlt.
  erewrite bind_Return by apply modify_region_run.
  erewrite bind_Return by apply modify_region_run.
  rewrite set_regions_regions, set_regions_set_regions.
  rewrite (clear_region_surfaces this region_id r Hr).
  erewrite bind_Return; last first.
  { erewrite make_perimeters_in_place_run
      by (rewrite set_regions_regions; by apply list_lookup_insert_eq).
    cbn [LayerRegion.slices LayerRegion.config]. rewrite Hgen. reflexivity. }
  rewrite set_regions_regions, set_regions_set_regions.
  rewrite list_insert_insert_eq. cbn [fst snd].
  erewrite bind_Return; last first.
  { apply region_ptr_spec. rewrite set_regions_regions.
    by apply list_lookup_insert_eq. }
  by rewrite copy_perimeter_expolygons_spec.
Qed.

(** X10: when the perimeter routine fails on a group of one region, the
    failure is thrown with the region holding what the routine had
    written to its two collections by then, since it is given the
    region's own collections, cleared: the fill and perimeter surfaces of
    an earlier pass are lost, the region's configuration and raw slices
    stay, and [perimeter_expolygons] is not touched. *)
Theorem make_perimeters_single_region_failure (this : Layer) (region_id : nat)
    (r : LayerRegion.t) (ps fs : SurfaceCollection) :
  regions this !! region_id = Some r →
  LayerRegion_make_perimeters
    (LayerRegion.mk (LayerRegion.config r) (LayerRegion.slices r) [] [])
    (LayerRegion.slices r) = None →
  LayerRegion_make_perimeters_failed
    (LayerRegion.mk (LayerRegion.config r) (LayerRegion.slices r) [] [])
    (LayerRegion.slices r) = (ps, fs) →
  make_perimeters_group [region_id] this
  = (set_regions
       (<[region_id := LayerRegion.mk (LayerRegion.config r)
                         (LayerRegion.slices r) fs ps]> (regions this))
       this,
     Throw DegenerateGeometry).
Proof.
  intros Hr Hgen Hfailed. unfold make_perimeters_group.
  rewrite decide_True by done. unfold make_perimeters_single.
  pose proof (lookup_lt_Some _ _ _ Hr) as Hlt.
  erewrite bind_Return by apply modify_region_run.
  erewrite bind_Return by apply modify_region_run.
  rewrite set_regions_regions, set_regions_set_regions.
  rewrite (clear_region_surfaces this region_id r Hr).
  erewrite bind_Throw; last first.
  { erewrite make_perimeters_in_place_run
      by (rewrite set_regions_regions; by apply list_lookup_insert_eq).
    cbn [LayerRegion.slices LayerRegion.config].
    rewrite Hgen, Hfailed. reflexivity. }
  rewrite set_regions_regions, set_regions_set_regions.
  by rewrite list_insert_insert_eq.
Qed.
End make_perimeters_more.

Lemma make_perimeters_single_region_group_witness :
  @make_perimeters_group (Example.externals Example.shell) [1%nat]
    Example.mixed
  = (set_perimeter_expolygons [Example.square 20 0 10]
       (set_regions
          [Example.region 1 0;
           LayerRegion.mk (Example.config 2)
             [Example.surface stTop 0 (Example.square 20 0 10)]
             [Example.surface stInternal 0 (Example.square 20 0 10)]
             [Example.surface stTop 0 (Example.square 20 0 10)]]
          Example.mixed),
     Return tt).
Proof.
  apply (@make_perimeters_single_region_group
           (Example.externals Example.shell) Example.mixed 1
           (Example.region 2 20)
           [Example.surface stTop 0 (Example.square 20 0 10)]
           [Example.surface stInternal 0 (Example.square 20 0 10)]);
    reflexivity.
Defined.

Lemma make_perimeters_single_region_failure_witness :
  @make_perimeters_group Example.interrupted [1%nat] Example.mixed
  = (set_regions
       [Example.region 1 0;
        LayerRegion.mk (Example.config 2)
          [Example.surface stTop 0 (Example.square 20 0 10)] []
          [Example.surface stTop 0 (Example.square 20 0 10)]]
       Example.mixed,
     Throw DegenerateGeometry).
Proof.
  apply (@make_perimeters_single_region_failure
           Example.interrupted Example.mixed 1 (Example.region 2 20)
           [Example.surface stTop 0 (Example.square 20 0 10)] []);
    reflexivity.
Defined.

(** ** make_perimeters: the pooling of the slices *)

Lemma bucket_push_keys k s m :
  StronglySorted Z.lt (m.*1) →
  StronglySorted Z.lt ((bucket_push k s m).*1) ∧
  ∀ k', k' ∈ (bucket_push k s m).*1 ↔ k' = k ∨ k' ∈ m.*1.
Proof.
  induction m as [|[k0 ss0] m IH]; intros Hs; cbn.
  - split; [repeat constructor|]. intros k'.
    rewrite list_elem_of_singleton. split; [by left|].
    by intros [->|?%elem_of_nil].
  - cbn in Hs. apply StronglySorted_cons in Hs as [Hk0 Hm].
    rewrite Forall_forall in Hk0.
    case_decide as Heq; [|case_decide as Hlt]; cbn.
    + subst k0. split.
      * apply StronglySorted_cons. by rewrite Forall_forall.
      * intros k'. rewrite elem_of_cons. tauto.
    + split.
      * apply StronglySorted_cons. split.
        -- apply Forall_forall. intros k' [->|Hk']%elem_of_cons; [done|].
           specialize (Hk0 k' Hk'). lia.
        -- apply StronglySorted_cons. by rewrite Forall_forall.
      * intros k'. rewrite !elem_of_cons. tauto.
    + destruct (IH Hm) as [IHs IHk]. split.
      * apply StronglySorted_cons. split; [|done].
        apply Forall_forall. intros k' [->|Hk']%IHk; [lia|by apply Hk0].
      * intros k'. rewrite !elem_of_cons, IHk. tauto.
Qed.

Lemma bucket_push_entries k s m : ∀ k' ss',
  StronglySorted Z.lt (m.*1) →
  (k', ss') ∈ bucket_push k s m ↔
    (k' = k ∧ ((∃ ss, (k, ss) ∈ m ∧ ss' = ss ++ [s]) ∨
               ((∀ ss, (k, ss) ∉ m) ∧ ss' = [s]))) ∨
    (k' ≠ k ∧ (k', ss') ∈ m).
Proof.
  induction m as [|[k0 ss0] m IH]; intros k' ss' Hs.
  - cbn. rewrite list_elem_of_singleton. split.
    + intros [= -> ->]. left. split; [done|]. right.
      split; [|done]. intros ss. apply not_elem_of_nil.
    + intros [(-> & [(ss & Hin & _)|(_ & ->)])|(_ & Hin)]; [|done|].
      * by apply elem_of_nil in Hin.
      * by apply elem_of_nil in Hin.
  - cbn in Hs. apply StronglySorted_cons in Hs as [Hk0 Hm].
    rewrite Forall_forall in Hk0.
    assert (∀ j ss, (j, ss) ∈ m → k0 < j) as Hlater.
    { intros j ss Hin. apply (list_elem_of_fmap_2 fst) in Hin.
      by apply Hk0 in Hin. }
    cbn [bucket_push].
    case_decide as Heq; [|case_decide as Hlt].
    + subst k0. split.
      * intros [Hhd|Hin]%elem_of_cons.
        -- injection Hhd as -> ->. left. split; [done|]. left.
           exists ss0. split; [apply list_elem_of_here|done].
        -- pose proof (Hlater _ _ Hin). right.
           split; [lia|by apply list_elem_of_further].
      * intros [(-> & [(ss & Hin & ->)|(Hnot & ->)])|(Hne & Hin)].
        -- apply elem_of_cons in Hin as [Hhd|Hin].
           ++ injection Hhd as ->. apply list_elem_of_here.
           ++ pose proof (Hlater _ _ Hin). lia.
        -- exfalso. apply (Hnot ss0), list_elem_of_here.
        -- apply elem_of_cons in Hin as [Hhd|Hin].
           ++ injection Hhd as -> ->. done.
           ++ by apply list_elem_of_further.
    + split.
      * intros [Hhd|Hin]%elem_of_cons.
        -- injection Hhd as -> ->. left. split; [done|]. right.
           split; [|done]. intros ss [Hhd|Hin]%elem_of_cons.
           ++ injection Hhd as ? _. lia.
           ++ pose proof (Hlater _ _ Hin). lia.
        -- right. split; [|done]. intros ->.
           apply elem_of_cons in Hin as [Hhd|Hin].
           ++ injection Hhd as ? _. lia.
           ++ pose proof (Hlater _ _ Hin). lia.
      * intros [(-> & [(ss & Hin & ->)|(_ & ->)])|(_ & Hin)].
        -- exfalso. apply elem_of_cons in Hin as [Hhd|Hin].
           ++ injection Hhd as ? _. lia.
           ++ pose proof (Hlater _ _ Hin). lia.
        -- apply list_elem_of_here.
        -- by apply list_elem_of_further.
    + split.
      * intros [Hhd|Hin]%elem_of_cons.
        -- injection Hhd as -> ->. right.
           split; [lia|apply list_elem_of_here].
        -- apply (IH _ _ Hm) in Hin
             as [(-> & [(ss & Hin & ->)|(Hnot & ->)])|(Hne & Hin)].
           ++ left. split; [done|]. left. exists ss.
              split; [by apply list_elem_of_further|done].
           ++ left. split; [done|]. right. split; [|done].
              intros ss [Hhd|Hin]%elem_of_cons.
              ** injection Hhd as ? _. lia.
              ** by apply (Hnot ss).
           ++ right. split; [done|by apply list_elem_of_further].
      * intros Hcases. apply elem_of_cons.
        destruct Hcases
          as [(-> & [(ss & Hin & ->)|(Hnot & ->)])|(Hne & Hin)].
        -- apply elem_of_cons in Hin as [Hhd|Hin].
           ++ injection Hhd as ? _. lia.
           ++ right. apply (IH _ _ Hm). left. split; [done|]. left. eauto.
        -- right. apply (IH _ _ Hm). left. split; [done|]. right.
           split; [|done]. intros ss Hin.
           apply (Hnot ss). by apply list_elem_of_further.
        -- apply elem_of_cons in Hin as [Hhd|Hin]; [by left|].
           right. apply (IH _ _ Hm). right. done.
Qed.

Lemma bucketed_nil : bucketed [] [].
Proof.
  split_and!; [constructor| |]; by intros; exfalso; eapply elem_of_nil.
Qed.

Lemma bucketed_push m seen s :
  bucketed m seen →
  bucketed (bucket_push (extra_perimeters s) s m) (seen ++ [s]).
Proof.
  intros (Hs & Hentries & Hcover).
  destruct (bucket_push_keys (extra_perimeters s) s m Hs) as [Hs' Hkeys].
  split_and!; [done| |].
  - intros k ss Hin. rewrite filter_app.
    apply (bucket_push_entries _ _ _ _ _ Hs) in Hin
      as [(-> & [(ss0 & Hin & ->)|(Hnot & ->)])|(Hne & Hin)].
    + destruct (Hentries _ _ Hin) as [_ Hss0].
      split; [by destruct ss0|]. rewrite <- Hss0.
      by rewrite filter_cons, decide_True.
    + split; [done|].
      rewrite filter_cons, decide_True by done.
      assert (filter (λ s0, extra_perimeters s0 = extra_perimeters s) seen = [])
        as ->; [|done].
      clear -Hnot Hcover. induction seen as [|a seen IH]; [done|].
      rewrite filter_cons. case_decide as E.
      * exfalso.
        assert (extra_perimeters a ∈ m.*1) as Hin
          by apply Hcover, list_elem_of_here.
        apply list_elem_of_fmap in Hin as ([k1 ss1] & Hk1 & Hin).
        cbn in Hk1. subst k1. rewrite E in Hin. by apply (Hnot ss1).
      * apply IH. intros s0 Hs0. by apply Hcover, list_elem_of_further.
    + destruct (Hentries _ _ Hin) as [Hne' Hss]. split; [done|].
      rewrite filter_cons, decide_False by done.
      by rewrite filter_nil, app_nil_r.
  - intros s0 [Hs0| ->%list_elem_of_singleton]%elem_of_app; apply Hkeys.
    + right. by apply Hcover.
    + by left.
Qed.

Lemma pooled_snoc all s :
  pooled (all ++ [s]) = bucket_push (extra_perimeters s) s (pooled all).
Proof. unfold pooled. by rewrite foldl_app. Qed.

Lemma pooled_bucketed all : bucketed (pooled all) all.
Proof.
  induction all as [|s all IH] using rev_ind; [apply bucketed_nil|].
  rewrite pooled_snoc. by apply bucketed_push.
Qed.

Lemma foldM_mret {S A B} (g : B → A → B) (xs : list A) : ∀ acc (s : S),
  foldM (λ acc x, mret (g acc x)) acc xs s = (s, Return (foldl g acc xs)).
Proof.
  induction xs as [|x xs IH]; intros acc s; [done|]. cbn.
  erewrite bind_Return by reflexivity. apply IH.
Qed.

Section pooling.
Context `{Externals}.

Lemma pool_slices_from (this : Layer) (layerms : list nat) :
  ∀ (rs : list LayerRegion.t) (acc : list (Z * Surfaces)),
    mapM (λ l, regions this !! l) layerms = Some rs →
    foldM (λ slices' l,
        layerm ← region_ptr l;
        foldM (λ slices' s,
            mret (bucket_push (extra_perimeters s) s slices'))
          slices' (LayerRegion.slices layerm))
      acc layerms this
    = (this,
       Return (foldl (λ m s, bucket_push (extra_perimeters s) s m) acc
                 (flat_map LayerRegion.slices rs))).
Proof.
  induction layerms as [|l layerms IH]; intros rs acc; cbn.
  - by intros [= <-].
  - destruct (regions this !! l) as [r|] eqn:Hr; cbn; [|done].
    destruct (mapM (λ l, regions this !! l) layerms) as [rs'|] eqn:Hrs;
      cbn; [|done].
    intros [= <-]. cbn.
    erewrite bind_Return; last first.
    { erewrite bind_Return by (by apply region_ptr_spec).
      apply foldM_mret. }
    rewrite (IH rs') by done. by rewrite foldl_app.
Qed.

(** X11: the pooling of a group's slices loses nothing and duplicates
    nothing.  The buckets come out in strictly increasing order of the
    number of extra perimeters, the bucket of a number holds exactly the
    slices with that number, in the order of the members and of their
    slices, no bucket is empty, and every slice of every member is in the
    bucket of its number; the layer is not changed. *)
Theorem pool_slices_buckets (this : Layer) (layerms : list nat)
    (rs : list LayerRegion.t) :
  mapM (λ l, regions this !! l) layerms = Some rs →
  ∃ buckets,
    pool_slices layerms this = (this, Return buckets) ∧
    StronglySorted Z.lt (buckets.*1) ∧
    (∀ k ss, (k, ss) ∈ buckets →
       ss ≠ [] ∧
       ss = filter (λ s, extra_perimeters s = k)
              (flat_map LayerRegion.slices rs)) ∧
    (∀ s, s ∈ flat_map LayerRegion.slices rs →
       extra_perimeters s ∈ buckets.*1).
Proof.
  intros Hrs. exists (pooled (flat_map LayerRegion.slices rs)).
  split; [by apply pool_slices_from|].
  apply pooled_bucketed.
Qed.
End pooling.

Lemma pool_slices_buckets_witness :
  ∃ buckets,
    @pool_slices [0; 1]%nat (Example.layer [Example.layered; Example.region 1 60])
      = (Example.layer [Example.layered; Example.region 1 60], Return buckets) ∧
    StronglySorted Z.lt (buckets.*1) ∧
    (∀ k ss, (k, ss) ∈ buckets →
       ss ≠ [] ∧
       ss = filter (λ s, extra_perimeters s = k)
              (flat_map LayerRegion.slices
                 [Example.layered; Example.region 1 60])) ∧
    (∀ s, s ∈ flat_map LayerRegion.slices
                [Example.layered; Example.region 1 60] →
       extra_perimeters s ∈ buckets.*1).
Proof.
  apply (pool_slices_buckets
           (Example.layer [Example.layered; Example.region 1 60]) [0; 1]%nat
           [Example.layered; Example.region 1 60]).
  reflexivity.
Defined.

(** ** make_perimeters: no undefined behaviour *)

Section triples.
Context {S : Type}.
Implicit Types P : S → Prop.

Lemma triple_ret {A} P (a : A) : triple P (mret a) (λ b s, b = a ∧ P s).
Proof. by intros s HP. Qed.

Lemma triple_conseq {A} P P' (m : M S A) (Q Q' : A → S → Prop) :
  (∀ s, P' s → P s) → (∀ a s, Q a s → Q' a s) →
  triple P m Q → triple P' m Q'.
Proof.
  intros HP HQ Hm s Hs. specialize (Hm s (HP s Hs)).
  destruct (m s) as [s' [a|e|]]; auto.
Qed.

Lemma triple_bind {A B} P (m : M S A) (f : A → M S B) Q R :
  triple P m Q → (∀ a, triple (Q a) (f a) R) → triple P (m ≫= f) R.
Proof.
  intros Hm Hf s Hs. specialize (Hm s Hs).
  unfold mbind, M_MBind, M_bind.
  destruct (m s) as [s' [a|e|]]; [by apply Hf|done..].
Qed.

Lemma triple_get P : triple P get (λ a s, a = s ∧ P s).
Proof. by intros s HP. Qed.

Lemma triple_modify P (f : S → S) : triple P (modify f) (λ _ s, ∃ s0, P s0 ∧ s = f s0).
Proof. intros s HP. cbn. eauto. Qed.

Lemma triple_geom {A} P (r : option A) :
  triple P (geom r) (λ a s, r = Some a ∧ P s).
Proof. intros s HP. by destruct r. Qed.

Lemma triple_unchecked {A} P (r : option A) :
  is_Some r → triple P (unchecked r) (λ a s, r = Some a ∧ P s).
Proof. intros [a ->] s HP. done. Qed.

Lemma triple_foreach {A} P (xs : list A) (body : A → M S unit) :
  (∀ x, x ∈ xs → triple P (body x) (λ _, P)) →
  triple P (foreach xs body) (λ _, P).
Proof.
  induction xs as [|x xs IH]; intros Hbody; cbn.
  - by intros s HP.
  - eapply triple_bind; [apply Hbody, list_elem_of_here|].
    intros []. apply IH. intros y Hy. by apply Hbody, list_elem_of_further.
Qed.

Lemma triple_foldM {A B} P (J : B → Prop) (body : B → A → M S B)
    (xs : list A) : ∀ acc,
  J acc →
  (∀ acc x, J acc → x ∈ xs → triple P (body acc x) (λ acc' s, J acc' ∧ P s)) →
  triple P (foldM body acc xs) (λ acc' s, J acc' ∧ P s).
Proof.
  induction xs as [|x xs IH]; intros acc HJ Hbody; cbn.
  - by intros s HP.
  - eapply triple_bind; [by apply Hbody, list_elem_of_here|].
    intros acc'. intros s [HJ' HP]. revert s HP.
    apply IH; [done|]. intros acc0 y HJ0 Hy.
    by apply Hbody, list_elem_of_further.
Qed.
End triples.

Lemma bucket_push_nonempty k s m :
  Forall (λ p, p.2 ≠ []) m → Forall (λ p, p.2 ≠ []) (bucket_push k s m).
Proof.
  induction m as [|[k' ss] m IH]; intros Hm; cbn.
  - by repeat constructor.
  - apply Forall_cons in Hm as [Hss Hm]. repeat case_decide.
    + constructor; [|done]. cbn. by destruct ss.
    + by repeat constructor.
    + constructor; [done|]. by apply IH.
Qed.

Section defined.
Context `{Externals}.

Lemma triple_region_ptr n l :
  (l < n)%nat →
  triple (sized n) (region_ptr l) (λ _, sized n).
Proof.
  intros Hl s Hs. unfold region_ptr. unfold_M. cbn.
  destruct (lookup_lt_is_Some_2 (regions s) l) as [r ->]; [by rewrite Hs|].
  done.
Qed.

Lemma triple_modify_region n l f :
  triple (sized n) (modify_region l f) (λ _, sized n).
Proof.
  intros s Hs. unfold modify_region, sized, region_count. cbn.
  by rewrite length_alter.
Qed.

Lemma triple_copy_perimeter_expolygons n ps :
  triple (sized n) (copy_perimeter_expolygons ps) (λ _, sized n).
Proof.
  unfold copy_perimeter_expolygons.
  eapply triple_bind with (Q := λ _, sized n); [by intros s Hs|].
  intros []. apply triple_foreach. intros x _. by intros s Hs.
Qed.

Lemma triple_geom_sized {A} n (r : option A) :
  triple (sized n) (geom r) (λ _, sized n).
Proof. intros s Hs. by destruct r. Qed.

Lemma triple_make_perimeters_in_place n region_id :
  (region_id < n)%nat →
  triple (sized n) (make_perimeters_in_place region_id) (λ _, sized n).
Proof.
  intros Hl. unfold make_perimeters_in_place.
  eapply triple_bind; [by apply triple_region_ptr|]. intros layerm.
  destruct (LayerRegion_make_perimeters layerm (LayerRegion.slices layerm)).
  - apply triple_modify_region.
  - cbv zeta. eapply triple_bind; [apply triple_modify_region|]. intros [].
    by intros s Hs.
Qed.

Lemma triple_make_perimeters_single n region_id :
  (region_id < n)%nat →
  triple (sized n) (make_perimeters_single region_id) (λ _, sized n).
Proof.
  intros Hl. unfold make_perimeters_single.
  eapply triple_bind; [apply triple_modify_region|]. intros [].
  eapply triple_bind; [apply triple_modify_region|]. intros [].
  eapply triple_bind; [by apply triple_make_perimeters_in_place|]. intros [].
  eapply triple_bind; [by apply triple_region_ptr|]. intros layerm'.
  apply triple_copy_perimeter_expolygons.
Qed.

Lemma triple_pool_slices n layerms :
  Forall (λ l, (l < n)%nat) layerms →
  triple (sized n) (pool_slices layerms)
    (λ buckets this, Forall (λ p, p.2 ≠ []) buckets ∧ sized n this).
Proof.
  intros Hl. unfold pool_slices.
  apply (triple_foldM (sized n) (Forall (λ p, p.2 ≠ []))); [constructor|].
  intros acc l Hacc Hin.
  eapply triple_bind;
    [apply triple_region_ptr; by eapply (proj1 (Forall_forall _ _) Hl)|].
  intros layerm.
  apply (triple_foldM (sized n) (Forall (λ p, p.2 ≠ []))); [done|].
  intros acc' s Hacc' _ this Hthis. cbn. split; [|done].
  by apply bucket_push_nonempty.
Qed.

Lemma triple_merge_pooled n slices' :
  Forall (λ p, p.2 ≠ []) slices' →
  triple (sized n) (merge_pooled slices') (λ _, sized n).
Proof.
  intros Hne. unfold merge_pooled.
  eapply triple_conseq; [done| |
    apply (triple_foldM (sized n) (λ _, True)); [done|]].
  { by intros a s [_ ?]. }
  intros acc it _ Hit.
  eapply triple_bind; [apply triple_geom_sized|]. intros expp.
  apply (triple_foldM (sized n) (λ _, True)); [done|].
  intros acc' ex _ _.
  assert (it.2 ≠ []) as Hit2 by by eapply (proj1 (Forall_forall _ _) Hne).
  intros this Hthis. unfold_M. cbn.
  destruct (it.2) as [|s ss]; [done|]. by cbn.
Qed.

Lemma triple_split_back n ps fs l :
  (l < n)%nat → fs ≠ [] →
  triple (sized n) (split_back ps fs l) (λ _, sized n).
Proof.
  intros Hl Hfs. unfold split_back.
  assert (∀ f, triple (sized n)
    (s ← unchecked (head fs); modify_region l (f s)) (λ _, sized n)) as Hbody.
  { intros f. destruct fs as [|s fs]; [done|].
    intros this Hthis. unfold_M. cbn.
    unfold sized, region_count in *. cbn. by rewrite length_alter. }
  eapply triple_bind; [by apply triple_region_ptr|]. intros layerm.
  eapply triple_bind; [apply triple_geom_sized|]. intros expp.
  eapply triple_bind; [apply triple_modify_region|]. intros [].
  eapply triple_bind.
  { apply triple_foreach. intros ex _.
    apply (Hbody (λ s r, LayerRegion.set_fill_surfaces
      (LayerRegion.fill_surfaces r ++ [with_expolygon s ex]) r)). }
  intros [].
  eapply triple_bind; [by apply triple_region_ptr|]. intros layerm'.
  eapply triple_bind; [apply triple_geom_sized|]. intros expp'.
  eapply triple_bind; [apply triple_modify_region|]. intros [].
  apply triple_foreach. intros ex _.
  apply (Hbody (λ s r, LayerRegion.set_perimeter_surfaces
    (LayerRegion.perimeter_surfaces r ++ [with_expolygon s ex]) r)).
Qed.

Lemma triple_make_perimeters_multi n region_id layerms :
  (region_id < n)%nat → Forall (λ l, (l < n)%nat) layerms →
  triple (sized n) (make_perimeters_multi region_id layerms) (λ _, sized n).
Proof.
  intros Hr Hl. unfold make_perimeters_multi, make_pooled.
  eapply triple_bind.
  { eapply triple_bind; [by apply triple_pool_slices|]. intros slices'.
    intros this [Hne Hthis]. revert this Hthis.
    eapply triple_bind; [by apply triple_merge_pooled|]. intros new_slices.
    eapply triple_bind; [by apply triple_region_ptr|]. intros layerm.
    apply triple_geom_sized. }
  intros out. cbn.
  eapply triple_bind; [apply triple_copy_perimeter_expolygons|]. intros [].
  case_decide as Hfs; [|by intros s Hs].
  apply triple_foreach. intros l Hin.
  apply triple_split_back; [|done].
  by eapply (proj1 (Forall_forall _ _) Hl).
Qed.

Lemma triple_make_perimeters_group n layerms :
  Forall (λ l, (l < n)%nat) layerms →
  triple (sized n) (make_perimeters_group layerms) (λ _, sized n).
Proof.
  intros Hl. unfold make_perimeters_group.
  destruct layerms as [|region_id others]; [by intros s Hs|].
  assert (region_id < n)%nat by by apply Forall_cons in Hl as [? _].
  case_decide.
  - by apply triple_make_perimeters_single.
  - by apply triple_make_perimeters_multi.
Qed.

Lemma triple_make_perimeters_loop n region_ids : ∀ seen,
  Forall (λ l, (l < n)%nat) region_ids →
  triple (sized n) (make_perimeters_loop region_ids seen) (λ _, sized n).
Proof.
  induction region_ids as [|region_id rest IH]; intros seen Hl; cbn.
  - by intros s Hs.
  - apply Forall_cons in Hl as [Hr Hrest].
    case_decide; [by apply IH|].
    intros this Hthis.
    assert (triple (sized n)
      (layerm ← region_ptr region_id;
       make_perimeters_group
         (region_id ::
            find_compatible (regions this) region_id
              (LayerRegion.config layerm)) ;;
       make_perimeters_loop rest
         (list_to_set
            (find_compatible (regions this) region_id
               (LayerRegion.config layerm))
          ∪ ({[region_id]} ∪ seen)))
      (λ _, sized n)) as Hrun.
    { eapply triple_bind; [by apply triple_region_ptr|]. intros layerm.
      eapply triple_bind with (Q := λ _, sized n); [|intros []; by apply IH].
      apply triple_make_perimeters_group. constructor; [done|].
      apply Forall_forall. intros j (_ & r & Hj & _)%elem_of_find_compatible.
      apply lookup_lt_Some in Hj. unfold sized, region_count in Hthis. lia. }
    apply (Hrun this Hthis).
Qed.

(** X12: [make_perimeters] never has undefined behaviour, whatever the
    layer and whatever the external routines answer: every [front()] it
    calls is on a container that is not empty (a bucket of the pooling
    holds the surface that created it, and the fill surfaces are read
    only behind the test that they are not empty) and every region
    pointer it follows is a region of the layer.  It either returns or
    fails with the failure of a geometry routine. *)
Theorem make_perimeters_defined (this : Layer) :
  (make_perimeters this).2 = Return tt ∨
  (make_perimeters this).2 = Throw DegenerateGeometry.
Proof.
  pose proof (triple_make_perimeters_loop (length (regions this))
    (seq 0 (length (regions this))) ∅) as Hloop.
  unfold make_perimeters.
  assert (Forall (λ l, (l < length (regions this))%nat)
            (seq 0 (length (regions this)))) as Hseq.
  { apply Forall_forall. intros l Hl%elem_of_seq. lia. }
  specialize (Hloop Hseq this eq_refl).
  destruct (make_perimeters_loop _ _ this) as [s' [[]|e|]]; cbn.
  - by left.
  - right. by subst e.
  - done.
Qed.
End defined.

(** ** The layer stack: construction and destruction *)

Lemma delete_layer_spec (h : heap) (a : addr) (la : Layer) :
  linked h → h !! a = Some la →
  delete_layer a h = (delete a (unlinked_heap h a la), Return tt).
Proof.
  intros L Ha. unfold delete_layer, Layer_dtor.
  destruct (clear_regions_run
              (unlink_at (upper_layer la)
                 (if decide (upper_layer la = Some a) then None
                  else lower_layer la) a la)) as (k & _ & _ & Hclear).
  erewrite bind_Return; last first.
  { erewrite bind_Return by (by apply Layer_dtor_unlink_spec).
    unfold at_layer.
    rewrite (unlinked_heap_lookup _ _ _ _ L Ha), Ha.
    cbn [fmap option_fmap option_map]. rewrite Hclear. reflexivity. }
  unfold modify. by rewrite delete_insert_eq.
Qed.

(** X13: a layer that is constructed and then deleted leaves no trace.
    The constructor gives the layer no neighbours and no regions, so the
    destructor writes to no other layer, and the heap after the deletion
    is the heap before the construction; no symmetry of the links is
    needed for this. *)
Theorem new_layer_delete_layer (h : heap) (a : addr) (id : nat)
    (object : addr) (hh pz sz : coordf_t) :
  h !! a = None →
  (p ← new_layer a id object hh pz sz; delete_layer p) h = (h, Return tt).
Proof.
  intros Hfree.
  erewrite bind_Return by reflexivity.
  unfold delete_layer, Layer_dtor, Layer_dtor_unlink.
  set (l := Layer_ctor id object hh pz sz).
  assert (Hl : <[a := l]> h !! a = Some l) by apply lookup_insert_eq.
  erewrite bind_Return; last first.
  { erewrite bind_Return; last first.
    { erewrite bind_Return by (by apply at_layer_get). cbn.
      erewrite bind_Return by reflexivity.
      erewrite bind_Return by (by apply at_layer_get). reflexivity. }
    unfold at_layer. rewrite Hl.
    by rewrite clear_regions_spec by (by vm_compute). }
  unfold modify. by rewrite !delete_insert_eq, delete_id.
Qed.

(** X14: constructing a layer at an unused address keeps the neighbour
    links symmetric and changes no other layer; the new layer has no
    regions and no neighbours. *)
Theorem new_layer_fresh (h : heap) (a : addr) (id : nat) (object : addr)
    (hh pz sz : coordf_t) :
  linked h → h !! a = None →
  ∃ h' l,
    new_layer a id object hh pz sz h = (h', Return a) ∧
    linked h' ∧
    h' !! a = Some l ∧
    region_count l = 0%nat ∧ upper_layer l = None ∧ lower_layer l = None ∧
    ∀ b, b ≠ a → h' !! b = h !! b.
Proof.
  intros L Hfree.
  destruct (new_layer_linked h a id object hh pz sz L Hfree) as (h' & E & L').
  exists h', (Layer_ctor id object hh pz sz).
  assert (h' = <[a := Layer_ctor id object hh pz sz]> h) as ->
    by (by injection E).
  split_and!; try done.
  - apply lookup_insert_eq.
  - intros b Hb. by rewrite lookup_insert_ne.
Qed.

(** X15: deleting the layer at [a] from a heap with symmetric links
    frees [a] and changes of the other layers only the links that
    referred to [a], which become null: their regions, islands and every
    other field are what they were, and so are their links to layers
    other than [a]. *)
Theorem delete_layer_frame (h : heap) (a : addr) (la : Layer) :
  linked h → h !! a = Some la →
  ∃ h',
    delete_layer a h = (h', Return tt) ∧
    h' !! a = None ∧
    ∀ c lc, c ≠ a → h !! c = Some lc →
      h' !! c
      = Some (set_upper_layer
                (if decide (upper_layer lc = Some a) then None
                 else upper_layer lc)
                (set_lower_layer
                   (if decide (lower_layer lc = Some a) then None
                    else lower_layer lc) lc)).
Proof.
  intros L Ha. exists (delete a (unlinked_heap h a la)).
  split_and!; [by apply delete_layer_spec|apply lookup_delete_eq|].
  intros c lc Hca Hc.
  rewrite lookup_delete_ne by done.
  rewrite (unlinked_heap_lookup _ _ _ _ L Ha), Hc. cbn. f_equal.
  destruct (L a la Ha) as [Haup Halo]. destruct (L c lc Hc) as [Hcup Hclo].
  assert (upper_layer la = Some c ↔ lower_layer lc = Some a) as Hu.
  { split; intros E.
    - destruct (Haup c E) as (lc' & ? & ?). congruence.
    - destruct (Hclo a E) as (la' & ? & ?). congruence. }
  assert ((if decide (upper_layer la = Some a) then None else lower_layer la)
          = Some c ↔ upper_layer lc = Some a) as Hd.
  { split.
    - case_decide; [done|]. intros E.
      destruct (Halo c E) as (lc' & ? & ?). congruence.
    - intros E. destruct (Hcup a E) as (la' & ? & ?).
      case_decide as Hself; [|congruence].
      destruct (Haup a Hself) as (la'' & ? & ?). congruence. }
  unfold unlink_at.
  destruct lc as [u d rs se sl pr hg sls pe i o]. cbn in *.
  repeat case_decide; try tauto; try done.
Qed.

Lemma new_layer_delete_layer_witness :
  (p ← new_layer 3%positive 2 1%positive (Q2Qc 1) (Q2Qc 3) (Q2Qc 2);
   delete_layer p) Example.stack
  = (Example.stack, Return tt).
Proof.
  apply (new_layer_delete_layer Example.stack 3%positive). reflexivity.
Defined.

Lemma new_layer_fresh_witness :
  ∃ h' l,
    new_layer 3%positive 2 1%positive (Q2Qc 1) (Q2Qc 3) (Q2Qc 2) Example.stack
      = (h', Return 3%positive) ∧
    linked h' ∧
    h' !! 3%positive = Some l ∧
    region_count l = 0%nat ∧ upper_layer l = None ∧ lower_layer l = None ∧
    ∀ b, b ≠ 3%positive → h' !! b = Example.stack !! b.
Proof.
  apply (new_layer_fresh Example.stack 3%positive).
  - exact Example_stack_linked.
  - reflexivity.
Defined.

Lemma delete_layer_frame_witness :
  ∃ h',
    delete_layer 2%positive Example.stack = (h', Return tt) ∧
    h' !! 2%positive = None ∧
    ∀ c lc, c ≠ 2%positive → Example.stack !! c = Some lc →
      h' !! c
      = Some (set_upper_layer
                (if decide (upper_layer lc = Some 2%positive) then None
                 else upper_layer lc)
                (set_lower_layer
                   (if decide (lower_layer lc = Some 2%positive) then None
                    else lower_layer lc) lc)).
Proof.
  apply (delete_layer_frame Example.stack 2%positive Example.upper).
  - exact Example_stack_linked.
  - reflexivity.
Defined.

(** * Properties of PresetBundle.cpp *)

(** ** Colours *)

Section colours.
Import PresetBundle.

Lemma store_run {A} (i : nat) (v : A) (a : list A) :
  (i < length a)%nat → store i v a = (<[i := v]> a, Return tt).
Proof. intros Hi. unfold store. by rewrite decide_True. Qed.

Lemma hex_digit_to_int_range c :
  hex_digit_to_int c = -1 ∨ 0 ≤ hex_digit_to_int c < 16.
Proof.
  unfold hex_digit_to_int, code. cbn.
  repeat case_decide; lia.
Qed.

Lemma hex_digit_to_int_hex_char d :
  0 ≤ d < 16 → hex_digit_to_int (hex_char d) = d.
Proof.
  intros Hd.
  assert (d ∈ [0; 1; 2; 3; 4; 5; 6; 7; 8; 9; 10; 11; 12; 13; 14; 15]) as Hin.
  { rewrite !elem_of_cons. lia. }
  repeat (apply elem_of_cons in Hin as [->|Hin]; [by vm_compute|]).
  by apply elem_of_nil in Hin.
Qed.

Lemma parse_color_run (scolor : string) (x y z : Z) :
  parse_color scolor [x; y; z]
  = match String.list_ascii_of_string scolor with
    | [h; c1; c2; c3; c4; c5; c6] =>
        if decide (h = "#"%char) then
          if decide (hex_digit_to_int c1 = -1 ∨ hex_digit_to_int c2 = -1)
          then ([0; 0; 0], Return false)
          else if decide (hex_digit_to_int c3 = -1 ∨ hex_digit_to_int c4 = -1)
          then ([channel c1 c2; 0; 0], Return false)
          else if decide (hex_digit_to_int c5 = -1 ∨ hex_digit_to_int c6 = -1)
          then ([channel c1 c2; channel c3 c4; 0], Return false)
          else ([channel c1 c2; channel c3 c4; channel c5 c6], Return true)
        else ([0; 0; 0], Return false)
    | _ => ([0; 0; 0], Return false)
    end.
Proof.
  unfold parse_color.
  do 3 (erewrite bind_Return by (apply store_run; cbn; lia)). cbn.
  destruct (String.list_ascii_of_string scolor)
    as [|h [|c1 [|c2 [|c3 [|c4 [|c5 [|c6 [|c7 rest]]]]]]]];
    try (rewrite decide_True by (left; cbn; lia); done).
  destruct (decide (h = "#"%char)) as [->|Hh];
    [|rewrite decide_True by (right; cbn; congruence); done].
  rewrite decide_False by (intros [?|?]; done).
  cbn -[hex_digit_to_int]. unfold channel.
  do 2 (erewrite bind_Return by reflexivity).
  case_decide; [done|].
  erewrite bind_Return by (apply store_run; cbn; lia).
  do 2 (erewrite bind_Return by reflexivity).
  case_decide; [done|].
  erewrite bind_Return by (apply store_run; cbn; lia).
  do 2 (erewrite bind_Return by reflexivity).
  case_decide; [done|].
  erewrite bind_Return by (apply store_run; cbn; lia).
  done.
Qed.
Lemma length_3_inv {A} (l : list A) :
  length l = 3%nat → ∃ x y z, l = [x; y; z].
Proof. destruct l as [|x [|y [|z [|? ?]]]]; try done. eauto. Qed.

Lemma channel_range c1 c2 : 0 ≤ channel c1 c2 < 256.
Proof. unfold channel. by apply Z.mod_pos_bound. Qed.

Lemma channel_hex c1 c2 :
  hex_digit_to_int c1 ≠ -1 → hex_digit_to_int c2 ≠ -1 →
  channel c1 c2 = hex_digit_to_int c1 * 16 + hex_digit_to_int c2.
Proof.
  intros H1 H2. unfold channel.
  destruct (hex_digit_to_int_range c1), (hex_digit_to_int_range c2);
    try done.
  apply Z.mod_small. lia.
Qed.

(** X16: [parse_color] accepts exactly the strings made of [#] and six
    hexadecimal digits, in either case, and on these it writes the three
    channels most significant digit first. *)
Theorem parse_color_accepts (scolor : string) (rgb_out : list Z) :
  length rgb_out = 3%nat →
  ((parse_color scolor rgb_out).2 = Return true ↔
   ∃ c1 c2 c3 c4 c5 c6,
     scolor
     = String.string_of_list_ascii ["#"%char; c1; c2; c3; c4; c5; c6] ∧
     Forall (λ c, hex_digit_to_int c ≠ -1) [c1; c2; c3; c4; c5; c6] ∧
     (parse_color scolor rgb_out).1
     = [hex_digit_to_int c1 * 16 + hex_digit_to_int c2;
        hex_digit_to_int c3 * 16 + hex_digit_to_int c4;
        hex_digit_to_int c5 * 16 + hex_digit_to_int c6]).
Proof.
  intros (x & y & z & ->)%length_3_inv. rewrite parse_color_run. split.
  - pose proof (String.string_of_list_ascii_of_string scolor) as Hs.
    destruct (String.list_ascii_of_string scolor)
      as [|h [|c1 [|c2 [|c3 [|c4 [|c5 [|c6 [|c7 rest]]]]]]]]; try done.
    destruct (decide (h = "#"%char)) as [->|Hh]; [|done].
    repeat case_decide; try done. intros _.
    exists c1, c2, c3, c4, c5, c6. split; [done|].
    split; [repeat constructor; tauto|].
    cbn. rewrite !channel_hex by tauto. done.
  - intros (c1 & c2 & c3 & c4 & c5 & c6 & -> & Hhex & _).
    rewrite String.list_ascii_of_string_of_list_ascii.
    rewrite decide_True by done.
    repeat (apply Forall_cons in Hhex as [? Hhex]).
    by rewrite !decide_False by tauto.
Qed.

(** X17: [parse_color] always returns, and what it leaves in [rgb_out]
    does not depend on what the array held: every channel is a byte, a
    string that is not [#] followed by six characters leaves the three
    channels at zero, and a failure leaves the last channel at zero. *)
Theorem parse_color_output (scolor : string) (rgb_out : list Z) :
  length rgb_out = 3%nat →
  ∃ ok r g b,
    parse_color scolor rgb_out = ([r; g; b], Return ok) ∧
    parse_color scolor [0; 0; 0] = ([r; g; b], Return ok) ∧
    0 ≤ r < 256 ∧ 0 ≤ g < 256 ∧ 0 ≤ b < 256 ∧
    (ok = false → b = 0) ∧
    (String.length scolor ≠ 7%nat ∨ String.get 0 scolor ≠ Some "#"%char →
     ok = false ∧ r = 0 ∧ g = 0 ∧ b = 0).
Proof.
  intros (x & y & z & ->)%length_3_inv. rewrite !parse_color_run.
  pose proof (String.string_of_list_ascii_of_string scolor) as Hs.
  pose proof (channel_range) as Hc.
  destruct (String.list_ascii_of_string scolor)
    as [|h [|c1 [|c2 [|c3 [|c4 [|c5 [|c6 [|c7 rest]]]]]]]];
    try (exists false, 0, 0, 0; split_and!; done).
  subst scolor. cbn.
  destruct (decide (h = "#"%char)) as [->|Hh].
  - repeat case_decide.
    + exists false, 0, 0, 0. split_and!; try done; try apply Hc; intros [?|?]; done.
    + exists false, (channel c1 c2), 0, 0. split_and!; try done;
        try apply Hc; intros [?|?]; done.
    + exists false, (channel c1 c2), (channel c3 c4), 0.
      split_and!; try done; try apply Hc; intros [?|?]; done.
    + exists true, (channel c1 c2), (channel c3 c4), (channel c5 c6).
      split_and!; try done; try apply Hc; intros [?|?]; done.
  - exists false, 0, 0, 0. split_and!; done.
Qed.

(** X18: every colour can be written: for three bytes, [parse_color]
    accepts the string [#RRGGBB] of their hexadecimal digits and gives
    the three bytes back. *)
Theorem parse_color_color_string (r g b : Z) (rgb_out : list Z) :
  length rgb_out = 3%nat →
  0 ≤ r < 256 → 0 ≤ g < 256 → 0 ≤ b < 256 →
  parse_color (color_string r g b) rgb_out = ([r; g; b], Return true).
Proof.
  intros (x & y & z & ->)%length_3_inv Hr Hg Hb. rewrite parse_color_run.
  unfold color_string. rewrite String.list_ascii_of_string_of_list_ascii.
  rewrite decide_True by done.
  assert (∀ v, 0 ≤ v < 256 →
    hex_digit_to_int (hex_char (v `div` 16)) = v `div` 16 ∧
    hex_digit_to_int (hex_char (v `mod` 16)) = v `mod` 16 ∧
    channel (hex_char (v `div` 16)) (hex_char (v `mod` 16)) = v) as Hv.
  { intros v Hv.
    assert (0 ≤ v `div` 16 < 16) as Hd
      by (split; [apply Z.div_pos|apply Z.div_lt_upper_bound]; lia).
    assert (0 ≤ v `mod` 16 < 16) as Hm by (by apply Z.mod_pos_bound).
    pose proof (hex_digit_to_int_hex_char _ Hd) as E1.
    pose proof (hex_digit_to_int_hex_char _ Hm) as E2.
    split_and!; [done..|].
    unfold channel. rewrite E1, E2.
    rewrite (Z.mul_comm _ 16), <- Z.div_mod by done.
    apply Z.mod_small. lia. }
  destruct (Hv r Hr) as (R1 & R2 & ->).
  destruct (Hv g Hg) as (G1 & G2 & ->).
  destruct (Hv b Hb) as (B1 & B2 & ->).
  assert (∀ v, 0 ≤ v < 256 → v `div` 16 ≠ -1 ∧ v `mod` 16 ≠ -1) as Hne.
  { intros v Hv'.
    assert (0 ≤ v `div` 16) by (apply Z.div_pos; lia).
    assert (0 ≤ v `mod` 16 < 16) by (by apply Z.mod_pos_bound). lia. }
  rewrite R1, R2, G1, G2, B1, B2.
  pose proof (Hne r Hr). pose proof (Hne g Hg). pose proof (Hne b Hb).
  by rewrite !decide_False by tauto.
Qed.

(** X19: a failure does not undo what the loop has written: when the
    first channel is well formed and the second is not, [parse_color]
    answers [false] with the first channel set and the others at zero. *)
Theorem parse_color_partial (c1 c2 c3 c4 c5 c6 : ascii) (rgb_out : list Z) :
  length rgb_out = 3%nat →
  hex_digit_to_int c1 ≠ -1 → hex_digit_to_int c2 ≠ -1 →
  hex_digit_to_int c3 = -1 ∨ hex_digit_to_int c4 = -1 →
  parse_color
    (String.string_of_list_ascii ["#"%char; c1; c2; c3; c4; c5; c6]) rgb_out
  = ([hex_digit_to_int c1 * 16 + hex_digit_to_int c2; 0; 0], Return false).
Proof.
  intros (x & y & z & ->)%length_3_inv H1 H2 H34. rewrite parse_color_run.
  rewrite String.list_ascii_of_string_of_list_ascii.
  rewrite decide_True by done.
  rewrite decide_False by tauto. rewrite decide_True by done.
  by rewrite channel_hex.
Qed.
End colours.

Lemma parse_color_accepts_witness :
  (PresetBundle.parse_color "#1a2B3c" [7; 7; 7]).2 = Return true ↔
  ∃ c1 c2 c3 c4 c5 c6,
    "#1a2B3c"%string
    = String.string_of_list_ascii ["#"%char; c1; c2; c3; c4; c5; c6] ∧
    Forall (λ c, PresetBundle.hex_digit_to_int c ≠ -1)
      [c1; c2; c3; c4; c5; c6] ∧
    (PresetBundle.parse_color "#1a2B3c" [7; 7; 7]).1
    = [PresetBundle.hex_digit_to_int c1 * 16 + PresetBundle.hex_digit_to_int c2;
       PresetBundle.hex_digit_to_int c3 * 16 + PresetBundle.hex_digit_to_int c4;
       PresetBundle.hex_digit_to_int c5 * 16 + PresetBundle.hex_digit_to_int c6].
Proof. apply (parse_color_accepts "#1a2B3c" [7; 7; 7]). reflexivity. Defined.

Lemma parse_color_output_witness :
  ∃ ok r g b,
    PresetBundle.parse_color "#12zz56" [7; 7; 7] = ([r; g; b], Return ok) ∧
    PresetBundle.parse_color "#12zz56" [0; 0; 0] = ([r; g; b], Return ok) ∧
    0 ≤ r < 256 ∧ 0 ≤ g < 256 ∧ 0 ≤ b < 256 ∧
    (ok = false → b = 0) ∧
    (String.length "#12zz56" ≠ 7%nat
     ∨ String.get 0 "#12zz56" ≠ Some "#"%char →
     ok = false ∧ r = 0 ∧ g = 0 ∧ b = 0).
Proof. apply (parse_color_output "#12zz56" [7; 7; 7]). reflexivity. Defined.

Lemma parse_color_color_string_witness :
  PresetBundle.parse_color (PresetBundle.color_string 255 128 10) [7; 7; 7]
  = ([255; 128; 10], Return true).
Proof.
  apply (parse_color_color_string 255 128 10 [7; 7; 7]);
    [reflexivity|lia..].
Defined.

Lemma parse_color_partial_witness :
  PresetBundle.parse_color
    (String.string_of_list_ascii
       ["#"%char; "F"%char; "f"%char; "0"%char; "x"%char; "9"%char;
        "9"%char])
    [7; 7; 7]
  = ([PresetBundle.hex_digit_to_int "F" * 16
      + PresetBundle.hex_digit_to_int "f"; 0; 0], Return false).
Proof.
  apply (parse_color_partial "F" "f" "0" "x" "9" "9" [7; 7; 7]).
  - reflexivity.
  - by vm_compute.
  - by vm_compute.
  - right. by vm_compute.
Defined.

(** ** The extruders of the full configuration *)

Section extruders.
Import PresetBundle.

Lemma int_of_size_t_small n : 0 ≤ n < 2 ^ 31 → int_of_size_t n = n.
Proof.
  intros Hn. unfold int_of_size_t. rewrite Z.mod_small by lia. lia.
Qed.

Ltac solve_elem_of :=
  repeat first [apply list_elem_of_here | apply list_elem_of_further].

(** One turn of the loop of [clamp_extruders] on an option that is set. *)
Lemma clamp_extruders_turn (num_extruders : Z) (key : string)
    (out : gmap string Z) (value : Z) :
  0 ≤ num_extruders < 2 ^ 31 →
  out !! key = Some value →
  (out ← get;
   value ← unchecked (out !! key);
   bound ←
     (if decide (int_of_size_t num_extruders = - 2 ^ 31) then undefined
      else mret (int_of_size_t num_extruders - 1));
   modify (<[key := Z.min value (Z.min 0 bound)]>)) out
  = (<[key := Z.min value (if decide (num_extruders = 0) then -1 else 0)]> out,
     Return tt).
Proof.
  intros Hn Hkey. rewrite int_of_size_t_small by done.
  erewrite bind_Return by reflexivity. rewrite Hkey.
  erewrite bind_Return by reflexivity.
  rewrite decide_False by lia.
  erewrite bind_Return by reflexivity.
  unfold modify. do 3 f_equal. case_decide; lia.
Qed.

(** X20: the last loop of [full_config] never leaves an extruder option
    above zero.  With at least one extruder (and fewer than 2^31) the
    bound [min(0, num_extruders - 1)] is zero whatever the number of
    extruders, so each of the five [_extruder] options becomes
    [min(value, 0)]; with no extruder it becomes [min(value, -1)].  No
    other option is written. *)
Theorem clamp_extruders_never_positive (num_extruders : Z)
    (out : gmap string Z) :
  0 ≤ num_extruders < 2 ^ 31 →
  (∀ k, k ∈ extruder_keys → is_Some (out !! (k +:+ "_extruder"))) →
  ∃ out',
    clamp_extruders num_extruders out = (out', Return tt) ∧
    (∀ k value, k ∈ extruder_keys →
       out !! (k +:+ "_extruder") = Some value →
       out' !! (k +:+ "_extruder")
       = Some (Z.min value (if decide (num_extruders = 0) then -1 else 0))) ∧
    (∀ k, k ∈ extruder_keys →
       ∃ value, out' !! (k +:+ "_extruder") = Some value ∧ value ≤ 0) ∧
    (∀ key, key ∉ (λ k, k +:+ "_extruder") <$> extruder_keys →
       out' !! key = out !! key).
Proof.
  intros Hn Hset.
  assert (∃ v1 v2 v3 v4 v5,
    out !! "perimeter_extruder" = Some v1 ∧
    out !! "infill_extruder" = Some v2 ∧
    out !! "solid_infill_extruder" = Some v3 ∧
    out !! "support_material_extruder" = Some v4 ∧
    out !! "support_material_interface_extruder" = Some v5)
    as (v1 & v2 & v3 & v4 & v5 & H1 & H2 & H3 & H4 & H5).
  { destruct (Hset "perimeter") as [v1 ?]; [solve_elem_of|].
    destruct (Hset "infill") as [v2 ?]; [solve_elem_of|].
    destruct (Hset "solid_infill") as [v3 ?]; [solve_elem_of|].
    destruct (Hset "support_material") as [v4 ?]; [solve_elem_of|].
    destruct (Hset "support_material_interface") as [v5 ?]; [solve_elem_of|].
    by exists v1, v2, v3, v4, v5. }
  set (b := if decide (num_extruders = 0) then -1 else 0).
  assert (b ≤ 0) as Hb by (subst b; case_decide; lia).
  exists (<["support_material_interface_extruder" := Z.min v5 b]>
         (<["support_material_extruder" := Z.min v4 b]>
         (<["solid_infill_extruder" := Z.min v3 b]>
         (<["infill_extruder" := Z.min v2 b]>
         (<["perimeter_extruder" := Z.min v1 b]> out))))).
  split_and!.
  - unfold clamp_extruders, extruder_keys. cbn [foreach String.append].
    erewrite bind_Return by (by apply clamp_extruders_turn).
    erewrite bind_Return;
      [|apply clamp_extruders_turn; [done|by rewrite lookup_insert_ne]].
    erewrite bind_Return;
      [|apply clamp_extruders_turn; [done|by rewrite !lookup_insert_ne]].
    erewrite bind_Return;
      [|apply clamp_extruders_turn; [done|by rewrite !lookup_insert_ne]].
    erewrite bind_Return;
      [|apply clamp_extruders_turn; [done|by rewrite !lookup_insert_ne]].
    done.
  - intros k value Hk Hv. unfold extruder_keys in Hk. subst b.
    repeat (apply elem_of_cons in Hk as [->|Hk]);
      [..|by apply elem_of_nil in Hk];
      repeat (rewrite lookup_insert_ne by done);
      rewrite lookup_insert_eq; do 2 f_equal; apply (inj Some);
      first [ by etrans; [symmetry; exact H1|exact Hv]
            | by etrans; [symmetry; exact H2|exact Hv]
            | by etrans; [symmetry; exact H3|exact Hv]
            | by etrans; [symmetry; exact H4|exact Hv]
            | by etrans; [symmetry; exact H5|exact Hv] ].
  - intros k Hk. unfold extruder_keys in Hk.
    repeat (apply elem_of_cons in Hk as [->|Hk]);
      [..|by apply elem_of_nil in Hk]; cbn [String.append] in *;
      eexists; (split;
        [repeat (rewrite lookup_insert_ne by done);
         by rewrite lookup_insert_eq|lia]).
  - intros key Hkey. unfold extruder_keys in Hkey. cbn in Hkey.
    repeat (rewrite lookup_insert_ne;
              [|intros <-; apply Hkey; solve_elem_of]).
    done.
Qed.
End extruders.

Lemma clamp_extruders_never_positive_witness :
  ∃ out',
    PresetBundle.clamp_extruders 3
      (list_to_map
         ((λ k, (k +:+ "_extruder", 2)) <$> PresetBundle.extruder_keys))
    = (out', Return tt) ∧
    (∀ k value, k ∈ PresetBundle.extruder_keys →
       (list_to_map
          ((λ k, (k +:+ "_extruder", 2)) <$> PresetBundle.extruder_keys)
        : gmap string Z) !! (k +:+ "_extruder") = Some value →
       out' !! (k +:+ "_extruder")
       = Some (Z.min value (if decide (3 = 0) then -1 else 0))) ∧
    (∀ k, k ∈ PresetBundle.extruder_keys →
       ∃ value, out' !! (k +:+ "_extruder") = Some value ∧ value ≤ 0) ∧
    (∀ key, key ∉ (λ k, k +:+ "_extruder") <$> PresetBundle.extruder_keys →
       out' !! key
       = (list_to_map
            ((λ k, (k +:+ "_extruder", 2)) <$> PresetBundle.extruder_keys)
          : gmap string Z) !! key).
Proof.
  apply (clamp_extruders_never_positive 3).
  - lia.
  - intros k Hk. unfold PresetBundle.extruder_keys in Hk.
    repeat (apply elem_of_cons in Hk as [->|Hk]);
      [..|by apply elem_of_nil in Hk]; by exists 2.
Defined.

(** ** The filament presets *)

Section filament_presets.
Context `{PresetExternals}.
Import PresetBundle.

Lemma store_filament_preset_run (this : t) (i : nat) (v : string) :
  (i < length (filament_presets this))%nat →
  store_filament_preset i v this
  = (set_filament_presets (<[i := v]> (filament_presets this)) this,
     Return tt).
Proof.
  intros Hi. unfold store_filament_preset. by rewrite store_run.
Qed.

Lemma set_filament_preset_run (this : t) (idx : nat) (name : string) :
  Z.of_nat idx < vector_max_size →
  set_filament_preset (Z.of_nat idx) name this
  = (set_filament_presets (filament_presets_set this idx name) this,
     Return tt).
Proof.
  intros Hidx. pose proof vector_max_size_range as Hmax.
  unfold set_filament_preset, filament_presets_set.
  erewrite bind_Return by reflexivity. rewrite Nat2Z.id.
  destruct (decide (Z.of_nat (length (filament_presets this)) ≤ Z.of_nat idx))
    as [Hle|Hgt].
  - rewrite decide_True by lia.
    unfold resize_filament_presets.
    rewrite Z.mod_small by lia. rewrite decide_False by lia.
    erewrite bind_Return by reflexivity.
    replace (Z.to_nat (Z.of_nat idx + 1)) with (S idx) by lia.
    rewrite store_filament_preset_run by (cbn; rewrite length_resize; lia).
    done.
  - rewrite decide_False by lia.
    erewrite bind_Return by reflexivity.
    rewrite store_filament_preset_run by lia. by destruct this.
Qed.

Lemma filament_presets_set_length (this : t) idx name :
  length (filament_presets_set this idx name)
  = (length (filament_presets this) `max` S idx)%nat.
Proof.
  unfold filament_presets_set. rewrite length_insert.
  case_decide; [rewrite length_resize|]; lia.
Qed.

Lemma filament_presets_set_lookup (this : t) idx name i :
  filament_presets_set this idx name !! i
  = if decide (i = idx) then Some (remove_suffix_modified name)
    else if decide (i < length (filament_presets this))%nat
    then filament_presets this !! i
    else if decide (i < idx)%nat
    then Some (default_preset_name (filaments this))
    else None.
Proof.
  unfold filament_presets_set.
  destruct (decide (i = idx)) as [->|Hne].
  - rewrite list_lookup_insert_eq; [done|].
    case_decide; [rewrite length_resize|]; lia.
  - rewrite list_lookup_insert_ne by done.
    destruct (decide (length (filament_presets this) ≤ idx)%nat) as [Hle|Hgt].
    + destruct (decide (i < length (filament_presets this))%nat) as [Hi|Hi].
      * rewrite lookup_resize by lia. done.
      * destruct (decide (i < idx)%nat).
        -- rewrite lookup_resize_new by lia. done.
        -- apply lookup_ge_None. rewrite length_resize. lia.
    + destruct (decide (i < length (filament_presets this))%nat) as [Hi|Hi];
        [done|].
      rewrite decide_False by lia. apply lookup_ge_None. lia.
Qed.

(** X21: [set_filament_preset] at an index [idx], a [size_t].  Below
    [max_size()] it never reads or writes outside the vector and never
    shrinks it: it returns, entry [idx] becomes the name without its
    modified suffix, the entries that existed keep their value, a gap
    between the old end and [idx] is filled with the name of the default
    filament preset, and the length is the larger of the old length and
    [idx + 1]; the collections are not touched.  From [max_size()] on,
    for an index at or past the end, [resize] throws and nothing has
    changed, except at the largest [size_t], where [idx + 1] wraps to
    zero: the vector is emptied and the write is out of range. *)
Theorem set_filament_preset_spec (this : t) (idx : Z) (name : string) :
  0 ≤ idx < 2 ^ 64 →
  (idx < vector_max_size →
   ∃ presets,
     set_filament_preset idx name this
       = (set_filament_presets presets this, Return tt) ∧
     length presets
       = (length (filament_presets this) `max` S (Z.to_nat idx))%nat ∧
     presets !! Z.to_nat idx = Some (remove_suffix_modified name) ∧
     (∀ i, i ≠ Z.to_nat idx → (i < length (filament_presets this))%nat →
        presets !! i = filament_presets this !! i) ∧
     (∀ i, (length (filament_presets this) ≤ i < Z.to_nat idx)%nat →
        presets !! i = Some (default_preset_name (filaments this)))) ∧
  (Z.of_nat (length (filament_presets this)) ≤ idx →
   vector_max_size ≤ idx < 2 ^ 64 - 1 →
   set_filament_preset idx name this = (this, Throw LengthError)) ∧
  (Z.of_nat (length (filament_presets this)) ≤ idx →
   idx = 2 ^ 64 - 1 →
   set_filament_preset idx name this
   = (set_filament_presets [] this, Undefined)).
Proof.
  intros Hidx. pose proof vector_max_size_range as Hmax. split_and!.
  - intros Hlt. exists (filament_presets_set this (Z.to_nat idx) name).
    split_and!.
    + rewrite <- (set_filament_preset_run this (Z.to_nat idx) name) by lia.
      by rewrite Z2Nat.id by lia.
    + apply filament_presets_set_length.
    + by rewrite filament_presets_set_lookup, decide_True.
    + intros i Hne Hi.
      by rewrite filament_presets_set_lookup, decide_False, decide_True.
    + intros i Hi.
      rewrite filament_presets_set_lookup, decide_False by lia.
      rewrite decide_False by lia. by rewrite decide_True by lia.
  - intros Hlen Hbig. unfold set_filament_preset.
    erewrite bind_Return by reflexivity.
    rewrite decide_True by done. unfold resize_filament_presets.
    rewrite Z.mod_small by lia. rewrite decide_True by lia.
    by erewrite bind_Throw by reflexivity.
  - intros Hlen ->. unfold set_filament_preset.
    erewrite bind_Return by reflexivity.
    rewrite decide_True by done. unfold resize_filament_presets.
    replace ((2 ^ 64 - 1 + 1) `mod` 2 ^ 64) with 0 by (by vm_compute).
    rewrite decide_False by lia.
    erewrite bind_Return by reflexivity.
    unfold store_filament_preset, store. cbn.
    by rewrite resize_0.
Qed.
End filament_presets.

(** ** Loading and exporting the selections *)

Section selections.
Context `{PresetExternals}.
Import PresetBundle.

Lemma set_filament_presets_set (v w : list string) (this : t) :
  set_filament_presets v (set_filament_presets w this)
  = set_filament_presets v this.
Proof. done. Qed.

Lemma set_filament_presets_id (this : t) :
  set_filament_presets (filament_presets this) this = this.
Proof. by destruct this. Qed.

(** The loop of [load_selections] from [i] on, when the keys
    [filament_i], ..., [filament_k] are bound and the loop ends at
    [k + 1]. *)
Lemma load_filament_selections_run (config : AppConfig) (k : nat) :
  ∀ n i this,
    (i ≤ S k)%nat → (S k ≤ i + n)%nat → (i + n ≤ 1000)%nat →
    (i ≤ length (filament_presets this))%nat →
    (∀ j, (i ≤ j ≤ k)%nat →
       AppConfig_has config "presets" (filament_key j) = true) →
    ((S k < i + n)%nat →
       AppConfig_has config "presets" (filament_key (S k)) = false) →
    ∃ presets,
      load_filament_selections config n i this
        = (set_filament_presets presets this, Return tt) ∧
      length presets = (length (filament_presets this) `max` S k)%nat ∧
      (∀ j, (i ≤ j ≤ k)%nat →
         presets !! j = Some (remove_suffix_modified (filament_key j))) ∧
      (∀ j, (j < i ∨ k < j)%nat → presets !! j = filament_presets this !! j).
Proof.
  assert (∀ n i this, i = S k →
    (i ≤ length (filament_presets this))%nat →
    ((S k < i + n)%nat →
       AppConfig_has config "presets" (filament_key (S k)) = false) →
    (n = 0%nat ∨ (S k < i + n)%nat) →
    ∃ presets,
      load_filament_selections config n i this
        = (set_filament_presets presets this, Return tt) ∧
      length presets = (length (filament_presets this) `max` S k)%nat ∧
      (∀ j, (i ≤ j ≤ k)%nat →
         presets !! j = Some (remove_suffix_modified (filament_key j))) ∧
      (∀ j, (j < i ∨ k < j)%nat → presets !! j = filament_presets this !! j))
    as Hend.
  { intros n i this -> Hlen Hstop Hn.
    exists (filament_presets this). split_and!.
    - rewrite set_filament_presets_id.
      destruct n as [|n]; [done|]. cbn.
      rewrite Hstop; [done|]. destruct Hn; [done|lia].
    - lia.
    - intros j ?. lia.
    - done. }
  pose proof vector_max_size_range as Hmax.
  induction n as [|n IH]; intros i this Hi Hk Hfuel Hlen Hhas Hstop.
  - apply Hend; [lia|done|done|by left].
  - destruct (decide (i = S k)) as [->|Hne].
    { apply Hend; [done|done|done|right; lia]. }
    cbn. rewrite Hhas by lia.
    erewrite bind_Return by (apply set_filament_preset_run; lia).
    set (this1 := set_filament_presets
                    (filament_presets_set this i (filament_key i)) this).
    destruct (IH (S i) this1) as (presets & Hrun & Hlength & Hnew & Hold).
    + lia.
    + lia.
    + lia.
    + subst this1. cbn. rewrite filament_presets_set_length. lia.
    + intros j Hj. apply Hhas. lia.
    + intros ?. apply Hstop. lia.
    + exists presets. split_and!.
      * by rewrite Hrun.
      * rewrite Hlength. subst this1. cbn.
        rewrite filament_presets_set_length. lia.
      * intros j Hj. destruct (decide (j = i)) as [->|Hji].
        -- rewrite Hold by lia. subst this1. cbn.
           by rewrite filament_presets_set_lookup, decide_True.
        -- apply Hnew. lia.
      * intros j Hj. rewrite Hold by lia. subst this1. cbn.
        rewrite filament_presets_set_lookup, decide_False by lia.
        case_decide; [done|]. rewrite decide_False by lia.
        symmetry. apply lookup_ge_None. lia.
Qed.

(** X22: [load_selections] takes the filament of the first extruder from
    the selected filament preset and, for the further extruders, stores
    the keys themselves: when the configuration binds [filament_1] to
    [filament_k] and the loop ends at [k + 1], entry [i] of the filament
    presets is the string [filament_i] without a modified suffix, not
    the value bound to that key, which is never read.  The vector grows
    to [k + 1] entries when it was shorter and entries above [k] are
    kept. *)
Theorem load_selections_filaments (config : AppConfig) (this : t) (k : nat) :
  (k ≤ 999)%nat →
  (∀ j, (1 ≤ j ≤ k)%nat →
     AppConfig_has config "presets" (filament_key j) = true) →
  ((k < 999)%nat →
     AppConfig_has config "presets" (filament_key (S k)) = false) →
  ∃ this',
    load_selections config this = (this', Return tt) ∧
    prints this'
      = select_preset_by_name (AppConfig_get config "presets" "print")
          (prints this) ∧
    filaments this'
      = select_preset_by_name (AppConfig_get config "presets" "filament")
          (filaments this) ∧
    printers this'
      = select_preset_by_name (AppConfig_get config "presets" "printer")
          (printers this) ∧
    length (filament_presets this')
      = (length (filament_presets this) `max` S k)%nat ∧
    filament_presets this' !! 0%nat
      = Some (remove_suffix_modified
                (selected_preset_name (filaments this'))) ∧
    (∀ j, (1 ≤ j ≤ k)%nat →
       filament_presets this' !! j
       = Some (remove_suffix_modified (filament_key j))) ∧
    (∀ j, (k < j)%nat →
       filament_presets this' !! j = filament_presets this !! j).
Proof.
  intros Hk Hhas Hstop. unfold load_selections.
  do 3 (erewrite bind_Return by reflexivity).
  pose proof vector_max_size_range as Hmax.
  erewrite bind_Return
    by (apply (set_filament_preset_run _ 0%nat); cbn; lia).
  set (this2 := set_filaments _ (set_prints _ this)).
  set (name := selected_preset_name (filaments this2)).
  set (this3 := set_filament_presets (filament_presets_set this2 0 name) this2).
  destruct (load_filament_selections_run config k 999 1 this3)
    as (presets & Hrun & Hlength & Hnew & Hold);
    [lia|lia|lia| |exact Hhas|intros ?; apply Hstop; lia|].
  { subst this3. cbn. rewrite filament_presets_set_length. lia. }
  erewrite bind_Return by exact Hrun.
  eexists. split; [reflexivity|]. cbn.
  split_and!; try done.
  - rewrite Hlength. subst this3. cbn.
    rewrite filament_presets_set_length. cbn. lia.
  - rewrite Hold by lia. subst this3. cbn.
    by rewrite filament_presets_set_lookup, decide_True.
  - intros j Hj. rewrite Hold by lia. subst this3. cbn.
    rewrite filament_presets_set_lookup, decide_False by lia. cbn.
    case_decide; [done|]. rewrite decide_False by lia.
    symmetry. apply lookup_ge_None. lia.
Qed.

(** A loop that reads [l] at every index of [xs] without a check. *)
Lemma foreach_unchecked_reads {S A} (l : list A) (f : nat → A → S → S)
    (xs : list nat) : ∀ s,
  (Forall (λ i, (i < length l)%nat) xs →
     ∃ s', foreach xs (λ i, v ← unchecked (l !! i); modify (f i v)) s
           = (s', Return tt)) ∧
  (¬ Forall (λ i, (i < length l)%nat) xs →
     (foreach xs (λ i, v ← unchecked (l !! i); modify (f i v)) s).2
     = Undefined).
Proof.
  induction xs as [|i xs IH]; intros s; cbn.
  - split; [by eexists|]. intros Hn. destruct Hn. constructor.
  - destruct (l !! i) as [v|] eqn:Hv.
    + apply lookup_lt_Some in Hv as Hi.
      erewrite bind_Return by (by erewrite bind_Return by reflexivity).
      destruct (IH (f i v s)) as [Hok Hbad]. split.
      * intros [_ Hxs]%Forall_cons. by apply Hok.
      * intros Hn. apply Hbad. intros Hxs. apply Hn. by constructor.
    + apply lookup_ge_None in Hv. split.
      * intros [Hi _]%Forall_cons. lia.
      * intros _. by unfold_M.
Qed.

(** X23: [export_selections] reads [filament_presets[i]] for every [i]
    from 1 to 999 without a check: it returns when the bundle holds at
    least 1000 filament presets, and on every other bundle it reads past
    the end of the vector, which is undefined behaviour. *)
Theorem export_selections_reads_1000 (this : t) (config : AppConfig) :
  ((export_selections this config).2 = Return tt
   ↔ (1000 ≤ length (filament_presets this))%nat) ∧
  ((export_selections this config).2 = Undefined
   ↔ (length (filament_presets this) < 1000)%nat).
Proof.
  assert (Forall (λ i, (i < length (filament_presets this))%nat) (seq 1 999)
          ↔ (1000 ≤ length (filament_presets this))%nat) as Hall.
  { rewrite Forall_forall. split.
    - intros Hall. specialize (Hall 999%nat). rewrite elem_of_seq in Hall. lia.
    - intros Hlen i Hi%elem_of_seq. lia. }
  unfold export_selections.
  do 2 (erewrite bind_Return by reflexivity).
  set (config2 := AppConfig_set "presets" "filament" _ _).
  destruct (foreach_unchecked_reads (filament_presets this)
              (λ i v, AppConfig_set "presets" (filament_key i) v)
              (seq 1 999) config2) as [Hok Hbad].
  destruct (decide (1000 ≤ length (filament_presets this))%nat) as [Hlen|Hlen].
  - destruct (Hok (proj2 Hall Hlen)) as (config3 & Hrun).
    erewrite bind_Return by exact Hrun. cbn.
    split; split; try done; lia.
  - assert (¬ Forall (λ i, (i < length (filament_presets this))%nat)
               (seq 1 999)) as Hnot by (by rewrite Hall).
    specialize (Hbad Hnot).
    destruct (foreach _ _ config2) as [config3 o] eqn:Hrun.
    cbn in Hbad. subst o.
    erewrite bind_Undefined by exact Hrun. cbn.
    split; split; try done; lia.
Qed.
End selections.

(** ** The filament presets of a multi-material printer *)

Section multi_material.
Context `{PresetExternals}.
Import PresetBundle.

(** The first loop from turn [i] on: the entries from [i] up to the
    smaller of the length and the number of extruders are replaced. *)
Lemma verify_filament_presets_run (num_extruders : nat) :
  ∀ n i this,
    let presets := filament_presets this in
    let bound := (length presets `min` num_extruders)%nat in
    (i ≤ bound)%nat → (bound < i + n)%nat →
    verify_filament_presets num_extruders n i this
    = (set_filament_presets
         (take i presets
          ++ (find_preset_name (filaments this)
                <$> take (bound - i) (drop i presets))
          ++ drop bound presets) this,
       Return tt).
Proof.
  induction n as [|n IH]; intros i this presets bound Hi Hn; [lia|].
  cbn [verify_filament_presets].
  erewrite bind_Return by reflexivity. fold presets. fold bound.
  destruct (decide (i < bound)%nat) as [Hlt|Hge].
  - destruct (lookup_lt_is_Some_2 presets i) as [name Hname]; [lia|].
    rewrite Hname. erewrite bind_Return by reflexivity.
    erewrite bind_Return by (apply store_filament_preset_run; fold presets; lia).
    fold presets.
    set (this1 := set_filament_presets _ this).
    assert (filament_presets this1
            = <[i := find_preset_name (filaments this) name]> presets)
      as Hpresets by done.
    assert (filaments this1 = filaments this) as Hfilaments by done.
    rewrite (IH (S i) this1);
      rewrite Hpresets, ?Hfilaments, length_insert; fold bound; [|lia..].
    subst this1. rewrite set_filament_presets_set. do 2 f_equal.
    rewrite (take_S_r _ _ (find_preset_name (filaments this) name))
      by (by rewrite list_lookup_insert_eq by lia).
    rewrite take_insert_ge by lia.
    rewrite !drop_insert_lt by lia.
    rewrite (drop_S presets name i Hname).
    replace (bound - i)%nat with (S (bound - S i)) by lia.
    cbn. by rewrite <- app_assoc.
  - assert (i = bound) as -> by lia.
    rewrite Nat.sub_diag, take_0, fmap_nil, app_nil_l, take_drop.
    subst presets. by rewrite set_filament_presets_id.
Qed.

(** X24: [update_multi_material_filament_presets] on a printer with [n]
    nozzle diameters.  The filament presets of the first [n] extruders
    are replaced by what [find_preset] answers for them, the presets of
    further extruders are kept as they are and are not looked up, and
    missing ones are filled with the first visible preset: the vector is
    never shortened to the number of extruders.  A selected printer
    without the option [nozzle_diameter] is a null pointer that is
    dereferenced. *)
Theorem update_multi_material_filament_presets_spec (this : t) :
  (∀ n, nozzle_diameter_size (printers this) = Some n →
     update_multi_material_filament_presets this
     = (set_filament_presets
          ((find_preset_name (filaments this)
              <$> take n (filament_presets this))
           ++ drop n (filament_presets this)
           ++ replicate (n - length (filament_presets this))
                (first_visible_name (filaments this)))
          this,
        Return tt)) ∧
  (nozzle_diameter_size (printers this) = None →
     update_multi_material_filament_presets this = (this, Undefined)).
Proof.
  unfold update_multi_material_filament_presets. split.
  - intros n Hn. erewrite bind_Return by reflexivity. rewrite Hn.
    erewrite bind_Return by reflexivity.
    erewrite bind_Return by (apply verify_filament_presets_run; lia).
    erewrite bind_Return by reflexivity.
    rewrite Nat.sub_0_r, take_0, drop_0, app_nil_l.
    set (presets := filament_presets this).
    assert (take (length presets `min` n) presets = take n presets) as ->.
    { destruct (decide (n ≤ length presets)%nat).
      - by rewrite Nat.min_r.
      - rewrite Nat.min_l by lia. by rewrite !take_ge by lia. }
    assert (drop (length presets `min` n) presets = drop n presets) as ->.
    { destruct (decide (n ≤ length presets)%nat).
      - by rewrite Nat.min_r.
      - rewrite Nat.min_l by lia. by rewrite !drop_ge by lia. }
    set (verified := (find_preset_name (filaments this) <$> take n presets)
                     ++ drop n presets).
    assert (length verified = length presets) as Hlength.
    { subst verified.
      rewrite length_app, length_fmap, length_take, length_drop. lia. }
    change (filament_presets (set_filament_presets verified this))
      with verified.
    change (filaments (set_filament_presets verified this))
      with (filaments this).
    rewrite Hlength. case_decide as Hlt.
    + unfold modify. rewrite set_filament_presets_set.
      rewrite resize_ge by lia. rewrite Hlength.
      subst verified. by rewrite <- app_assoc.
    + replace (n - length presets)%nat with 0%nat by lia.
      cbn [replicate]. by rewrite app_nil_r.
  - intros Hn. erewrite bind_Return by reflexivity. by rewrite Hn.
Qed.
End multi_material.

Section preset_examples.
Import PresetExample.

Lemma load_selections_filaments_witness :
  ∃ this',
    PresetBundle.load_selections PresetExample.config PresetExample.bundle
      = (this', Return tt) ∧
    PresetBundle.prints this'
      = select_preset_by_name
          (AppConfig_get PresetExample.config "presets" "print")
          (PresetBundle.prints PresetExample.bundle) ∧
    PresetBundle.filaments this'
      = select_preset_by_name
          (AppConfig_get PresetExample.config "presets" "filament")
          (PresetBundle.filaments PresetExample.bundle) ∧
    PresetBundle.printers this'
      = select_preset_by_name
          (AppConfig_get PresetExample.config "presets" "printer")
          (PresetBundle.printers PresetExample.bundle) ∧
    length (PresetBundle.filament_presets this')
      = (length (PresetBundle.filament_presets PresetExample.bundle)
         `max` 3)%nat ∧
    PresetBundle.filament_presets this' !! 0%nat
      = Some (remove_suffix_modified
                (selected_preset_name (PresetBundle.filaments this'))) ∧
    (∀ j, (1 ≤ j ≤ 2)%nat →
       PresetBundle.filament_presets this' !! j
       = Some (remove_suffix_modified (PresetBundle.filament_key j))) ∧
    (∀ j, (2 < j)%nat →
       PresetBundle.filament_presets this' !! j
       = PresetBundle.filament_presets PresetExample.bundle !! j).
Proof.
  apply (load_selections_filaments PresetExample.config PresetExample.bundle 2).
  - lia.
  - intros j Hj.
    assert (j = 1 ∨ j = 2)%nat as [-> | ->] by lia; by vm_compute.
  - intros _. by vm_compute.
Defined.

Lemma update_multi_material_filament_presets_spec_witness :
  PresetBundle.update_multi_material_filament_presets PresetExample.bundle
  = (PresetBundle.set_filament_presets
       ((find_preset_name (PresetBundle.filaments PresetExample.bundle)
           <$> take 4 (PresetBundle.filament_presets PresetExample.bundle))
        ++ drop 4 (PresetBundle.filament_presets PresetExample.bundle)
        ++ replicate
             (4 - length (PresetBundle.filament_presets PresetExample.bundle))
             (first_visible_name
                (PresetBundle.filaments PresetExample.bundle)))
       PresetExample.bundle,
     Return tt).
Proof.
  apply (proj1 (update_multi_material_filament_presets_spec
                  PresetExample.bundle) 4%nat).
  reflexivity.
Defined.

Lemma set_filament_preset_spec_witness :
  ∃ presets,
    PresetBundle.set_filament_preset 5 "ABS (modified)" PresetExample.bundle
      = (PresetBundle.set_filament_presets presets PresetExample.bundle,
         Return tt) ∧
    length presets
      = (length (PresetBundle.filament_presets PresetExample.bundle)
         `max` S (Z.to_nat 5))%nat ∧
    presets !! Z.to_nat 5 = Some (remove_suffix_modified "ABS (modified)") ∧
    (∀ i, i ≠ Z.to_nat 5 →
       (i < length (PresetBundle.filament_presets PresetExample.bundle))%nat →
       presets !! i
       = PresetBundle.filament_presets PresetExample.bundle !! i) ∧
    (∀ i,
       (length (PresetBundle.filament_presets PresetExample.bundle)
        ≤ i < Z.to_nat 5)%nat →
       presets !! i
       = Some (default_preset_name
                 (PresetBundle.filaments PresetExample.bundle))).
Proof.
  destruct (set_filament_preset_spec PresetExample.bundle 5 "ABS (modified)")
    as [Hbelow _]; [lia|].
  apply Hbelow. by vm_compute.
Defined.
End preset_examples.
